(** * VideoPipeline: the acquisition and transcoding workers

    An embedding of [videoPipeline.ts] and the properties of its two
    workers.

    - Paths are strings, taken apart and put together by Node's POSIX
      [path] functions (module [Path]).
    - The disk is a tree of directories and files (module [Fs]); a path
      is resolved from the root directory, links are not modelled.  The
      Blob Store is the directory [storage] of the module's directory.
    - The downloader, the encoder and the Kafka broker are functions
      supplied from outside: from the arguments of a call they tell how
      it ends.  An encoder that ends well has written its output file.
    - The conversions of one video run side by side; a schedule, any
      list of numbers, fixes the order in which they end.  Conversions
      still running when the join has failed are kept in [orphans].
    - The topic [video-uploads] is the list of its messages; the console
      output and the external programs started are kept in [trace]. *)

From Stdlib Require Import Ascii String.
From stdpp Require Import gmap strings list fin_maps.

Local Open Scope string_scope.
Local Open Scope list_scope.

(** ** Node's POSIX [path] module, on strings *)
Module Path.

Definition is_slash (c : ascii) : bool := Ascii.eqb c "/".

(** The pieces of a string between its separators: ["a//b"] gives
    ["a"; ""; "b"], the empty string gives [""]. *)
Fixpoint split (s : string) : list string :=
  match s with
  | EmptyString => [EmptyString]
  | String c s' =>
      if is_slash c then EmptyString :: split s'
      else match split s' with
           | seg :: rest => String c seg :: rest
           | [] => [String c EmptyString]
           end
  end.

(** One step of [normalizeString]: the stack holds the segments kept so
    far, innermost first. *)
Definition push (above : bool) (stack : list string) (seg : string) : list string :=
  if decide (seg = "" ∨ seg = ".") then stack
  else if decide (seg = "..") then
    match stack with
    | top :: rest =>
        if decide (top = "..") then (if above then ".." :: stack else stack)
        else rest
    | [] => if above then [".."] else []
    end
  else seg :: stack.

Definition walk (above : bool) (stack : list string) (segs : list string) : list string :=
  foldl (push above) stack segs.

Fixpoint glue (segs : list string) : string :=
  match segs with
  | [] => ""
  | [s] => s
  | s :: rest => s +:+ "/" +:+ glue rest
  end.

Definition is_absolute (p : string) : bool :=
  match p with String c _ => is_slash c | EmptyString => false end.

Fixpoint ends_with_slash (p : string) : bool :=
  match p with
  | EmptyString => false
  | String c EmptyString => is_slash c
  | String _ p' => ends_with_slash p'
  end.

(** [path.normalize] *)
Definition normalize (p : string) : string :=
  if decide (p = "") then "."
  else
    let abs := is_absolute p in
    let trail := ends_with_slash p in
    let res := glue (reverse (walk (negb abs) [] (split p))) in
    if decide (res = "") then
      (if abs then "/" else if trail then "./" else ".")
    else
      let res := if trail then res +:+ "/" else res in
      if abs then "/" +:+ res else res.

(** [path.join]: the non-empty arguments, glued and normalized. *)
Definition join (parts : list string) : string :=
  let joined := glue (filter (λ s, s ≠ "") parts) in
  if decide (joined = "") then "." else normalize joined.

(** The last component of a path, trailing separators ignored. *)
Definition component (p : string) : string :=
  default "" (last (filter (λ s, s ≠ "") (split p))).

(** [path.basename] with one argument. *)
Definition basename (p : string) : string := component p.

(** Position-free view of a component's extension: the text from its
    last dot on, when that dot is not the first character. *)
Fixpoint last_dot (s : string) : option string :=
  match s with
  | EmptyString => None
  | String c s' =>
      match last_dot s' with
      | Some e => Some e
      | None => if Ascii.eqb c "." then Some s else None
      end
  end.

(** [path.extname] *)
Definition extname (p : string) : string :=
  let c := component p in
  if decide (c = "..") then ""
  else match c with
       | EmptyString => ""
       | String c0 rest =>
           match last_dot rest with
           | Some e => e
           | None => ""
           end
       end.

(** [without_suffix suf s] is the text before [suf] when [s] ends with it. *)
Fixpoint without_suffix (suf s : string) : option string :=
  if decide (s = suf) then Some ""
  else match s with
       | String c s' => String c <$> without_suffix suf s'
       | EmptyString => None
       end.

(** [path.basename] with a suffix to drop.  The suffix goes when the
    component ends with it and is longer than it; [encodeVideo] passes
    the path's own [extname], which always is such a suffix or empty. *)
Definition basename_ext (p suf : string) : string :=
  if decide (suf = "") then component p
  else if decide (suf = p) then ""
  else
    let c := component p in
    match without_suffix suf c with
    | Some (String a pre) => String a pre
    | _ => c
    end.

(** [path.dirname] *)
Fixpoint drop_while {A} (f : A → bool) (l : list A) : list A :=
  match l with
  | x :: l' => if f x then drop_while f l' else l
  | [] => []
  end.

Definition dirname (p : string) : string :=
  match p with
  | EmptyString => "."
  | String c0 tl =>
      let r := reverse (list_ascii_of_string tl) in
      let r1 := drop_while is_slash r in
      let r2 := drop_while (λ c, negb (is_slash c)) r1 in
      match r2 with
      | [] => if is_slash c0 then "/" else "."
      | _ :: r3 =>
          if is_slash c0 && bool_decide (r3 = []) then "//"
          else String c0 (string_of_list_ascii (reverse r3))
      end
  end.

(** Where a path leads from the root: the file system below resolves
    every path against the root directory, where [..] stays in place. *)
Definition resolve (p : string) : list string := reverse (walk false [] (split p)).

Definition names_directory (p : string) : bool := ends_with_slash p.

End Path.

(** ** Results and errors *)

Inductive errno := ENOENT | ENOTDIR | EISDIR | EEXIST.

(** What a rejected promise or a thrown exception carries. *)
Inductive error :=
  | FsError (code : errno)
  | ExecError
  | EncodeError
  | KafkaError
  | TypeError.

Inductive result (A : Type) :=
  | Ok (a : A)
  | Err (e : error).
Arguments Ok {A} a.
Arguments Err {A} e.

(** ** The file system: a tree of directories and files *)
Module Fs.

#[local] Set Warnings "-register-all".

Definition bytes := list Byte.byte.

Inductive node :=
  | File (data : bytes)
  | Dir (entries : gmap string node).

Fixpoint find (n : node) (p : list string) : option node :=
  match p with
  | [] => Some n
  | s :: p' =>
      match n with
      | Dir es => match es !! s with Some c => find c p' | None => None end
      | File _ => None
      end
  end.

(** Create or truncate the file at [p] and fill it with [d]. *)
Fixpoint write (n : node) (p : list string) (d : bytes) : result node :=
  match p with
  | [] => match n with File _ => Ok (File d) | Dir _ => Err (FsError EISDIR) end
  | s :: p' =>
      match n with
      | File _ => Err (FsError ENOTDIR)
      | Dir es =>
          match es !! s with
          | Some c =>
              match write c p' d with
              | Ok c' => Ok (Dir (<[s:=c']> es))
              | Err e => Err e
              end
          | None =>
              match p' with
              | [] => Ok (Dir (<[s:=File d]> es))
              | _ :: _ => Err (FsError ENOENT)
              end
          end
      end
  end.

Fixpoint unlink (n : node) (p : list string) : result node :=
  match p with
  | [] => Err (FsError EISDIR)
  | s :: p' =>
      match n with
      | File _ => Err (FsError ENOTDIR)
      | Dir es =>
          match es !! s with
          | Some c =>
              match p' with
              | [] => match c with
                      | File _ => Ok (Dir (delete s es))
                      | Dir _ => Err (FsError EISDIR)
                      end
              | _ :: _ =>
                  match unlink c p' with
                  | Ok c' => Ok (Dir (<[s:=c']> es))
                  | Err e => Err e
                  end
              end
          | None => Err (FsError ENOENT)
          end
      end
  end.

(** [mkdir] without [recursive]: the parent must be there, the
    directory must not. *)
Fixpoint mkdir (n : node) (p : list string) : result node :=
  match p with
  | [] => Err (FsError EEXIST)
  | s :: p' =>
      match n with
      | File _ => Err (FsError ENOTDIR)
      | Dir es =>
          match es !! s with
          | Some c =>
              match mkdir c p' with
              | Ok c' => Ok (Dir (<[s:=c']> es))
              | Err e => Err e
              end
          | None =>
              match p' with
              | [] => Ok (Dir (<[s:=Dir ∅]> es))
              | _ :: _ => Err (FsError ENOENT)
              end
          end
      end
  end.

(** [mkdir] with [recursive: true]. *)
Fixpoint mkdir_p (n : node) (p : list string) : result node :=
  match p with
  | [] => match n with Dir _ => Ok n | File _ => Err (FsError EEXIST) end
  | s :: p' =>
      match n with
      | File _ => Err (FsError ENOTDIR)
      | Dir es =>
          match mkdir_p (default (Dir ∅) (es !! s)) p' with
          | Ok c' => Ok (Dir (<[s:=c']> es))
          | Err e => Err e
          end
      end
  end.

(** What a path names, as far as the program can tell. *)
Inductive entry := IsFile (data : bytes) | IsDir.

Definition stat (n : node) (p : list string) : option entry :=
  match find n p with
  | Some (File d) => Some (IsFile d)
  | Some (Dir _) => Some IsDir
  | None => None
  end.

End Fs.

(** ** The world the two workers act on *)

(** How one run of the external encoder ends: with the encoded bytes, or
    with a failure that may leave a partial output file behind. *)
Inductive transcode :=
  | Encoded (data : Fs.bytes)
  | Broken (debris : option Fs.bytes).

(** A conversion in flight: the [ffmpeg] process writing [conv_output]. *)
Record conversion := Conversion {
  conv_output : string;
  conv_outcome : transcode
}.

(** What [producer.connect/send/disconnect] do for one event. *)
Inductive delivery := ConnectFails | SendFails | DisconnectFails | Delivered.

Inductive event :=
  | ConsoleError (msg : string) (e : error)
  | ConsoleWarn (msg : string)
  | Exec (url output : string)
  | Ffmpeg (input output : string).

Record world := World {
  disk : Fs.node;
  video_uploads : list string;
  orphans : list conversion;
  trace : list event
}.

Definition set_disk (n : Fs.node) (w : world) : world :=
  World n (video_uploads w) (orphans w) (trace w).
Definition set_video_uploads (t : list string) (w : world) : world :=
  World (disk w) t (orphans w) (trace w).
Definition set_orphans (o : list conversion) (w : world) : world :=
  World (disk w) (video_uploads w) o (trace w).
Definition set_trace (t : list event) (w : world) : world :=
  World (disk w) (video_uploads w) (orphans w) t.

(** Computations that change the world and may throw (or reject). *)
Definition M (A : Type) : Type := world → world * result A.

#[global] Instance M_ret : MRet M := λ A a w, (w, Ok a).
#[global] Instance M_bind : MBind M := λ A B f m w,
  match m w with
  | (w', Ok a) => f a w'
  | (w', Err e) => (w', Err e)
  end.

Definition throw {A} (e : error) : M A := λ w, (w, Err e).

Definition catch {A} (m : M A) (handler : error → M A) : M A := λ w,
  match m w with
  | (w', Ok a) => (w', Ok a)
  | (w', Err e) => handler e w'
  end.

Definition emit (ev : event) : M unit := λ w,
  (set_trace (trace w ++ [ev]) w, Ok ()).

Definition skip : M unit := mret ().

(** [if (c) body] without an [else]. *)
Definition when (c : bool) (body : M unit) : M unit :=
  if c then body else skip.

(** A [for] loop whose body is awaited at every turn. *)
Fixpoint for_each {A} (l : list A) (body : A → M unit) : M unit :=
  match l with
  | [] => skip
  | x :: l' => body x ≫= λ _, for_each l' body
  end.

(** [array.map] with a callback that acts on the world. *)
Fixpoint map_each {A B} (f : A → M B) (l : list A) : M (list B) :=
  match l with
  | [] => mret []
  | x :: l' => y ← f x; ys ← map_each f l'; mret (y :: ys)
  end.

(** ** Node's [fs] calls on path strings *)

Definition lookup_path (n : Fs.node) (p : string) : option Fs.entry :=
  match Fs.stat n (Path.resolve p) with
  | Some (Fs.IsFile d) => if Path.names_directory p then None else Some (Fs.IsFile d)
  | o => o
  end.

Definition on_disk (f : Fs.node → result Fs.node) : M unit := λ w,
  match f (disk w) with
  | Ok n => (set_disk n w, Ok ())
  | Err e => (w, Err e)
  end.

Definition existsSync (p : string) : M bool := λ w,
  (w, Ok (bool_decide (is_Some (lookup_path (disk w) p)))).

Definition mkdirSync (p : string) (recursive : bool) : M unit :=
  on_disk (λ n, if recursive then Fs.mkdir_p n (Path.resolve p)
                else Fs.mkdir n (Path.resolve p)).

Definition write_path (p : string) (d : Fs.bytes) : M unit :=
  on_disk (λ n, if Path.names_directory p then Err (FsError EISDIR)
                else Fs.write n (Path.resolve p) d).

Definition unlinkSync (p : string) : M unit :=
  on_disk (λ n, if Path.names_directory p then Err (FsError ENOTDIR)
                else Fs.unlink n (Path.resolve p)).

Definition copyFile (src dest : string) : M unit := λ w,
  match lookup_path (disk w) src with
  | Some (Fs.IsFile d) => write_path dest d w
  | Some Fs.IsDir => (w, Err (FsError EISDIR))
  | None => (w, Err (FsError ENOENT))
  end.

(** ** videoPipeline.ts *)

Definition ids : list string := ["c-I5S_zTwAc"; "DHjqpvDnNGE"; "zQnBQ4tB3ZA"].
Definition outputFormats : list string := ["mp4"; "avi"; "webm"; "mkv"].

Section VideoPipeline.

(** The directory of the module, and the three external programs. *)
Context (__dirname : string).
Context (yt_dlp : string → string → option Fs.bytes).
Context (ffmpeg : string → string → transcode).
Context (broker : list string → string → delivery).

Definition storageDir : string := Path.join [__dirname; "storage"].

(** The statements at the top of the module. *)
Definition configure : M unit :=
  present ← existsSync storageDir;
  when (negb present) (mkdirSync storageDir true).

Definition uploadToS3 (localFilePath s3Key : string) : M unit :=
  let destPath := Path.join [storageDir; s3Key] in
  let destDir := Path.dirname destPath in
  present ← existsSync destDir;
  when (negb present) (mkdirSync destDir true) ≫= λ _,
  copyFile localFilePath destPath.

Definition downloadFromS3 (s3Key localPath : string) : M string :=
  let srcPath := Path.join [storageDir; s3Key] in
  copyFile srcPath localPath ≫= λ _, mret localPath.

Definition downloadYouTubeVideo (videoUrl outputPath : string) : M string :=
  emit (Exec videoUrl (outputPath +:+ ".mp4")) ≫= λ _,
  match yt_dlp videoUrl outputPath with
  | Some d =>
      catch (write_path (outputPath +:+ ".mp4") d) (λ _, throw ExecError) ≫= λ _,
      mret (outputPath +:+ ".mp4")
  | None => throw ExecError
  end.

Definition produceEvent (s3Key : string) : M unit := λ w,
  match broker (video_uploads w) s3Key with
  | ConnectFails | SendFails => (w, Err KafkaError)
  | DisconnectFails => (set_video_uploads (video_uploads w ++ [s3Key]) w, Err KafkaError)
  | Delivered => (set_video_uploads (video_uploads w ++ [s3Key]) w, Ok ())
  end.

(** A promise returned by [encodeVideo]: rejected by its executor, or
    waiting for its [ffmpeg] process. *)
Inductive promise :=
  | Rejected (e : error)
  | Pending (c : conversion).

Definition encodeVideo (inputPath format : string) : M promise :=
  let inputBasename := Path.basename_ext inputPath (Path.extname inputPath) in
  let outputDir := Path.join [__dirname; "temp_encoded"] in
  catch
    (present ← existsSync outputDir;
     when (negb present) (mkdirSync outputDir false) ≫= λ _,
     let outputPath := Path.join [outputDir; inputBasename +:+ "." +:+ format] in
     emit (Ffmpeg inputPath outputPath) ≫= λ _,
     mret (Pending (Conversion outputPath (ffmpeg inputPath outputPath))))
    (λ e, mret (Rejected e)).

(** The end of one [ffmpeg] process: its [end] or [error] event. *)
Definition settle (c : conversion) : M string :=
  match conv_outcome c with
  | Encoded d =>
      catch (write_path (conv_output c) d) (λ _, throw EncodeError) ≫= λ _,
      mret (conv_output c)
  | Broken debris =>
      match debris with
      | Some d => catch (write_path (conv_output c) d) (λ _, skip)
      | None => skip
      end ≫= λ _, throw EncodeError
  end.

(** The order in which conversions started together finish.  Any list
    of numbers is a schedule: the [i]-th conversion from the end is
    put at the place its number selects among those already placed. *)
Fixpoint completion_order {A} (sched : list nat) (cs : list A) : list A :=
  match cs with
  | [] => []
  | c :: cs' =>
      let rest := completion_order (tail sched) cs' in
      let k := (hd 0 sched) `mod` S (length rest) in
      take k rest ++ c :: drop k rest
  end.

Fixpoint await_all (order : list conversion) : M unit :=
  match order with
  | [] => skip
  | c :: rest => λ w,
      match settle c w with
      | (w', Ok _) => await_all rest w'
      | (w', Err e) => (set_orphans (orphans w' ++ rest) w', Err e)
      end
  end.

Fixpoint first_rejected (ps : list promise) : option error :=
  match ps with
  | [] => None
  | Rejected e :: _ => Some e
  | Pending _ :: ps' => first_rejected ps'
  end.

Fixpoint pending (ps : list promise) : list conversion :=
  match ps with
  | [] => []
  | Rejected _ :: ps' => pending ps'
  | Pending c :: ps' => c :: pending ps'
  end.

(** [Promise.all]: rejects with the first rejection and leaves the
    other conversions running; resolves with the outputs in the order
    of the promises once every conversion has ended. *)
Definition Promise_all (sched : list nat) (ps : list promise) : M (list string) :=
  match first_rejected ps with
  | Some e => λ w, (set_orphans (orphans w ++ pending ps) w, Err e)
  | None =>
      await_all (completion_order sched (pending ps)) ≫= λ _,
      mret (conv_output <$> pending ps)
  end.

Definition runProducer (ids : list string) : M unit :=
  let tempDir := Path.join [__dirname; "temp"] in
  present ← existsSync tempDir;
  when (negb present) (mkdirSync tempDir true) ≫= λ _,
  for_each ids (λ id,
    catch
      (let outputFilename := "downloaded_video_" +:+ id in
       let localOutputPath := Path.join [tempDir; outputFilename] in
       let videoUrl := "https://www.youtube.com/watch?v=" +:+ id in
       localOutputPath ← downloadYouTubeVideo videoUrl localOutputPath;
       let s3Key := "videos/" +:+ outputFilename +:+ ".mp4" in
       uploadToS3 localOutputPath s3Key ≫= λ _,
       produceEvent s3Key ≫= λ _,
       unlinkSync localOutputPath)
      (λ err, emit (ConsoleError "Error in producer:" err))).

Definition processVideo (sched : list nat) (outputFormats : list string)
    (s3Key : string) : M unit :=
  let tempDir := Path.join [__dirname; "temp_encoded"] in
  present ← existsSync tempDir;
  when (negb present) (mkdirSync tempDir true) ≫= λ _,
  let localVideoPath := Path.join [tempDir; Path.basename s3Key] in
  downloadFromS3 s3Key localVideoPath ≫= λ _,
  promises ← map_each (encodeVideo localVideoPath) outputFormats;
  encodedVideos ← Promise_all sched promises;
  for_each (seq 0 (length outputFormats)) (λ i,
    match encodedVideos !! i with
    | Some v =>
        uploadToS3 v ("encoded/" +:+ Path.basename v) ≫= λ _,
        unlinkSync v
    | None => throw TypeError
    end) ≫= λ _,
  unlinkSync localVideoPath.

(** The [eachMessage] handler of [runConsumer]; [value] is the
    payload of the message as a string, when it has one. *)
Definition eachMessage (sched : list nat) (outputFormats : list string)
    (value : option string) : M unit :=
  match value with
  | Some (String c s) => processVideo sched outputFormats (String c s)
  | _ => emit (ConsoleWarn "Received invalid message")
  end.

(** What the conversions nobody waits for do when they end. *)
Fixpoint reap (cs : list conversion) (w : world) : world :=
  match cs with
  | [] => w
  | c :: cs' => reap cs' (fst (settle c w))
  end.

End VideoPipeline.

(** Words used to state what the program does to paths. *)
Fixpoint slash_free (s : string) : bool :=
  match s with
  | EmptyString => true
  | String c s' => negb (Path.is_slash c) && slash_free s'
  end.

(** A name that stands for itself as one step of a path. *)
Definition proper (s : string) : Prop :=
  slash_free s = true ∧ s ≠ "" ∧ s ≠ "." ∧ s ≠ "..".

(** Stack entries: the pieces [normalize] glues back together. *)
Definition kept (s : string) : Prop := slash_free s = true ∧ s ≠ "".

(** What [normalize] keeps of a path, before it is glued. *)
Definition stack (p : string) : list string :=
  Path.walk (negb (Path.is_absolute p)) [] (Path.split p).

(** Where a relative path leads from a place given by its steps. *)
Definition enter (base : list string) (rel : string) : list string :=
  reverse (Path.walk false (reverse base) (Path.split rel)).

(** The bytes of the file at a place, when a file is there. *)
Definition fdata (n : Fs.node) (q : list string) : option Fs.bytes :=
  match Fs.stat n q with
  | Some (Fs.IsFile d) => Some d
  | _ => None
  end.

(** The bytes a path string gives access to. *)
Definition read_path (n : Fs.node) (p : string) : option Fs.bytes :=
  if Path.names_directory p then None else fdata n (Path.resolve p).

(** A path string names a file. *)
Definition is_file (w : world) (p : string) : Prop :=
  is_Some (read_path (disk w) p).

(** The Blob Store: the object under a key, and the objects at every
    place below the storage directory. *)
Definition blob (__dirname : string) (w : world) (key : string) : option Fs.bytes :=
  read_path (disk w) (Path.join [storageDir __dirname; key]).

Definition store (__dirname : string) (w : world) (rel : list string) : option Fs.bytes :=
  fdata (disk w) (Path.resolve (storageDir __dirname) ++ rel).

(** The handler's names for the places it works on. *)
Definition tempDir (__dirname : string) : string :=
  Path.join [__dirname; "temp_encoded"].

Definition localVideoPath (__dirname s3Key : string) : string :=
  Path.join [tempDir __dirname; Path.basename s3Key].

Definition outputPath (__dirname inputPath format : string) : string :=
  Path.join [tempDir __dirname;
             Path.basename_ext inputPath (Path.extname inputPath) +:+ "." +:+ format].

(** The three stretches of [processVideo]: the download of the
    original, the conversions up to the join, the uploads. *)
Definition fetch (__dirname s3Key : string) : M string :=
  present ← existsSync (tempDir __dirname);
  when (negb present) (mkdirSync (tempDir __dirname) true) ≫= λ _,
  downloadFromS3 __dirname s3Key (localVideoPath __dirname s3Key).

Definition convert (__dirname : string) (ffmpeg : string → string → transcode)
    (sched : list nat) (outputFormats : list string) (localVideoPath : string)
    : M (list string) :=
  promises ← map_each (encodeVideo __dirname ffmpeg localVideoPath) outputFormats;
  Promise_all sched promises.

Definition persist (__dirname : string) (count : nat) (encodedVideos : list string)
    : M unit :=
  for_each (seq 0 count) (λ i,
    match encodedVideos !! i with
    | Some v =>
        uploadToS3 __dirname v ("encoded/" +:+ Path.basename v) ≫= λ _,
        unlinkSync v
    | None => throw TypeError
    end).

(** The conversions [processVideo] starts for a local original. *)
Definition conversions (__dirname : string) (ffmpeg : string → string → transcode)
    (inputPath : string) (outputFormats : list string) : list conversion :=
  (λ format, Conversion (outputPath __dirname inputPath format)
               (ffmpeg inputPath (outputPath __dirname inputPath format)))
  <$> outputFormats.

(** The encoder runs they record in the trace. *)
Definition started (__dirname inputPath : string) (outputFormats : list string)
    : list event :=
  (λ format, Ffmpeg inputPath (outputPath __dirname inputPath format)) <$> outputFormats.

(** The key under which the encoding of an original in one format is
    stored: the name of the original without its extension, with the
    format as its extension, under [encoded/]. *)
Definition encoded_name (s3Key format : string) : string :=
  Path.basename_ext s3Key (Path.extname s3Key) +:+ "." +:+ format.

Definition encoded_key (s3Key format : string) : string :=
  "encoded/" +:+ encoded_name s3Key format.

(** Where the upload loop takes a file from, and where it puts it. *)
Definition source (v : string) : list string := Path.resolve v.

Definition target (__dirname : string) (key : string → string) (v : string)
    : list string :=
  Path.resolve (Path.join [storageDir __dirname; key v]).

(** The key [processVideo] stores an encoded file under. *)
Definition upload_key (v : string) : string := "encoded/" +:+ Path.basename v.

(** The acquisition worker's names: its scratch directory, the file
    name, the address and the key it derives from a source id, and the
    two halves of one turn of its loop. *)
Definition producerTempDir (__dirname : string) : string :=
  Path.join [__dirname; "temp"].

Definition outputFilename (id : string) : string := "downloaded_video_" +:+ id.

Definition videoUrl (id : string) : string := "https://www.youtube.com/watch?v=" +:+ id.

Definition videoKey (id : string) : string := "videos/" +:+ outputFilename id +:+ ".mp4".

Definition acquire (__dirname : string) (yt_dlp : string → string → option Fs.bytes)
    (broker : list string → string → delivery) (id : string) : M unit :=
  localOutputPath ← downloadYouTubeVideo yt_dlp (videoUrl id)
                      (Path.join [producerTempDir __dirname; outputFilename id]);
  uploadToS3 __dirname localOutputPath (videoKey id) ≫= λ _,
  produceEvent broker (videoKey id) ≫= λ _,
  unlinkSync localOutputPath.

Definition attempt (__dirname : string) (yt_dlp : string → string → option Fs.bytes)
    (broker : list string → string → delivery) (id : string) : M unit :=
  catch (acquire __dirname yt_dlp broker id)
    (λ err, emit (ConsoleError "Error in producer:" err)).

(** Nothing but the disk differs. *)
Definition disk_only (w w' : world) : Prop :=
  video_uploads w' = video_uploads w ∧ orphans w' = orphans w ∧ trace w' = trace w.




(** A target format that is a plain file extension. *)
Definition extension (f : string) : Prop :=
  slash_free f = true ∧ f ≠ "" ∧ f ≠ ".".

(** ** Sample worlds *)

(** A disk on which [/app/storage/videos/] holds one original. *)
Definition sample_disk (name : string) (data : Fs.bytes) : Fs.node :=
  Fs.Dir {[ "app" := Fs.Dir {[ "storage" := Fs.Dir {[ "videos" :=
    Fs.Dir {[ name := Fs.File data ]} ]} ]} ]}.

Definition sample_world (name : string) : world :=
  World (sample_disk name [Byte.x01]) [] [] [].

(** An encoder that always ends well. *)
Definition sample_ffmpeg (input output : string) : transcode :=
  Encoded [Byte.x02].

(** An encoder that breaks on [avi] and leaves nothing behind. *)
Definition sample_ffmpeg_no_avi (input output : string) : transcode :=
  if decide (Path.extname output = ".avi") then Broken None else Encoded [Byte.x02].

(** An encoder for a second run, with other bytes. *)
Definition sample_ffmpeg_again (input output : string) : transcode :=
  Encoded [Byte.x03].

(** A disk with the directory of the module and nothing else, a
    downloader that cannot fetch the id [b], a broker that takes every
    message. *)
Definition sample_empty_world : world :=
  World (Fs.Dir {[ "app" := Fs.Dir ∅ ]}) [] [] [].

Definition sample_yt_dlp (url output : string) : option Fs.bytes :=
  if decide (url = videoUrl "b") then None else Some [Byte.x07].

Definition sample_broker (log : list string) (message : string) : delivery :=
  Delivered.

(** ** Words for the runs of the downloader *)

(** The runs of the downloader a trace records, with the address and
    the output path of each. *)
Definition downloads (t : list event) : list (string * string) :=
  omap (λ ev, match ev with Exec url output => Some (url, output) | _ => None end) t.

(** The run of the downloader a source id asks for. *)
Definition download_of (__dirname id : string) : string * string :=
  (videoUrl id, Path.join [producerTempDir __dirname; outputFilename id] +:+ ".mp4").

(** ** More sample worlds *)

(** A broker that takes the message and fails to disconnect. *)
Definition sample_broker_hangup (log : list string) (message : string) : delivery :=
  DisconnectFails.

(** A disk on which the store holds [videos/a.mov] and [other/a.wmv]. *)
Definition sample_world_two : world :=
  World (Fs.Dir {[ "app" := Fs.Dir {[ "storage" := Fs.Dir
           {[ "videos" := Fs.Dir {[ "a.mov" := Fs.File [Byte.x01] ]};
              "other" := Fs.Dir {[ "a.wmv" := Fs.File [Byte.x04] ]} ]} ]} ]})
    [] [] [].

(** * Properties *)

(** ** Node's [path] on sample paths *)

Example path_split_ex : Path.split "/a//b/" = [""; "a"; ""; "b"; ""].
Proof. reflexivity. Qed.
Example path_join_ex1 : Path.join ["/app"; "storage"] = "/app/storage".
Proof. vm_compute. reflexivity. Qed.
Example path_join_ex2 : Path.join ["/app/storage"; "videos/../x/./y.mp4/"] = "/app/storage/x/y.mp4/".
Proof. vm_compute. reflexivity. Qed.
Example path_join_ex3 : Path.join ["a"; "../../b"] = "../b".
Proof. vm_compute. reflexivity. Qed.
Example path_base_ex : Path.basename "videos/x.mp4" = "x.mp4".
Proof. vm_compute. reflexivity. Qed.
Example path_ext_ex : map Path.extname ["a/x.mp4"; ".bashrc"; ".."; "a.."; "..."; "x."; "a/b.c/"; "x"; "a.b.c"]
   = [".mp4"; ""; ""; "."; "."; "."; ".c"; ""; ".c"].
Proof. vm_compute. reflexivity. Qed.
Example path_bext_ex : map (λ p, Path.basename_ext p (Path.extname p)) ["/t/x.mp4"; "/t/x"; "/t/.x"; "/t/a.b.c"; "x.mp4/"]
   = ["x"; "x"; ".x"; "a.b"; "x"].
Proof. vm_compute. reflexivity. Qed.
Example path_dir_ex : map Path.dirname ["/a/b/c.mp4"; "/a"; "a"; "a/b/"; "//a"; "a//b"; "/"; ""]
   = ["/a/b"; "/"; "."; "a"; "//"; "a/"; "/"; "."].
Proof. vm_compute. reflexivity. Qed.

(** ** The file system *)
Module FsFacts.
Import Fs.

Lemma stat_nil n : stat n [] = Some (match n with File d => IsFile d | Dir _ => IsDir end).
Proof. by destruct n. Qed.

Lemma stat_cons_dir es s q :
  stat (Dir es) (s :: q) = match es !! s with Some c => stat c q | None => None end.
Proof. unfold stat; simpl. by destruct (es !! s). Qed.

Lemma stat_below_file n p d q :
  stat n p = Some (IsFile d) → q ≠ [] → stat n (p ++ q) = None.
Proof.
  revert n. induction p as [|s p IH]; intros n Hf Hq.
  - destruct n; [|done]. by destruct q.
  - destruct n as [|es]; [done|]. simpl. rewrite stat_cons_dir in Hf |- *.
    destruct (es !! s); [by apply IH|done].
Qed.

Lemma stat_below_none n p q : stat n p = None → stat n (p ++ q) = None.
Proof.
  revert n. induction p as [|s p IH]; intros n Hf.
  - by rewrite stat_nil in Hf.
  - destruct n as [|es]; [done|]. simpl. rewrite stat_cons_dir in Hf |- *.
    destruct (es !! s); [by apply IH|done].
Qed.

(** A path that leads somewhere passes through directories only. *)
Lemma stat_above n p q :
  is_Some (stat n (p ++ q)) → q ≠ [] → stat n p = Some IsDir.
Proof.
  intros Hs Hq. destruct (stat n p) as [[d|]|] eqn:E; [|done|].
  - rewrite (stat_below_file _ _ _ _ E Hq) in Hs. by destruct Hs.
  - rewrite (stat_below_none _ _ q E) in Hs. by destruct Hs.
Qed.

Lemma stat_write n p d n' q :
  write n p d = Ok n' →
  stat n' q = if decide (q = p) then Some (IsFile d) else stat n q.
Proof.
  revert n n' q. induction p as [|s p IH]; intros n n' q Hw; simpl in Hw.
  - destruct n; [|done]. injection Hw as <-. by destruct q.
  - destruct n as [|es]; [done|].
    destruct (es !! s) as [c|] eqn:Es.
    + destruct (write c p d) as [c'|] eqn:Hc; [|done]. injection Hw as <-.
      destruct q as [|t q]; [done|]. rewrite !stat_cons_dir.
      destruct (decide (t = s)) as [->|Hts].
      * rewrite lookup_insert_eq, Es, (IH _ _ q Hc).
        repeat case_decide; congruence.
      * rewrite lookup_insert_ne by done. case_decide; congruence.
    + destruct p; [|done]. injection Hw as <-.
      destruct q as [|t q]; [done|]. rewrite !stat_cons_dir.
      destruct (decide (t = s)) as [->|Hts].
      * rewrite lookup_insert_eq, Es. destruct q; by case_decide.
      * rewrite lookup_insert_ne by done. case_decide; congruence.
Qed.

Lemma stat_unlink n p n' q :
  unlink n p = Ok n' →
  stat n' q = if decide (q = p) then None else stat n q.
Proof.
  revert n n' q. induction p as [|s p IH]; intros n n' q Hu; simpl in Hu; [done|].
  destruct n as [|es]; [done|].
  destruct (es !! s) as [c|] eqn:Es; [|done].
  destruct p as [|s' p].
  - destruct c as [d|]; [|done]. injection Hu as <-.
    destruct q as [|t q]; [done|]. rewrite !stat_cons_dir.
    destruct (decide (t = s)) as [->|Hts].
    + rewrite lookup_delete_eq, Es. destruct q; by case_decide.
    + rewrite lookup_delete_ne by done. case_decide; congruence.
  - destruct (unlink c (s' :: p)) as [c'|] eqn:Hc; [|done]. injection Hu as <-.
    destruct q as [|t q]; [done|]. rewrite !stat_cons_dir.
    destruct (decide (t = s)) as [->|Hts].
    + rewrite lookup_insert_eq, Es, (IH _ _ q Hc).
      repeat case_decide; congruence.
    + rewrite lookup_insert_ne by done. case_decide; congruence.
Qed.

Lemma stat_mkdir n p n' q :
  mkdir n p = Ok n' →
  stat n' q = if decide (q = p) then Some IsDir else stat n q.
Proof.
  revert n n' q. induction p as [|s p IH]; intros n n' q Hm; simpl in Hm; [done|].
  destruct n as [|es]; [done|].
  destruct (es !! s) as [c|] eqn:Es.
  - destruct (mkdir c p) as [c'|] eqn:Hc; [|done]. injection Hm as <-.
    destruct q as [|t q]; [done|]. rewrite !stat_cons_dir.
    destruct (decide (t = s)) as [->|Hts].
    + rewrite lookup_insert_eq, Es, (IH _ _ q Hc).
      repeat case_decide; congruence.
    + rewrite lookup_insert_ne by done. case_decide; congruence.
  - destruct p; [|done]. injection Hm as <-.
    destruct q as [|t q]; [done|]. rewrite !stat_cons_dir.
    destruct (decide (t = s)) as [->|Hts].
    + rewrite lookup_insert_eq, Es. destruct q; by case_decide.
    + rewrite lookup_insert_ne by done. case_decide; congruence.
Qed.

Lemma stat_empty_dir q : q ≠ [] → stat (Dir ∅) q = None.
Proof. destruct q; [done|]. intros _. by rewrite stat_cons_dir, lookup_empty. Qed.

Lemma stat_mkdir_p n p n' q :
  mkdir_p n p = Ok n' →
  stat n' q = if decide (q `prefix_of` p) then Some IsDir else stat n q.
Proof.
  revert n n' q. induction p as [|s p IH]; intros n n' q Hm; simpl in Hm.
  - destruct n as [|es]; [done|]. injection Hm as <-.
    case_decide as Hp; [|done]. apply prefix_nil_inv in Hp as ->. done.
  - destruct n as [|es]; [done|].
    destruct (mkdir_p (default (Dir ∅) (es !! s)) p) as [c'|] eqn:Hc; [|done].
    injection Hm as <-.
    destruct q as [|t q].
    { rewrite decide_True by apply prefix_nil. done. }
    rewrite !stat_cons_dir.
    destruct (decide (t = s)) as [->|Hts].
    + rewrite lookup_insert_eq, (IH _ _ q Hc).
      destruct (decide (q `prefix_of` p)) as [Hp|Hp].
      * rewrite decide_True; [done|]. by apply prefix_cons.
      * rewrite decide_False.
        2:{ intros Hp'. apply Hp. by apply prefix_cons_inv_2 in Hp'. }
        destruct (es !! s) eqn:Es; simpl; [done|].
        apply stat_empty_dir. intros ->. apply Hp, prefix_nil.
    + rewrite lookup_insert_ne by done.
      rewrite decide_False; [done|].
      intros Hp'. by apply prefix_cons_inv_1 in Hp'.
Qed.

End FsFacts.

(** ** Paths *)
Module PathFacts.
Import Path.

Lemma split_nonempty s : split s ≠ [].
Proof. destruct s as [|c s]; simpl; [done|]. destruct (is_slash c); [done|]. by destruct (split s). Qed.

Lemma split_slash_free s : slash_free s = true → split s = [s].
Proof.
  induction s as [|c s IH]; simpl; [done|].
  intros [Hc Hs]%andb_prop. apply negb_true_iff in Hc. rewrite Hc, IH; done.
Qed.

Lemma split_app_slash a b : split (a +:+ String "/" b) = split a ++ split b.
Proof.
  induction a as [|c a IH]; simpl; [done|].
  destruct (is_slash c); [by rewrite IH|].
  rewrite IH. pose proof (split_nonempty a). by destruct (split a).
Qed.

Lemma split_all_slash_free s : Forall (λ seg, slash_free seg = true) (split s).
Proof.
  induction s as [|c s IH]; simpl; [by repeat constructor|].
  destruct (is_slash c) eqn:Hc; [by constructor|].
  destruct (split s) as [|seg rest].
  - repeat constructor. simpl. by rewrite Hc.
  - inversion IH; subst. constructor; [|done]. simpl. by rewrite Hc.
Qed.

Lemma walk_app above st l1 l2 :
  walk above st (l1 ++ l2) = walk above (walk above st l1) l2.
Proof. apply foldl_app. Qed.

Lemma push_proper above st seg : proper seg → push above st seg = seg :: st.
Proof.
  intros (_ & H1 & H2 & H3). unfold push.
  rewrite decide_False by (intros [?|?]; done). by rewrite decide_False.
Qed.

Lemma walk_proper above st segs :
  Forall proper segs → walk above st segs = reverse segs ++ st.
Proof.
  revert st. induction segs as [|s segs IH]; intros st Hp; [done|].
  inversion Hp; subst. simpl. rewrite push_proper by done. rewrite IH by done.
  by rewrite reverse_cons, <- app_assoc.
Qed.

Lemma push_false_proper st seg :
  Forall proper st → slash_free seg = true → Forall proper (push false st seg).
Proof.
  intros Hst Hs. unfold push. repeat case_decide; try done.
  - destruct st; [done|]. case_decide; [done|]. by inversion Hst.
  - constructor; [|done]. split; [done|]. naive_solver.
Qed.

Lemma walk_false_proper st segs :
  Forall proper st → Forall (λ s, slash_free s = true) segs →
  Forall proper (walk false st segs).
Proof.
  revert st. induction segs as [|s segs IH]; intros st Hst Hs; [done|].
  inversion Hs; subst. simpl. apply IH; [|done]. by apply push_false_proper.
Qed.

Lemma append_empty_l s : "" +:+ s = s.
Proof. done. Qed.

Lemma glue_cons s s2 l : glue (s :: s2 :: l) = s +:+ String "/" (glue (s2 :: l)).
Proof. done. Qed.

Lemma split_glue l : l ≠ [] → Forall kept l → split (glue l) = l.
Proof.
  induction l as [|s l IH]; [done|]. intros _ Hk. inversion Hk as [|? ? [Hs _] Hl]; subst.
  destruct l as [|s2 l].
  - by apply split_slash_free.
  - rewrite glue_cons, split_app_slash, split_slash_free, IH by done. done.
Qed.

Lemma glue_empty l : Forall kept l → glue l = "" → l = [].
Proof.
  destruct l as [|s l]; [done|]. intros Hk. inversion Hk as [|? ? [_ Hs] _]; subst.
  destruct l; simpl; [done|]. destruct s; [done|]. done.
Qed.

Lemma push_kept above st seg :
  Forall kept st → slash_free seg = true → Forall kept (push above st seg).
Proof.
  intros Hst Hs. unfold push. repeat case_decide; try done.
  - destruct st as [|top st]; [destruct above; by repeat constructor|].
    case_decide; [destruct above; [by constructor|done]|]. by inversion Hst.
  - constructor; [|done]. split; [done|]. naive_solver.
Qed.

Lemma walk_kept above st segs :
  Forall kept st → Forall (λ s, slash_free s = true) segs →
  Forall kept (walk above st segs).
Proof.
  revert st. induction segs as [|s segs IH]; intros st Hst Hs; [done|].
  inversion Hs; subst. simpl. apply IH; [|done]. by apply push_kept.
Qed.

Lemma walk_cons above st s segs :
  walk above st (s :: segs) = walk above (push above st s) segs.
Proof. done. Qed.

Lemma push_true_false s stF k :
  Forall proper stF → slash_free s = true →
  ∃ k', push true (stF ++ replicate k "..") s = push false stF s ++ replicate k' "..".
Proof.
  intros HF Hs. unfold push.
  destruct (decide (s = "" ∨ s = ".")); [by exists k|].
  destruct (decide (s = "..")); [|by exists k].
  destruct stF as [|top stF]; simpl.
  - destruct k as [|k]; simpl; [by exists 1|]. by exists (S (S k)).
  - inversion HF as [|? ? (_ & _ & _ & Htop) HF']; subst.
    rewrite !decide_False by done. by exists k.
Qed.

(** Climbing above the start only piles up [..] under what a walk from
    the root keeps. *)
Lemma walk_true_false segs stF k :
  Forall proper stF → Forall (λ s, slash_free s = true) segs →
  ∃ k', walk true (stF ++ replicate k "..") segs
        = walk false stF segs ++ replicate k' "..".
Proof.
  revert stF k. induction segs as [|s segs IH]; intros stF k HF Hs; [by exists k|].
  inversion Hs as [|? ? Hs1 Hs2]; subst. rewrite !walk_cons.
  destruct (push_true_false s stF k HF Hs1) as [k' ->].
  apply IH; [|done]. by apply push_false_proper.
Qed.

Lemma walk_false_dots k : walk false [] (replicate k "..") = [].
Proof. induction k; [done|]. simpl. done. Qed.

Lemma walk_snoc_empty above st segs : walk above st (segs ++ [""]) = walk above st segs.
Proof. by rewrite walk_app. Qed.

Lemma stack_kept p : Forall kept (stack p).
Proof. apply walk_kept; [done|apply split_all_slash_free]. Qed.

Lemma stack_climb p : ∃ k, stack p = walk false [] (split p) ++ replicate k "..".
Proof.
  unfold stack. destruct (is_absolute p); simpl.
  - exists 0. by rewrite app_nil_r.
  - apply (walk_true_false (split p) [] 0); [done|apply split_all_slash_free].
Qed.

Lemma split_normalize p :
  stack p ≠ [] →
  split (normalize p)
  = (if is_absolute p then [""] else []) ++ reverse (stack p)
    ++ (if ends_with_slash p then [""] else []).
Proof.
  intros Hst. unfold normalize. fold (stack p).
  assert (Hp : p ≠ "") by (intros ->; done).
  rewrite decide_False by done.
  pose proof (stack_kept p) as Hk.
  assert (Hg : glue (reverse (stack p)) ≠ "").
  { intros Hg. apply glue_empty in Hg; [|by apply Forall_reverse].
    apply Hst. by rewrite <- (reverse_involutive (stack p)), Hg. }
  rewrite decide_False by done.
  assert (Hs : split (glue (reverse (stack p))) = reverse (stack p)).
  { apply split_glue; [|by apply Forall_reverse].
    intros Hr. apply Hst. by rewrite <- (reverse_involutive (stack p)), Hr. }
  assert (Hs' : split (glue (reverse (stack p)) +:+ "/") = reverse (stack p) ++ [""]).
  { by rewrite split_app_slash, Hs. }
  destruct (is_absolute p), (ends_with_slash p); simpl;
    rewrite ?append_empty_l, ?Hs', ?Hs, ?app_nil_r; done.
Qed.

Lemma resolve_normalize p : resolve (normalize p) = resolve p.
Proof.
  destruct (decide (p = "")) as [->|Hp]; [done|].
  destruct (stack_climb p) as [k Hk].
  destruct (decide (stack p = [])) as [He|Hne].
  - unfold resolve at 2. rewrite He in Hk. symmetry in Hk.
    apply app_eq_nil in Hk as [-> _].
    unfold normalize. fold (stack p). rewrite He, decide_False by done. simpl.
    by destruct (is_absolute p), (ends_with_slash p).
  - unfold resolve. rewrite split_normalize by done. f_equal.
    assert (Hw : walk false [] (reverse (stack p)) = walk false [] (split p)).
    { rewrite Hk, reverse_app, reverse_replicate, walk_app, walk_false_dots.
      rewrite walk_proper, reverse_involutive, app_nil_r; [done|].
      apply Forall_reverse. apply walk_false_proper; [done|apply split_all_slash_free]. }
    destruct (is_absolute p), (ends_with_slash p); simpl;
      rewrite ?walk_snoc_empty, ?app_nil_r; done.
Qed.

Lemma filter_nonempty_pair (a b : string) :
  filter (λ s : string, s ≠ "") [a; b]
  = (if decide (a = "") then [] else [a]) ++ (if decide (b = "") then [] else [b]).
Proof.
  destruct (decide (a = "")), (decide (b = "")); subst;
    repeat first [rewrite filter_cons_True by done | rewrite filter_cons_False by naive_solver];
    done.
Qed.

Lemma append_nonempty a b : b ≠ "" → a +:+ b ≠ "".
Proof. destruct a; simpl; done. Qed.

Lemma resolve_join a b : resolve (join [a; b]) = enter (resolve a) b.
Proof.
  unfold join, enter. rewrite filter_nonempty_pair.
  unfold resolve at 2. rewrite reverse_involutive.
  destruct (decide (a = "")) as [->|Ha], (decide (b = "")) as [->|Hb]; simpl.
  - done.
  - rewrite decide_False by done. by rewrite resolve_normalize.
  - rewrite decide_False by done. rewrite resolve_normalize.
    unfold resolve. by rewrite <- (walk_snoc_empty false [] (split a)), walk_app.
  - change (a +:+ "/" +:+ b) with (a +:+ String "/" b).
    rewrite decide_False by (apply append_nonempty; done).
    rewrite resolve_normalize. unfold resolve. by rewrite split_app_slash, walk_app.
Qed.

Lemma enter_proper base rel segs :
  split rel = segs → Forall proper segs → enter base rel = base ++ segs.
Proof.
  intros <- Hp. unfold enter. rewrite walk_proper by done.
  by rewrite reverse_app, !reverse_involutive.
Qed.

Lemma enter_name base name : proper name → enter base name = base ++ [name].
Proof.
  intros Hp. apply enter_proper; [apply split_slash_free, Hp|].
  constructor; [done|constructor].
Qed.

(** ** The last step of a path *)

Lemma split_singleton_empty s : split s = [""] → s = "".
Proof.
  destruct s as [|c s]; [done|]. simpl. pose proof (split_nonempty s).
  destruct (is_slash c); destruct (split s); naive_solver.
Qed.

Lemma last_cons_cons {A} (x y : A) l : last (x :: y :: l) = last (y :: l).
Proof. done. Qed.

Lemma last_split_empty s :
  ends_with_slash s = true → last (split s) = Some "".
Proof.
  induction s as [|c s IH]; [done|].
  destruct s as [|c' s'].
  - simpl. by intros ->.
  - intros He. change (ends_with_slash (String c' s') = true) in He.
    specialize (IH He). remember (String c' s') as s eqn:Hs.
    simpl. pose proof (split_nonempty s) as Hne.
    destruct (split s) as [|x l] eqn:Es; [done|].
    destruct (is_slash c).
    + by rewrite last_cons_cons.
    + destruct l as [|y l]; [|by rewrite last_cons_cons in IH |- *].
      simpl in IH. injection IH as ->.
      apply split_singleton_empty in Es. congruence.
Qed.

Lemma last_filter {A} (P : A → Prop) `{∀ x, Decision (P x)} (l : list A) x :
  last l = Some x → P x → last (filter P l) = Some x.
Proof.
  intros [l' ->]%last_Some HP.
  rewrite filter_app, filter_cons_True, filter_nil by done.
  apply last_snoc.
Qed.

Section LastStep.
Context (p name : string).
Context (Hlast : last (split p) = Some name) (Hname : name ≠ "").

Lemma component_last : component p = name.
Proof using Hlast Hname. unfold component. by rewrite (last_filter _ _ name). Qed.

Lemma names_directory_last : names_directory p = false.
Proof using Hlast Hname.
  unfold names_directory. destruct (ends_with_slash p) eqn:E; [|done].
  apply last_split_empty in E. congruence.
Qed.
End LastStep.

Lemma last_split_normalize p name :
  last (split p) = Some name → proper name →
  last (split (normalize p)) = Some name.
Proof.
  intros Hl Hp. apply last_Some in Hl as [l Hl].
  assert (Hst : stack p = name :: walk (negb (is_absolute p)) [] l).
  { unfold stack. rewrite Hl, walk_app. simpl. by rewrite push_proper. }
  rewrite split_normalize by (rewrite Hst; done).
  assert (ends_with_slash p = false) as ->.
  { apply (names_directory_last p name); [by rewrite Hl, last_snoc|apply Hp]. }
  rewrite app_nil_r, Hst, reverse_cons, app_assoc. apply last_snoc.
Qed.

Lemma last_split_join a b name :
  last (split b) = Some name → proper name →
  last (split (join [a; b])) = Some name.
Proof.
  intros Hl Hp. unfold join. rewrite filter_nonempty_pair.
  assert (Hb : b ≠ "").
  { intros ->. simpl in Hl. destruct Hp as (_ & ? & _). congruence. }
  rewrite (decide_False (P := b = "")) by done.
  destruct (decide (a = "")) as [->|Ha]; simpl.
  - rewrite decide_False by done. by apply last_split_normalize.
  - change (a +:+ "/" +:+ b) with (a +:+ String "/" b).
    rewrite decide_False by (apply append_nonempty; done).
    apply last_split_normalize; [|done].
    rewrite split_app_slash. apply last_Some in Hl as [l ->].
    by rewrite app_assoc, last_snoc.
Qed.

Lemma component_slash_free p : slash_free (component p) = true.
Proof.
  unfold component.
  destruct (last (filter (λ s : string, s ≠ "") (split p))) as [x|] eqn:E; [|done].
  simpl. apply last_Some_elem_of, list_elem_of_filter in E as [_ E].
  pose proof (split_all_slash_free p) as HF.
  rewrite Forall_forall in HF. by apply HF.
Qed.

Lemma component_idem c : slash_free c = true → component c = c.
Proof.
  intros Hc. unfold component. rewrite split_slash_free by done.
  destruct (decide (c = "")) as [->|Hne]; [done|].
  by rewrite filter_cons_True, filter_nil.
Qed.

Lemma component_join_name a name : proper name → component (join [a; name]) = name.
Proof.
  intros Hp. apply component_last; [|apply Hp].
  apply last_split_join; [|done]. rewrite split_slash_free; [done|apply Hp].
Qed.

Lemma names_directory_join_name a name :
  proper name → names_directory (join [a; name]) = false.
Proof.
  intros Hp. apply (names_directory_last _ name); [|apply Hp].
  apply last_split_join; [|done]. rewrite split_slash_free; [done|apply Hp].
Qed.

Lemma resolve_join_name a name :
  proper name → resolve (join [a; name]) = resolve a ++ [name].
Proof. intros Hp. by rewrite resolve_join, enter_name. Qed.

(** Keys of the form [dir/name]. *)
Lemma split_under dir name :
  slash_free dir = true → slash_free name = true →
  split (dir +:+ String "/" name) = [dir; name].
Proof. intros Hd Hn. by rewrite split_app_slash, !split_slash_free. Qed.

Section Under.
Context (a dir name : string).
Context (Hdir : proper dir) (Hname : proper name).

Lemma resolve_join_under :
  resolve (join [a; dir +:+ String "/" name]) = resolve a ++ [dir; name].
Proof using Hdir Hname.
  rewrite resolve_join. apply enter_proper.
  - apply split_under; [apply Hdir|apply Hname].
  - constructor; [done|]. constructor; [done|constructor].
Qed.

Lemma names_directory_join_under :
  names_directory (join [a; dir +:+ String "/" name]) = false.
Proof using Hdir Hname.
  apply (names_directory_last _ name); [|apply Hname].
  apply last_split_join; [|done].
  rewrite split_under; [done|apply Hdir|apply Hname].
Qed.
End Under.

(** ** Extensions *)

Lemma last_dot_length s e : last_dot s = Some e → (String.length e ≤ String.length s)%nat.
Proof.
  revert e. induction s as [|c s IH]; intros e; simpl; [done|].
  destruct (last_dot s) as [e'|].
  - intros [= <-]. specialize (IH e' eq_refl). lia.
  - destruct (Ascii.eqb c "."); [|done]. intros [= <-]. simpl. lia.
Qed.

Lemma split_length p seg : seg ∈ split p → (String.length seg ≤ String.length p)%nat.
Proof.
  revert seg. induction p as [|c p IH]; intros seg; simpl.
  - intros ->%list_elem_of_singleton. done.
  - destruct (is_slash c).
    + intros [->|Hin]%elem_of_cons; simpl; [lia|]. specialize (IH _ Hin). lia.
    + destruct (split p) as [|x l].
      * intros ->%list_elem_of_singleton. simpl.
        destruct p; simpl; lia.
      * intros [->|Hin]%elem_of_cons; simpl.
        -- assert (String.length x ≤ String.length p)%nat by (apply IH; left). lia.
        -- assert (String.length seg ≤ String.length p)%nat by (apply IH; by right). lia.
Qed.

Lemma component_length p : (String.length (component p) ≤ String.length p)%nat.
Proof.
  unfold component.
  destruct (last (filter (λ s : string, s ≠ "") (split p))) as [x|] eqn:E; simpl; [|lia].
  apply last_Some_elem_of, list_elem_of_filter in E as [_ E]. by apply split_length.
Qed.

Lemma extname_shorter p :
  extname p ≠ "" → (String.length (extname p) < String.length (component p))%nat.
Proof.
  unfold extname. case_decide; [done|].
  destruct (component p) as [|c0 rest]; [done|].
  destruct (last_dot rest) as [e|] eqn:E; [|done].
  intros _. apply last_dot_length in E. simpl. lia.
Qed.

Lemma extname_component p : extname (component p) = extname p.
Proof.
  unfold extname. by rewrite (component_idem (component p)) by apply component_slash_free.
Qed.

Lemma extname_not_path p : extname p ≠ "" → extname p ≠ p.
Proof.
  intros Hne Heq. pose proof (extname_shorter p Hne). pose proof (component_length p).
  rewrite Heq in H. lia.
Qed.

(** The name without its extension depends on the last component only. *)
Lemma stem_component p :
  basename_ext p (extname p) = basename_ext (component p) (extname (component p)).
Proof.
  rewrite extname_component. unfold basename_ext.
  rewrite (component_idem (component p)) by apply component_slash_free.
  destruct (decide (extname p = "")); [done|].
  rewrite decide_False by by apply extname_not_path.
  rewrite decide_False; [done|].
  rewrite <- extname_component. apply extname_not_path. by rewrite extname_component.
Qed.

Lemma slash_free_app a b :
  slash_free (a +:+ b) = slash_free a && slash_free b.
Proof. induction a as [|c a IH]; simpl; [done|]. by rewrite IH, andb_assoc. Qed.

Lemma without_suffix_app suf s pre : without_suffix suf s = Some pre → s = pre +:+ suf.
Proof.
  revert pre. induction s as [|c s IH]; intros pre; simpl.
  - case_decide; [|done]. intros [= <-]. done.
  - case_decide; [intros [= <-]; done|].
    destruct (without_suffix suf s) as [pre'|]; [|done].
    intros [= <-]. change (String c pre' +:+ suf) with (String c (pre' +:+ suf)).
    f_equal. by apply IH.
Qed.

Lemma length_append a b :
  String.length (a +:+ b) = (String.length a + String.length b)%nat.
Proof. induction a as [|c a IH]; simpl; [done|]. by rewrite IH. Qed.

Lemma without_suffix_complete suf pre : without_suffix suf (pre +:+ suf) = Some pre.
Proof.
  induction pre as [|c pre IH].
  - change ("" +:+ suf) with suf. destruct suf; simpl; [done|by rewrite decide_True].
  - change (String c pre +:+ suf) with (String c (pre +:+ suf)). simpl.
    rewrite decide_False, IH; [done|].
    intros Heq. apply (f_equal String.length) in Heq. simpl in Heq.
    rewrite length_append in Heq. lia.
Qed.

Lemma last_dot_suffix s e : last_dot s = Some e → ∃ pre, s = pre +:+ e.
Proof.
  revert e. induction s as [|c s IH]; intros e; simpl; [done|].
  destruct (last_dot s) as [e'|].
  - intros [= <-]. destruct (IH e' eq_refl) as [pre ->]. by exists (String c pre).
  - destruct (Ascii.eqb c "."); [|done]. intros [= <-]. by exists "".
Qed.

Lemma last_dot_append s e x : last_dot e = Some x → last_dot (s +:+ e) = Some x.
Proof.
  intros He. induction s as [|c s IH]; [done|].
  change (String c s +:+ e) with (String c (s +:+ e)). simpl. by rewrite IH.
Qed.

(** A name is its stem followed by its extension. *)
Lemma stem_extname p :
  extname p ≠ "" → basename_ext p (extname p) +:+ extname p = component p.
Proof.
  intros Hne. pose proof (extname_not_path p Hne) as Hp.
  unfold basename_ext. rewrite !decide_False by done.
  unfold extname in *. case_decide; [done|].
  destruct (component p) as [|c0 rest]; [done|].
  destruct (last_dot rest) as [e|] eqn:E; [|done].
  destruct (last_dot_suffix _ _ E) as [pre ->].
  change (String c0 (pre +:+ e)) with (String c0 pre +:+ e).
  by rewrite without_suffix_complete.
Qed.

Lemma extname_proper p : extname p ≠ "" → proper (component p).
Proof.
  intros Hne. split; [apply component_slash_free|].
  unfold extname in Hne. case_decide; [done|].
  destruct (component p) as [|c0 [|c1 rest]]; [done|done|].
  repeat split; done.
Qed.

Lemma stem_slash_free p : slash_free (basename_ext p (extname p)) = true.
Proof.
  rewrite stem_component. pose proof (component_slash_free p) as Hc.
  set (c := component p) in *. unfold basename_ext.
  rewrite (component_idem c) by done.
  repeat case_decide; try done.
  destruct (without_suffix (extname c) c) as [[|a pre]|] eqn:E; try done.
  apply without_suffix_app in E. rewrite E, slash_free_app in Hc.
  by apply andb_prop in Hc as [? _].
Qed.

Lemma append_inj_l a b c : a +:+ c = b +:+ c → a = b.
Proof.
  revert b. induction a as [|x a IH]; intros [|y b]; simpl; try done.
  - intros H. apply (f_equal String.length) in H.
    rewrite !length_append in H. simpl in H. lia.
  - intros H. apply (f_equal String.length) in H.
    rewrite !length_append in H. simpl in H. lia.
  - intros [= -> H]. f_equal. by apply IH.
Qed.

(** Text added at the end of a path goes to its last step. *)
Lemma split_append_free p e :
  slash_free e = true →
  ∃ l x, split p = l ++ [x] ∧ split (p +:+ e) = l ++ [x +:+ e].
Proof.
  intros He. induction p as [|c p (l & x & Hs & Hse)].
  - exists [], "". split; [done|]. change ("" +:+ e) with e. by apply split_slash_free.
  - change (String c p +:+ e) with (String c (p +:+ e)). simpl. rewrite Hs, Hse.
    destruct (is_slash c).
    + by exists ("" :: l), x.
    + destruct l as [|y l]; simpl.
      * by exists [], (String c x).
      * by exists (String c y :: l), x.
Qed.

Lemma resolve_append_ext a x e :
  proper x → slash_free e = true → proper (x +:+ e) →
  resolve (join [a; x] +:+ e) = resolve a ++ [x +:+ e]
  ∧ names_directory (join [a; x] +:+ e) = false.
Proof.
  intros Hx He Hxe.
  destruct (split_append_free (join [a; x]) e He) as (l & y & Hs & Hse).
  assert (Hl : last (split (join [a; x])) = Some x).
  { apply last_split_join; [|done]. rewrite split_slash_free; [done|apply Hx]. }
  rewrite Hs, last_snoc in Hl. injection Hl as ->.
  pose proof (resolve_join_name a x Hx) as Hr.
  unfold resolve in Hr |- *. rewrite Hs, walk_app in Hr. rewrite Hse, walk_app.
  simpl in Hr |- *. unfold walk in Hr |- *. simpl in Hr |- *.
  rewrite push_proper in Hr |- * by done.
  rewrite reverse_cons in Hr |- *. apply app_inj_tail in Hr as [Hr _].
  split; [by rewrite Hr|].
  apply (names_directory_last _ (x +:+ e)); [|apply Hxe].
  by rewrite Hse, last_snoc.
Qed.

End PathFacts.

(** ** Running computations *)
Section Running.
Context {A B : Type}.

Lemma bind_inv (m : M A) (f : A → M B) w w' r :
  (m ≫= f) w = (w', r) →
  (∃ e, m w = (w', Err e) ∧ r = Err e) ∨
  (∃ w1 a, m w = (w1, Ok a) ∧ f a w1 = (w', r)).
Proof.
  unfold mbind, M_bind. destruct (m w) as [w1 [a|e]]; intros H.
  - right. by exists w1, a.
  - left. exists e. by injection H as <- <-.
Qed.

Lemma bind_ok (m : M A) (f : A → M B) w w' b :
  (m ≫= f) w = (w', Ok b) → ∃ w1 a, m w = (w1, Ok a) ∧ f a w1 = (w', Ok b).
Proof. intros [(e & _ & ?)|H]%bind_inv; [done|exact H]. Qed.

Lemma bind_run (m : M A) (f : A → M B) w w1 a :
  m w = (w1, Ok a) → (m ≫= f) w = f a w1.
Proof. unfold mbind, M_bind. by intros ->. Qed.

Lemma bind_fail (m : M A) (f : A → M B) w w1 e :
  m w = (w1, Err e) → (m ≫= f) w = (w1, Err e).
Proof. unfold mbind, M_bind. by intros ->. Qed.
End Running.

Lemma fdata_file n q d : Fs.stat n q = Some (Fs.IsFile d) ↔ fdata n q = Some d.
Proof. unfold fdata. destruct (Fs.stat n q) as [[?|]|]; naive_solver. Qed.

Lemma disk_only_trans w1 w2 w3 : disk_only w1 w2 → disk_only w2 w3 → disk_only w1 w3.
Proof. intros (?&?&?) (?&?&?). repeat split; congruence. Qed.

(** ** Computations that do not read the trace *)
Section Blind.
Context {A B : Type}.




End Blind.







(** ** The calls of [fs] *)
Section FsCalls.
Import Fs FsFacts.

Lemma on_disk_inv f w w' r :
  on_disk f w = (w', r) →
  (∃ n, f (disk w) = Ok n ∧ w' = set_disk n w ∧ r = Ok ()) ∨
  (∃ e, f (disk w) = Err e ∧ w' = w ∧ r = Err e).
Proof.
  unfold on_disk. destruct (f (disk w)) as [n|e]; intros [= <- <-]; naive_solver.
Qed.

Lemma mkdir_p_files n p n' q : mkdir_p n p = Ok n' → fdata n' q = fdata n q.
Proof.
  intros Hm. unfold fdata. rewrite (stat_mkdir_p _ _ _ q Hm).
  case_decide as Hp; [|done].
  destruct (stat n q) as [[d|]|] eqn:E; try done.
  exfalso. destruct Hp as [k ->].
  clear -Hm E. revert n n' Hm E. induction q as [|s q IH]; intros n n' Hm E.
  - destruct n; [|done]. by destruct k.
  - destruct n as [|es]; [done|]. simpl in Hm. rewrite stat_cons_dir in E.
    destruct (es !! s) as [c|]; [|done]. simpl in Hm.
    destruct (mkdir_p c (q ++ k)) eqn:Hc; [|done]. by eapply IH.
Qed.

Lemma mkdir_files n p n' q : mkdir n p = Ok n' → fdata n' q = fdata n q.
Proof.
  intros Hm. unfold fdata. rewrite (stat_mkdir _ _ _ q Hm).
  case_decide as Hp; [|done]. subst q.
  destruct (stat n p) as [[d|]|] eqn:E; try done.
  exfalso. clear -Hm E. revert n n' Hm E. induction p as [|s p IH]; intros n n' Hm E; [done|].
  destruct n as [|es]; [done|]. simpl in Hm. rewrite stat_cons_dir in E.
  destruct (es !! s) as [c|]; [|done].
  destruct (mkdir c p) eqn:Hc; [|done]. by eapply IH.
Qed.

(** Only files can be unlinked. *)
Lemma unlink_ok_file n p n' : unlink n p = Ok n' → is_Some (fdata n p).
Proof.
  revert n n'. induction p as [|s p IH]; intros n n' Hu; simpl in Hu; [done|].
  destruct n as [|es]; [done|]. unfold fdata. rewrite stat_cons_dir.
  destruct (es !! s) as [c|]; [|done].
  destruct p as [|s' p].
  - destruct c; [|done]. by eexists.
  - destruct (unlink c (s' :: p)) eqn:Hc; [|done]. by apply IH in Hc.
Qed.

Lemma write_fails n p d e : write n p d = Err e → ∃ c, e = FsError c.
Proof.
  revert n. induction p as [|s p IH]; intros n; simpl.
  - destruct n; [done|]. intros [= <-]. by eexists.
  - destruct n as [|es]; [intros [= <-]; by eexists|].
    destruct (es !! s) as [c|].
    + destruct (write c p d) eqn:Hc; [done|]. intros [= <-]. by eapply IH.
    + destruct p; [done|]. intros [= <-]. by eexists.
Qed.

Lemma unlink_fails n p e : unlink n p = Err e → ∃ c, e = FsError c.
Proof.
  revert n. induction p as [|s p IH]; intros n; simpl.
  - intros [= <-]. by eexists.
  - destruct n as [|es]; [intros [= <-]; by eexists|].
    destruct (es !! s) as [c|]; [|intros [= <-]; by eexists].
    destruct p as [|s' p].
    + destruct c; [done|]. intros [= <-]. by eexists.
    + destruct (unlink c (s' :: p)) eqn:Hc; [done|]. intros [= <-]. by eapply IH.
Qed.

Lemma mkdir_fails n p e : mkdir n p = Err e → ∃ c, e = FsError c.
Proof.
  revert n. induction p as [|s p IH]; intros n; simpl.
  - intros [= <-]. by eexists.
  - destruct n as [|es]; [intros [= <-]; by eexists|].
    destruct (es !! s) as [c|].
    + destruct (mkdir c p) eqn:Hc; [done|]. intros [= <-]. by eapply IH.
    + destruct p; [done|]. intros [= <-]. by eexists.
Qed.

Lemma mkdir_p_fails n p e : mkdir_p n p = Err e → ∃ c, e = FsError c.
Proof.
  revert n. induction p as [|s p IH]; intros n; simpl.
  - destruct n; [|done]. intros [= <-]. by eexists.
  - destruct n as [|es]; [intros [= <-]; by eexists|].
    destruct (mkdir_p (default (Dir ∅) (es !! s)) p) eqn:Hc; [done|].
    intros [= <-]. by eapply IH.
Qed.

Lemma lookup_path_file n p d :
  lookup_path n p = Some (IsFile d) ↔ read_path n p = Some d.
Proof.
  unfold lookup_path, read_path, fdata.
  destruct (stat n (Path.resolve p)) as [[d'|]|], (Path.names_directory p); naive_solver.
Qed.

(** *** What each call does to the world *)

Lemma existsSync_run p w :
  existsSync p w = (w, Ok (bool_decide (is_Some (lookup_path (disk w) p)))).
Proof. done. Qed.

Lemma mkdirSync_inv p rec w w' r :
  mkdirSync p rec w = (w', r) →
  match r with
  | Ok _ => disk_only w w' ∧ (∀ q, fdata (disk w') q = fdata (disk w) q)
            ∧ stat (disk w') (Path.resolve p) = Some IsDir
  | Err e => w' = w ∧ ∃ c, e = FsError c
  end.
Proof.
  unfold mkdirSync.
  intros [(n & Hn & -> & ->)|(e & He & -> & ->)]%on_disk_inv.
  - split; [done|]. destruct rec; simpl.
    + split; [intros q; by eapply mkdir_p_files|].
      rewrite (stat_mkdir_p _ _ _ _ Hn). by rewrite decide_True.
    + split; [intros q; by eapply mkdir_files|].
      rewrite (stat_mkdir _ _ _ _ Hn). by rewrite decide_True.
  - split; [done|]. destruct rec; [by eapply mkdir_p_fails|by eapply mkdir_fails].
Qed.

Lemma write_path_inv p d w w' r :
  write_path p d w = (w', r) →
  match r with
  | Ok _ => disk_only w w' ∧ Path.names_directory p = false
            ∧ (∀ q, stat (disk w') q
                    = if decide (q = Path.resolve p) then Some (IsFile d) else stat (disk w) q)
  | Err e => w' = w ∧ ∃ c, e = FsError c
  end.
Proof.
  unfold write_path.
  intros [(n & Hn & -> & ->)|(e & He & -> & ->)]%on_disk_inv.
  - destruct (Path.names_directory p); [done|].
    repeat split. intros q. by apply stat_write.
  - split; [done|]. destruct (Path.names_directory p).
    + injection He as <-. by eexists.
    + by eapply write_fails.
Qed.

Lemma unlinkSync_inv p w w' r :
  unlinkSync p w = (w', r) →
  match r with
  | Ok _ => disk_only w w' ∧ is_file w p
            ∧ (∀ q, stat (disk w') q
                    = if decide (q = Path.resolve p) then None else stat (disk w) q)
  | Err e => w' = w ∧ ∃ c, e = FsError c
  end.
Proof.
  unfold unlinkSync.
  intros [(n & Hn & -> & ->)|(e & He & -> & ->)]%on_disk_inv.
  - unfold is_file, read_path. destruct (Path.names_directory p); [done|].
    repeat split; [by eapply unlink_ok_file|]. intros q. by apply stat_unlink.
  - split; [done|]. destruct (Path.names_directory p).
    + injection He as <-. by eexists.
    + by eapply unlink_fails.
Qed.

Lemma copyFile_inv src dest w w' r :
  copyFile src dest w = (w', r) →
  match r with
  | Ok _ => ∃ d, read_path (disk w) src = Some d ∧ write_path dest d w = (w', Ok ())
  | Err e => w' = w ∧ ∃ c, e = FsError c
  end.
Proof.
  unfold copyFile.
  destruct (lookup_path (disk w) src) as [[d|]|] eqn:E.
  - apply lookup_path_file in E. intros Hw.
    destruct r as [[]|e]; [by exists d|].
    by apply write_path_inv in Hw.
  - intros [= <- <-]. split; [done|]. by eexists.
  - intros [= <- <-]. split; [done|]. by eexists.
Qed.

End FsCalls.

(** ** The places of the pipeline *)
Section Places.
Import Path PathFacts.
Context (__dirname : string).

Lemma resolve_storageDir :
  resolve (storageDir __dirname) = resolve __dirname ++ ["storage"].
Proof. by apply resolve_join_name. Qed.

Lemma resolve_tempDir :
  resolve (tempDir __dirname) = resolve __dirname ++ ["temp_encoded"].
Proof. by apply resolve_join_name. Qed.

Lemma slash_free_cases b :
  slash_free b = true → proper b ∨ b = "" ∨ b = "." ∨ b = "..".
Proof.
  intros Hb. destruct (decide (b = "")); [naive_solver|].
  destruct (decide (b = ".")); [naive_solver|].
  destruct (decide (b = "..")); [naive_solver|]. by left.
Qed.

Lemma enter_stay base : enter base "" = base ∧ enter base "." = base.
Proof.
  unfold enter, walk. simpl. unfold push. simpl.
  by rewrite reverse_involutive.
Qed.

Lemma enter_up base x : x ≠ ".." → enter (base ++ [x]) ".." = base.
Proof.
  intros Hx. unfold enter, walk. simpl. rewrite reverse_snoc. unfold push. simpl.
  rewrite decide_False by done. apply reverse_involutive.
Qed.

(** The local original lies in the scratch directory, or is that
    directory or its parent when the key has no proper last name. *)
Lemma resolve_localVideoPath s3Key :
  (proper (basename s3Key)
   ∧ resolve (localVideoPath __dirname s3Key)
     = resolve __dirname ++ ["temp_encoded"; basename s3Key]) ∨
  (¬ proper (basename s3Key)
   ∧ (resolve (localVideoPath __dirname s3Key) = resolve __dirname ++ ["temp_encoded"]
      ∨ resolve (localVideoPath __dirname s3Key) = resolve __dirname)).
Proof.
  unfold localVideoPath. rewrite resolve_join, resolve_tempDir.
  destruct (slash_free_cases _ (component_slash_free s3Key)) as [Hp|[Hb|[Hb|Hb]]];
    unfold basename in *; try rewrite Hb.
  - left. split; [done|]. rewrite enter_name by done. by rewrite <- app_assoc.
  - right. split; [by intros (_&?&_)|]. left. apply enter_stay.
  - right. split; [by intros (_&_&?&_)|]. left. apply enter_stay.
  - right. split; [by intros (_&_&_&?)|]. right. by apply enter_up.
Qed.

Lemma localVideoPath_outside_store s3Key rel :
  resolve (localVideoPath __dirname s3Key) ≠ resolve (storageDir __dirname) ++ rel.
Proof.
  rewrite resolve_storageDir, <- app_assoc.
  destruct (resolve_localVideoPath s3Key) as [ [_ -> ] | [_ [ -> | -> ] ] ]; intros H.
  - apply app_inv_head in H. done.
  - apply app_inv_head in H. done.
  - rewrite <- (app_nil_r (resolve __dirname)) in H at 1.
    apply app_inv_head in H. done.
Qed.

Lemma extension_name stem f :
  slash_free stem = true → extension f → proper (stem +:+ "." +:+ f).
Proof.
  intros Hs (Hf & Hne & Hdot). split.
  { rewrite !slash_free_app, Hs, Hf. done. }
  destruct stem as [|c [|c' stem]]; simpl.
  - destruct f as [|c f]; [done|]. repeat split; try done.
    intros [= -> ->]. done.
  - destruct f as [|c'' f]; [done|]. repeat split; try done.
  - repeat split; try done. destruct stem; done.
Qed.

Section Outputs.
Context (inputPath format : string) (Hformat : extension format).

Lemma outputPath_name :
  proper (basename_ext inputPath (extname inputPath) +:+ "." +:+ format).
Proof using Hformat. apply extension_name; [apply stem_slash_free|done]. Qed.

Lemma resolve_outputPath :
  resolve (outputPath __dirname inputPath format)
  = resolve __dirname
    ++ ["temp_encoded"; basename_ext inputPath (extname inputPath) +:+ "." +:+ format].
Proof using Hformat.
  unfold outputPath. rewrite resolve_join_name by apply outputPath_name.
  by rewrite resolve_tempDir, <- app_assoc.
Qed.

Lemma basename_outputPath :
  basename (outputPath __dirname inputPath format)
  = basename_ext inputPath (extname inputPath) +:+ "." +:+ format.
Proof using Hformat. apply component_join_name, outputPath_name. Qed.

Lemma outputPath_outside_store rel :
  resolve (outputPath __dirname inputPath format)
  ≠ resolve (storageDir __dirname) ++ rel.
Proof using Hformat.
  rewrite resolve_outputPath, resolve_storageDir, <- app_assoc.
  intros H. apply app_inv_head in H. done.
Qed.
End Outputs.

Lemma append_inj_r a b c : a +:+ b = a +:+ c → b = c.
Proof. induction a as [|x a IH]; simpl; [done|]. intros [= H]. by apply IH. Qed.

Section Targets.
Context (inputPath : string).

Lemma source_outputPath f :
  extension f →
  source (outputPath __dirname inputPath f)
  = resolve __dirname
    ++ ["temp_encoded"; basename_ext inputPath (extname inputPath) +:+ "." +:+ f].
Proof. apply resolve_outputPath. Qed.

Lemma target_outputPath f :
  extension f →
  target __dirname upload_key (outputPath __dirname inputPath f)
  = resolve __dirname
    ++ ["storage"; "encoded"; basename_ext inputPath (extname inputPath) +:+ "." +:+ f]
  ∧ names_directory (join [storageDir __dirname; upload_key (outputPath __dirname inputPath f)])
    = false.
Proof.
  intros Hf. unfold target, upload_key. rewrite basename_outputPath by done.
  pose proof (outputPath_name inputPath f Hf) as Hp.
  set (name := basename_ext inputPath (extname inputPath) +:+ "." +:+ f) in *.
  change ("encoded/" +:+ name) with ("encoded" +:+ String "/" name).
  rewrite resolve_join_under, names_directory_join_under by done.
  by rewrite resolve_storageDir, <- app_assoc.
Qed.

Lemma outputs_differ formats :
  Forall extension formats → NoDup formats →
  NoDup (source <$> (outputPath __dirname inputPath <$> formats))
  ∧ NoDup (target __dirname upload_key <$> (outputPath __dirname inputPath <$> formats))
  ∧ ∀ v v', v ∈ outputPath __dirname inputPath <$> formats →
            v' ∈ outputPath __dirname inputPath <$> formats →
            source v ≠ target __dirname upload_key v'.
Proof.
  intros Hext Hnd. rewrite Forall_forall in Hext.
  rewrite <- !list_fmap_compose. repeat split.
  - apply NoDup_fmap_2_strong; [|done]. intros f1 f2 H1 H2. simpl.
    rewrite !source_outputPath by by apply Hext.
    intros [= H]%app_inv_head. by apply append_inj_r, append_inj_r in H.
  - apply NoDup_fmap_2_strong; [|done]. intros f1 f2 H1 H2. simpl.
    destruct (target_outputPath f1) as [-> _]; [by apply Hext|].
    destruct (target_outputPath f2) as [-> _]; [by apply Hext|].
    intros [= H]%app_inv_head. by apply append_inj_r, append_inj_r in H.
  - intros v v' (f & -> & Hf)%list_elem_of_fmap (f' & -> & Hf')%list_elem_of_fmap.
    rewrite source_outputPath by by apply Hext.
    destruct (target_outputPath f') as [-> _]; [by apply Hext|].
    intros H%app_inv_head. done.
Qed.
End Targets.

(** With a proper last name, the local original keeps the name and the
    extension of the key. *)
Lemma stem_localVideoPath s3Key :
  proper (basename s3Key) →
  basename_ext (localVideoPath __dirname s3Key) (extname (localVideoPath __dirname s3Key))
  = basename_ext s3Key (extname s3Key).
Proof.
  intros Hp. rewrite stem_component, (stem_component s3Key).
  unfold localVideoPath. by rewrite component_join_name.
Qed.

(** The conversion to the format the original already has writes to
    the local original itself. *)
Lemma same_extension_collides s3Key f :
  extname s3Key = "." +:+ f →
  outputPath __dirname (localVideoPath __dirname s3Key) f
  = localVideoPath __dirname s3Key.
Proof.
  intros He. assert (Hne : extname s3Key ≠ "") by by rewrite He.
  pose proof (extname_proper _ Hne) as Hp.
  unfold outputPath. rewrite stem_localVideoPath by done.
  rewrite <- He. by rewrite stem_extname.
Qed.

(** *** The places of the acquisition worker *)

Lemma outputFilename_proper id : slash_free id = true → proper (outputFilename id).
Proof.
  intros Hid. unfold outputFilename. split; [by rewrite slash_free_app, Hid|].
  repeat split; done.
Qed.

Lemma outputFilename_mp4_proper id :
  slash_free id = true → proper (outputFilename id +:+ ".mp4").
Proof.
  intros Hid. unfold outputFilename. split; [by rewrite !slash_free_app, Hid|].
  repeat split; done.
Qed.

Section ProducerPlaces.
Context (id : string) (Hid : slash_free id = true).

Lemma resolve_localOutputPath :
  resolve (join [producerTempDir __dirname; outputFilename id] +:+ ".mp4")
  = resolve __dirname ++ ["temp"; outputFilename id +:+ ".mp4"]
  ∧ names_directory (join [producerTempDir __dirname; outputFilename id] +:+ ".mp4")
    = false.
Proof using Hid.
  destruct (resolve_append_ext (producerTempDir __dirname) (outputFilename id) ".mp4")
    as [-> ->]; [by apply outputFilename_proper|done|by apply outputFilename_mp4_proper|].
  unfold producerTempDir. rewrite resolve_join_name by done.
  by rewrite <- app_assoc.
Qed.

Lemma videoKey_under : videoKey id = "videos" +:+ String "/" (outputFilename id +:+ ".mp4").
Proof. reflexivity. Qed.

Lemma resolve_videoKey :
  resolve (join [storageDir __dirname; videoKey id])
  = resolve (storageDir __dirname) ++ ["videos"; outputFilename id +:+ ".mp4"]
  ∧ names_directory (join [storageDir __dirname; videoKey id]) = false.
Proof using Hid.
  rewrite videoKey_under.
  pose proof (outputFilename_mp4_proper id Hid) as Hp.
  assert (Hv : proper "videos") by done.
  split.
  - exact (resolve_join_under (storageDir __dirname) "videos" _ Hv Hp).
  - exact (names_directory_join_under (storageDir __dirname) "videos" _ Hv Hp).
Qed.

(** Every key the acquisition worker publishes has the extension
    [.mp4]. *)
Lemma extname_videoKey : extname (videoKey id) = ".mp4".
Proof using Hid.
  pose proof (outputFilename_mp4_proper id Hid) as Hp.
  assert (Hc : component (videoKey id) = outputFilename id +:+ ".mp4").
  { apply component_last; [|apply Hp]. rewrite videoKey_under.
    rewrite split_under; [done|done|apply Hp]. }
  unfold extname. rewrite Hc. rewrite decide_False by apply Hp.
  change (outputFilename id +:+ ".mp4")
    with (String "d" (("ownloaded_video_" +:+ id) +:+ ".mp4")).
  cbv beta iota. by rewrite (last_dot_append _ ".mp4" ".mp4").
Qed.

Lemma localOutputPath_outside_store rel :
  resolve (join [producerTempDir __dirname; outputFilename id] +:+ ".mp4")
  ≠ resolve (storageDir __dirname) ++ rel.
Proof using Hid.
  destruct resolve_localOutputPath as [-> _].
  rewrite resolve_storageDir, <- app_assoc. intros H%app_inv_head. done.
Qed.
End ProducerPlaces.

End Places.

(** ** The transcoding worker *)
Section Consumer.
Import Path PathFacts Fs FsFacts.
Context (__dirname : string) (ffmpeg : string → string → transcode).

Lemma lookup_path_stat n p : is_Some (lookup_path n p) → is_Some (stat n (resolve p)).
Proof. unfold lookup_path. destruct (stat n (resolve p)); [by eexists|by intros []]. Qed.

Lemma ensure_dir_inv p rec w w' r :
  when (negb (bool_decide (is_Some (lookup_path (disk w) p)))) (mkdirSync p rec) w = (w', r) →
  match r with
  | Ok _ => disk_only w w' ∧ (∀ q, fdata (disk w') q = fdata (disk w) q)
            ∧ is_Some (stat (disk w') (resolve p))
  | Err e => w' = w ∧ ∃ c, e = FsError c
  end.
Proof.
  case_bool_decide as Hp; simpl.
  - intros [= <- <-]. split; [done|]. split; [done|]. by apply lookup_path_stat.
  - intros Hm%mkdirSync_inv. destruct r as [[]|e]; [|done].
    destruct Hm as (? & ? & Hs). split; [done|]. split; [done|]. by rewrite Hs.
Qed.

Lemma downloadFromS3_inv s3Key localPath w w' r :
  downloadFromS3 __dirname s3Key localPath w = (w', r) →
  match r with
  | Ok a => a = localPath
            ∧ ∃ d, blob __dirname w s3Key = Some d ∧ write_path localPath d w = (w', Ok ())
  | Err e => w' = w ∧ ∃ c, e = FsError c
  end.
Proof.
  unfold downloadFromS3.
  intros [(e & Hc & ->)|(w1 & [] & Hc & Hr)]%bind_inv; apply copyFile_inv in Hc.
  - destruct Hc as (-> & Hc). done.
  - injection Hr as <- <-. split; [done|]. done.
Qed.

(** The download leaves the local original on the disk and touches
    nothing else that holds bytes. *)
Lemma fetch_inv s3Key w w' r :
  fetch __dirname s3Key w = (w', r) →
  disk_only w w' ∧
  match r with
  | Ok a =>
      a = localVideoPath __dirname s3Key ∧
      ∃ d, blob __dirname w s3Key = Some d
           ∧ names_directory (localVideoPath __dirname s3Key) = false
           ∧ stat (disk w') (resolve (localVideoPath __dirname s3Key)) = Some (IsFile d)
           ∧ is_Some (stat (disk w') (resolve (tempDir __dirname)))
           ∧ ∀ q, q ≠ resolve (localVideoPath __dirname s3Key) →
                  fdata (disk w') q = fdata (disk w) q
  | Err e => (∃ c, e = FsError c) ∧ ∀ q, fdata (disk w') q = fdata (disk w) q
  end.
Proof.
  unfold fetch. rewrite (bind_run _ _ _ _ _ (existsSync_run _ w)).
  intros [(e & He & ->)|(w1 & [] & He & Hd)]%bind_inv; apply ensure_dir_inv in He.
  - destruct He as [-> ?]. done.
  - destruct He as (Hdo & Hf & Ht). apply downloadFromS3_inv in Hd.
    destruct r as [a|e].
    + destruct Hd as (-> & d & Hb & Hw). apply write_path_inv in Hw as (Hdo' & Hn & Hs).
      split; [by eapply disk_only_trans|]. split; [done|]. exists d.
      split. { unfold blob, read_path in *. destruct (names_directory _); [done|]. by rewrite <- Hf. }
      split; [done|]. split. { by rewrite Hs, decide_True. }
      split. { rewrite Hs. case_decide; [by eexists|done]. }
      intros q Hq. unfold fdata at 1. rewrite Hs, decide_False by done. apply Hf.
    + destruct Hd as (-> & Hc). done.
Qed.

Lemma processVideo_phases sched formats s3Key w :
  processVideo __dirname ffmpeg sched formats s3Key w
  = (fetch __dirname s3Key ≫= λ localVideoPath,
     convert __dirname ffmpeg sched formats localVideoPath ≫= λ encodedVideos,
     persist __dirname (length formats) encodedVideos ≫= λ _,
     unlinkSync localVideoPath) w.
Proof.
  unfold processVideo, fetch, convert, persist.
  fold (tempDir __dirname). fold (localVideoPath __dirname s3Key).
  unfold mbind, M_bind, existsSync.
  destruct (when _ _ w) as [w0 [[]|e]]; [|done].
  destruct (downloadFromS3 _ _ _ w0) as [w1 [a|e]] eqn:Hd; [|done].
  apply downloadFromS3_inv in Hd as [-> _].
  destruct (map_each _ _ w1) as [w2 [ps|e]]; done.
Qed.

(** *** The conversions *)

Lemma names_directory_tempDir : names_directory (tempDir __dirname) = false.
Proof. by apply names_directory_join_name. Qed.

Lemma tempDir_exists w :
  is_Some (stat (disk w) (resolve (tempDir __dirname))) →
  is_Some (lookup_path (disk w) (tempDir __dirname)).
Proof.
  unfold lookup_path. rewrite names_directory_tempDir.
  intros [[d|] ->]; by eexists.
Qed.

(** Once the scratch directory is there, [encodeVideo] only starts the
    encoder. *)
Lemma encodeVideo_run inputPath format w :
  is_Some (stat (disk w) (resolve (tempDir __dirname))) →
  encodeVideo __dirname ffmpeg inputPath format w
  = (set_trace (trace w ++ [Ffmpeg inputPath (outputPath __dirname inputPath format)]) w,
     Ok (Pending (Conversion (outputPath __dirname inputPath format)
                    (ffmpeg inputPath (outputPath __dirname inputPath format))))).
Proof.
  intros Ht%tempDir_exists. unfold encodeVideo, catch.
  fold (tempDir __dirname). fold (outputPath __dirname inputPath format).
  rewrite (bind_run _ _ _ _ _ (existsSync_run _ w)).
  rewrite bool_decide_eq_true_2 by done. done.
Qed.

Lemma map_each_encodeVideo inputPath formats w :
  is_Some (stat (disk w) (resolve (tempDir __dirname))) →
  map_each (encodeVideo __dirname ffmpeg inputPath) formats w
  = (set_trace (trace w ++ started __dirname inputPath formats) w,
     Ok (Pending <$> conversions __dirname ffmpeg inputPath formats)).
Proof.
  revert w. induction formats as [|f formats IH]; intros w Ht; simpl.
  - unfold mret, M_ret. rewrite app_nil_r. by destruct w.
  - rewrite (bind_run _ _ _ _ _ (encodeVideo_run inputPath f w Ht)).
    rewrite (bind_run _ _ _ _ _ (IH (set_trace _ w) Ht)). unfold mret, M_ret.
    unfold set_trace; simpl. by rewrite <- app_assoc.
Qed.

Lemma first_rejected_pending cs : first_rejected (Pending <$> cs) = None.
Proof. by induction cs. Qed.

Lemma pending_pending cs : pending (Pending <$> cs) = cs.
Proof. induction cs; simpl; [done|]. by f_equal. Qed.

Lemma conversions_outputs inputPath formats :
  conv_output <$> conversions __dirname ffmpeg inputPath formats
  = outputPath __dirname inputPath <$> formats.
Proof. induction formats as [|f formats IH]; simpl; [done|]. by f_equal. Qed.

(** The join over conversions that all started. *)
Lemma convert_run sched formats inputPath w :
  is_Some (stat (disk w) (resolve (tempDir __dirname))) →
  convert __dirname ffmpeg sched formats inputPath w
  = (await_all (completion_order sched (conversions __dirname ffmpeg inputPath formats))
     ≫= λ _, mret (outputPath __dirname inputPath <$> formats))
      (set_trace (trace w ++ started __dirname inputPath formats) w).
Proof.
  intros Ht. unfold convert.
  rewrite (bind_run _ _ _ _ _ (map_each_encodeVideo inputPath formats w Ht)).
  unfold Promise_all. rewrite first_rejected_pending, pending_pending.
  by rewrite conversions_outputs.
Qed.

Lemma completion_order_perm {X} sched (cs : list X) : completion_order sched cs ≡ₚ cs.
Proof.
  revert sched. induction cs as [|c cs IH]; intros sched; simpl; [done|].
  rewrite <- Permutation_middle, take_drop. by rewrite IH.
Qed.

Lemma settle_inv c w w' r :
  settle c w = (w', r) →
  disk_only w w' ∧
  match r with
  | Ok a =>
      a = conv_output c ∧
      ∃ d, conv_outcome c = Encoded d
           ∧ names_directory (conv_output c) = false
           ∧ ∀ q, stat (disk w') q
                  = if decide (q = resolve (conv_output c)) then Some (IsFile d)
                    else stat (disk w) q
  | Err e =>
      e = EncodeError ∧
      (disk w' = disk w ∨
       ∃ d, names_directory (conv_output c) = false
            ∧ ∀ q, stat (disk w') q
                   = if decide (q = resolve (conv_output c)) then Some (IsFile d)
                     else stat (disk w) q)
  end.
Proof.
  unfold settle. destruct (conv_outcome c) as [d|[d|]].
  - intros [(e & Hc & ->)|(w1 & [] & Hc & Hr)]%bind_inv.
    + unfold catch in Hc. destruct (write_path _ _ w) as [w1 [[]|e1]] eqn:Hw; [done|].
      injection Hc as <- <-. apply write_path_inv in Hw as [-> _]. split; [done|]. by auto.
    + injection Hr as <- <-. unfold catch in Hc.
      destruct (write_path _ _ w) as [w2 [[]|e1]] eqn:Hw; [|done].
      injection Hc as <-. apply write_path_inv in Hw as (? & ? & ?).
      split; [done|]. split; [done|]. by exists d.
  - intros [(e & Hc & ->)|(w1 & [] & Hc & Hr)]%bind_inv.
    + unfold catch in Hc. by destruct (write_path _ _ w) as [w1 [[]|e1]].
    + injection Hr as <- <-. unfold catch in Hc.
      destruct (write_path _ _ w) as [w2 [[]|e1]] eqn:Hw; injection Hc as <-;
        apply write_path_inv in Hw.
      * destruct Hw as (? & ? & Hs). split; [done|]. split; [done|].
        right. by exists d.
      * destruct Hw as [-> _]. split; [done|]. by auto.
  - intros [= <- <-]. split; [done|]. by auto.
Qed.

Lemma stat_is_file w p d :
  names_directory p = false → stat (disk w) (resolve p) = Some (IsFile d) → is_file w p.
Proof.
  intros Hn Hs. unfold is_file, read_path, fdata. rewrite Hn, Hs. by eexists.
Qed.

Lemma is_file_stat w p :
  is_file w p → names_directory p = false ∧ ∃ d, stat (disk w) (resolve p) = Some (IsFile d).
Proof.
  unfold is_file, read_path. destruct (names_directory p); [by intros []|].
  intros [d Hd]. apply fdata_file in Hd. eauto.
Qed.

Lemma wrote_keeps_file w w' out d p :
  (∀ q, stat (disk w') q
        = if decide (q = resolve out) then Some (IsFile d) else stat (disk w) q) →
  is_file w p → is_file w' p.
Proof.
  intros Hq (Hn & d' & Hd)%is_file_stat.
  destruct (decide (resolve p = resolve out)) as [Heq|Hne].
  - apply (stat_is_file _ _ d); [done|]. by rewrite Hq, decide_True.
  - apply (stat_is_file _ _ d'); [done|]. by rewrite Hq, decide_False.
Qed.

(** Files that are there stay there while conversions end. *)
Lemma settle_keeps_files c w w' r p :
  settle c w = (w', r) → is_file w p → is_file w' p.
Proof.
  intros Hs Hp. apply settle_inv in Hs as [_ Hs].
  destruct r as [a|e].
  - destruct Hs as (_ & d' & _ & _ & Hq). by eapply wrote_keeps_file.
  - destruct Hs as [_ [Heq|(d' & _ & Hq)]].
    + unfold is_file in *. by rewrite Heq.
    + by eapply wrote_keeps_file.
Qed.

Lemma await_all_keeps_files order w w' r p :
  await_all order w = (w', r) → is_file w p → is_file w' p.
Proof.
  revert w. induction order as [|c order IH]; intros w; simpl.
  - by intros [= <- <-].
  - destruct (settle c w) as [w1 [a|e]] eqn:Hs.
    + intros Ha Hp. eapply IH; [done|]. by eapply settle_keeps_files.
    + intros [= <- <-] Hp. eapply settle_keeps_files in Hs; done.
Qed.

Lemma await_all_frame order w w' r :
  await_all order w = (w', r) →
  video_uploads w' = video_uploads w ∧ trace w' = trace w ∧
  (∀ q, (∀ c, c ∈ order → q ≠ resolve (conv_output c)) →
        stat (disk w') q = stat (disk w) q) ∧
  match r with Ok _ => orphans w' = orphans w | Err e => e = EncodeError end.
Proof.
  revert w. induction order as [|c order IH]; intros w; simpl.
  - by intros [= <- <-].
  - destruct (settle c w) as [w1 [a|e]] eqn:Hs; apply settle_inv in Hs as [(Hv & Ho & Ht) Hs].
    + intros (Hv' & Ht' & Hq & Hr)%IH.
      split; [congruence|]. split; [congruence|]. split.
      * intros q Hc. rewrite Hq by (intros c' Hc'; apply Hc; by right).
        destruct Hs as (_ & d & _ & _ & Hq'). rewrite Hq', decide_False; [done|].
        apply Hc. by left.
      * destruct r; [congruence|done].
    + intros [= <- <-]. simpl. split; [done|]. split; [done|].
      destruct Hs as [-> Hs]. split; [|done].
      intros q Hc. destruct Hs as [->|(d & _ & Hq')]; [done|].
      rewrite Hq', decide_False; [done|]. apply Hc. by left.
Qed.

(** When the join succeeds every conversion has ended well and has
    left its output file. *)
Lemma await_all_ok order w w' :
  await_all order w = (w', Ok ()) →
  ∀ c, c ∈ order →
    names_directory (conv_output c) = false ∧
    ∃ d, conv_outcome c = Encoded d ∧ is_file w' (conv_output c)
         ∧ (NoDup (resolve ∘ conv_output <$> order) →
            stat (disk w') (resolve (conv_output c)) = Some (IsFile d)).
Proof.
  revert w. induction order as [|c0 order IH]; intros w; simpl.
  - intros _ c Hc. by apply elem_of_nil in Hc.
  - destruct (settle c0 w) as [w1 [a|e]] eqn:Hs; [|done].
    intros Ha c [->|Hc]%elem_of_cons.
    + apply settle_inv in Hs as (_ & _ & d & Ho & Hn & Hq).
      split; [done|]. exists d. split; [done|].
      assert (Hf : is_file w1 (conv_output c0)).
      { apply (stat_is_file _ _ d); [done|]. by rewrite Hq, decide_True. }
      split; [by eapply await_all_keeps_files|].
      intros Hnd. apply NoDup_cons in Hnd as [Hnin _].
      apply await_all_frame in Ha as (_ & _ & Hfr & _).
      rewrite Hfr, Hq, decide_True; [done..|].
      intros c' Hc' Heq. apply Hnin. apply list_elem_of_fmap. by exists c'.
    + destruct (IH _ Ha c Hc) as (Hn & d & Ho & Hf & Hd).
      split; [done|]. exists d. split; [done|]. split; [done|].
      intros Hnd. apply NoDup_cons in Hnd as [_ Hnd]. by apply Hd.
Qed.

(** A conversion that breaks after others have ended well. *)
Lemma await_all_app_fail pre c post w w2 w3 e :
  await_all pre w = (w2, Ok ()) →
  settle c w2 = (w3, Err e) →
  await_all (pre ++ c :: post) w = (set_orphans (orphans w3 ++ post) w3, Err e).
Proof.
  revert w. induction pre as [|c0 pre IH]; intros w; simpl.
  - intros [= <-] Hs. by rewrite Hs.
  - destruct (settle c0 w) as [w1 [a|e1]]; [|done]. apply IH.
Qed.

(** What the conversions left running still do. *)
Lemma reap_keeps_files cs w p : is_file w p → is_file (reap cs w) p.
Proof.
  revert w. induction cs as [|c cs IH]; intros w Hp; simpl; [done|].
  apply IH. destruct (settle c w) as [w1 r] eqn:Hs. simpl.
  by eapply settle_keeps_files.
Qed.

Lemma reap_frame cs w q :
  (∀ c, c ∈ cs → q ≠ resolve (conv_output c)) →
  stat (disk (reap cs w)) q = stat (disk w) q.
Proof.
  revert w. induction cs as [|c cs IH]; intros w Hq; simpl; [done|].
  rewrite IH by (intros c' Hc'; apply Hq; by right).
  destruct (settle c w) as [w1 r] eqn:Hs. simpl.
  apply settle_inv in Hs as [_ Hs].
  assert (Hne : q ≠ resolve (conv_output c)) by (apply Hq; by left).
  destruct r as [a|e].
  - destruct Hs as (_ & d & _ & _ & Hst). by rewrite Hst, decide_False.
  - destruct Hs as [_ [->|(d & _ & Hst)]]; [done|]. by rewrite Hst, decide_False.
Qed.

Lemma elem_of_conversions c inputPath formats :
  c ∈ conversions __dirname ffmpeg inputPath formats ↔
  ∃ f, f ∈ formats ∧ c = Conversion (outputPath __dirname inputPath f)
                           (ffmpeg inputPath (outputPath __dirname inputPath f)).
Proof.
  unfold conversions. rewrite list_elem_of_fmap.
  split; intros (f & ? & ?); by exists f.
Qed.

Lemma elem_of_completion_order c sched inputPath formats :
  c ∈ completion_order sched (conversions __dirname ffmpeg inputPath formats) ↔
  ∃ f, f ∈ formats ∧ c = Conversion (outputPath __dirname inputPath f)
                           (ffmpeg inputPath (outputPath __dirname inputPath f)).
Proof. by rewrite completion_order_perm, elem_of_conversions. Qed.

Lemma conversions_NoDup sched inputPath formats :
  NoDup (resolve ∘ outputPath __dirname inputPath <$> formats) →
  NoDup (resolve ∘ conv_output
         <$> completion_order sched (conversions __dirname ffmpeg inputPath formats)).
Proof.
  intros Hnd. rewrite completion_order_perm, list_fmap_compose, conversions_outputs.
  by rewrite <- list_fmap_compose.
Qed.

(** What the join leaves behind, whatever the order in which the
    conversions end. *)
Lemma convert_inv sched formats inputPath w w' r :
  is_Some (stat (disk w) (resolve (tempDir __dirname))) →
  convert __dirname ffmpeg sched formats inputPath w = (w', r) →
  video_uploads w' = video_uploads w ∧
  trace w' = trace w ++ started __dirname inputPath formats ∧
  (∀ q, (∀ f, f ∈ formats → q ≠ resolve (outputPath __dirname inputPath f)) →
        stat (disk w') q = stat (disk w) q) ∧
  match r with
  | Ok encodedVideos =>
      encodedVideos = outputPath __dirname inputPath <$> formats ∧
      orphans w' = orphans w ∧
      ∀ f, f ∈ formats →
        names_directory (outputPath __dirname inputPath f) = false ∧
        ∃ d, ffmpeg inputPath (outputPath __dirname inputPath f) = Encoded d
             ∧ is_file w' (outputPath __dirname inputPath f)
             ∧ (NoDup (resolve ∘ outputPath __dirname inputPath <$> formats) →
                stat (disk w') (resolve (outputPath __dirname inputPath f))
                = Some (IsFile d))
  | Err e => e = EncodeError
  end.
Proof.
  intros Ht. rewrite convert_run by done.
  intros [(e & Ha & ->)|(w1 & [] & Ha & Hr)]%bind_inv.
  - apply await_all_frame in Ha as (Hv & Htr & Hq & ->).
    split; [done|]. split; [done|]. split; [|done].
    intros q Hf. rewrite Hq; [done|].
    intros c (f & Hin & ->)%elem_of_completion_order. by apply Hf.
  - injection Hr as <- <-.
    pose proof (await_all_ok _ _ _ Ha) as Hok.
    apply await_all_frame in Ha as (Hv & Htr & Hq & Ho).
    split; [done|]. split; [done|]. split.
    { intros q Hf. rewrite Hq; [done|].
      intros c (f & Hin & ->)%elem_of_completion_order. by apply Hf. }
    split; [done|]. split; [done|].
    intros f Hin.
    destruct (Hok (Conversion (outputPath __dirname inputPath f)
                     (ffmpeg inputPath (outputPath __dirname inputPath f))))
      as (Hn & d & Hd & Hfile & Hdata).
    { apply elem_of_completion_order. by exists f. }
    split; [done|]. exists d. split; [done|]. split; [done|].
    intros Hnd. by apply Hdata, conversions_NoDup.
Qed.

Lemma store_files w w' :
  (∀ q, fdata (disk w') q = fdata (disk w) q) →
  ∀ rel, store __dirname w' rel = store __dirname w rel.
Proof. intros H rel. apply H. Qed.

Lemma encoded_name_proper s3Key f : extension f → proper (encoded_name s3Key f).
Proof. intros Hf. apply extension_name; [apply stem_slash_free|done]. Qed.

(** An encoded key names the place [encoded/<name>] of the store. *)
Lemma blob_encoded_key w s3Key f :
  extension f →
  blob __dirname w (encoded_key s3Key f)
  = store __dirname w ["encoded"; encoded_name s3Key f].
Proof.
  intros Hf. unfold blob, read_path, store, encoded_key.
  change ("encoded/" +:+ encoded_name s3Key f)
    with ("encoded" +:+ String "/" (encoded_name s3Key f)).
  rewrite names_directory_join_under, resolve_join_under;
    by first [apply encoded_name_proper|done].
Qed.

(** *** The uploads *)

Lemma uploadToS3_inv localFilePath s3Key w w' r :
  uploadToS3 __dirname localFilePath s3Key w = (w', r) →
  disk_only w w' ∧
  match r with
  | Ok _ =>
      ∃ data, read_path (disk w) localFilePath = Some data
      ∧ names_directory (join [storageDir __dirname; s3Key]) = false
      ∧ ∀ q, fdata (disk w') q
             = if decide (q = resolve (join [storageDir __dirname; s3Key]))
               then Some data else fdata (disk w) q
  | Err e => (∃ c, e = FsError c) ∧ ∀ q, fdata (disk w') q = fdata (disk w) q
  end.
Proof.
  unfold uploadToS3. rewrite (bind_run _ _ _ _ _ (existsSync_run _ w)).
  intros [(e & He & ->)|(w1 & [] & He & Hc)]%bind_inv; apply ensure_dir_inv in He.
  - destruct He as [-> ?]. done.
  - destruct He as (Hdo & Hf & _). apply copyFile_inv in Hc.
    destruct r as [[]|e].
    + destruct Hc as (data & Hr & Hw). apply write_path_inv in Hw as (Hdo' & Hn & Hs).
      split; [by eapply disk_only_trans|]. exists data.
      split. { unfold read_path in *. destruct (names_directory _); [done|]. by rewrite <- Hf. }
      split; [done|]. intros q. unfold fdata at 1. rewrite Hs.
      case_decide; [done|]. apply Hf.
    + destruct Hc as (-> & Hc). done.
Qed.

(** One turn of the upload loop moves the bytes of an encoded file
    into the store. *)
Lemma upload_unlink_inv v key w w' :
  (uploadToS3 __dirname v key ≫= λ _, unlinkSync v) w = (w', Ok ()) →
  disk_only w w' ∧ names_directory v = false ∧
  names_directory (join [storageDir __dirname; key]) = false ∧
  is_Some (fdata (disk w) (resolve v)) ∧
  ∀ q, fdata (disk w') q
       = if decide (q = resolve v) then None
         else if decide (q = resolve (join [storageDir __dirname; key]))
              then fdata (disk w) (resolve v)
              else fdata (disk w) q.
Proof.
  intros (w1 & [] & Hu & Hd)%bind_ok.
  apply uploadToS3_inv in Hu as (Hdo & data & Hr & Hn & Hq).
  apply unlinkSync_inv in Hd as (Hdo' & _ & Hs).
  unfold read_path in Hr. destruct (names_directory v); [done|].
  split; [by eapply disk_only_trans|]. split; [done|]. split; [done|].
  split; [by rewrite Hr|].
  intros q. unfold fdata at 1. rewrite Hs. case_decide; [done|].
  fold (fdata (disk w1) q). rewrite Hq. case_decide; [|done].
  by rewrite Hr.
Qed.

Lemma for_each_indexed {X} (body : X → M unit) (l1 l2 : list X) w :
  for_each (seq (length l1) (length l2))
    (λ i, match (l1 ++ l2) !! i with Some v => body v | None => throw TypeError end) w
  = for_each l2 body w.
Proof.
  revert l1 w. induction l2 as [|v l2 IH]; intros l1 w; simpl; [done|].
  rewrite list_lookup_middle by done.
  unfold mbind, M_bind. destruct (body v w) as [w1 [[]|e]]; [|done].
  specialize (IH (l1 ++ [v]) w1). rewrite length_app, <- app_assoc in IH. simpl in IH.
  by rewrite Nat.add_1_r in IH.
Qed.

Lemma persist_run encodedVideos w :
  persist __dirname (length encodedVideos) encodedVideos w
  = for_each encodedVideos
      (λ v, uploadToS3 __dirname v ("encoded/" +:+ basename v) ≫= λ _, unlinkSync v) w.
Proof. apply (for_each_indexed _ []). Qed.

Section Moves.
Context (key : string → string).

(** The loop moves every file to its place in the store, when the
    places involved are all different. *)
Lemma moves_ok vs w w' :
  for_each vs (λ v, uploadToS3 __dirname v (key v) ≫= λ _, unlinkSync v) w = (w', Ok ()) →
  NoDup (source <$> vs) → NoDup (target __dirname key <$> vs) →
  (∀ v v', v ∈ vs → v' ∈ vs → source v ≠ target __dirname key v') →
  disk_only w w' ∧
  (∀ v, v ∈ vs →
     fdata (disk w') (target __dirname key v) = fdata (disk w) (source v)
     ∧ fdata (disk w') (source v) = None
     ∧ is_Some (fdata (disk w) (source v))) ∧
  (∀ q, (∀ v, v ∈ vs → q ≠ source v ∧ q ≠ target __dirname key v) →
        fdata (disk w') q = fdata (disk w) q).
Proof.
  revert w. induction vs as [|v vs IH]; intros w; simpl.
  - intros [= <-] _ _ _. split; [done|]. split; [|done].
    intros v Hv. by apply elem_of_nil in Hv.
  - intros (w1 & [] & Hb & Hrest)%bind_ok Hsrc Htgt Hdis.
    apply NoDup_cons in Hsrc as [Hs1 Hsrc]. apply NoDup_cons in Htgt as [Ht1 Htgt].
    apply upload_unlink_inv in Hb as (Hdo & _ & _ & Hsome & Hq).
    destruct (IH _ Hrest Hsrc Htgt) as (Hdo' & Hvs & Hfr).
    { intros ? ? ? ?. apply Hdis; by right. }
    assert (Hne : ∀ v', v' ∈ vs →
              source v ≠ source v' ∧ source v ≠ target __dirname key v'
              ∧ target __dirname key v ≠ source v' ∧ target __dirname key v ≠ target __dirname key v').
    { intros v' Hv'. repeat split.
      - intros Heq. apply Hs1. rewrite Heq. apply list_elem_of_fmap. by exists v'.
      - apply Hdis; [by left|by right].
      - apply not_eq_sym, Hdis; [by right|by left].
      - intros Heq. apply Ht1. rewrite Heq. apply list_elem_of_fmap. by exists v'. }
    split; [by eapply disk_only_trans|]. split.
    + intros v0 [->|Hv0]%elem_of_cons.
      * split; [|split; [|done]].
        -- rewrite Hfr by (intros v' Hv'; destruct (Hne v' Hv') as (?&?&?&?); by split).
           rewrite Hq. rewrite decide_False by (apply not_eq_sym, Hdis; by left).
           by rewrite decide_True.
        -- rewrite Hfr by (intros v' Hv'; destruct (Hne v' Hv') as (?&?&?&?); by split).
           rewrite Hq. by rewrite decide_True.
      * destruct (Hvs v0 Hv0) as (Ht & Hs & Hi). destruct (Hne v0 Hv0) as (?&?&?&?).
        rewrite Ht, Hs. rewrite Hq in Hi |- *.
        by rewrite !decide_False in Hi |- * by done.
    + intros q Hall. rewrite Hfr by (intros v' Hv'; apply Hall; by right).
      rewrite Hq. destruct (Hall v) as [? ?]; [by left|].
      by rewrite !decide_False.
Qed.
End Moves.

(** The work list and the targets of the program are plain names. *)
Lemma ids_plain : Forall (λ id, slash_free id = true) ids.
Proof. repeat (constructor; [done|]). constructor. Qed.

Lemma outputFormats_extensions : Forall extension outputFormats.
Proof. repeat (constructor; [done|]). constructor. Qed.

(** The join fails as a whole when one encoder breaks, whatever the
    targets and the order of completion; no object is written. *)
Lemma broken_conversion_fails sched formats s3Key w f debris :
  Forall extension formats → f ∈ formats →
  ffmpeg (localVideoPath __dirname s3Key)
    (outputPath __dirname (localVideoPath __dirname s3Key) f) = Broken debris →
  ∃ w' e,
    processVideo __dirname ffmpeg sched formats s3Key w = (w', Err e)
    ∧ (e = EncodeError ∨ ∃ c, e = FsError c)
    ∧ video_uploads w' = video_uploads w
    ∧ ∀ rel, store __dirname w' rel = store __dirname w rel.
Proof.
  intros Hext Hin Hbroken. rewrite processVideo_phases.
  destruct (fetch __dirname s3Key w) as [w1 [a|e]] eqn:Hf.
  - rewrite (bind_run _ _ _ _ _ Hf).
    apply fetch_inv in Hf as ((Hv & _ & _) & -> & d & _ & _ & _ & Ht & Hq).
    destruct (convert __dirname ffmpeg sched formats (localVideoPath __dirname s3Key) w1)
      as [w2 [ev|e]] eqn:Hc.
    + apply convert_inv in Hc as (_ & _ & _ & _ & _ & Hall); [|done].
      destruct (Hall f Hin) as (_ & d' & Hd' & _). congruence.
    + rewrite (bind_fail _ _ _ _ _ Hc).
      apply convert_inv in Hc as (Hv' & _ & Hq' & ->); [|done].
      exists w2, EncodeError. split; [done|]. split; [by left|]. split; [congruence|].
      intros rel. unfold store.
      rewrite <- Hq by apply not_eq_sym, localVideoPath_outside_store.
      unfold fdata. rewrite Hq'; [done|].
      intros f' Hf'. apply not_eq_sym, outputPath_outside_store.
      rewrite Forall_forall in Hext. by apply Hext.
  - rewrite (bind_fail _ _ _ _ _ Hf).
    apply fetch_inv in Hf as ((Hv & _ & _) & (c & ->) & Hq).
    exists w1, (FsError c). split; [done|]. split; [right; by exists c|].
    split; [done|]. by apply store_files.
Qed.

(** *** A run that ends well *)

(** Everything a successful run does to the files of the disk: each
    encoded file is moved to its place in the store, with the bytes the
    encoder produced; the local original and the encoded files are gone
    from the scratch directory; no other file is touched. *)
Lemma processVideo_ok sched formats s3Key w w' :
  Forall extension formats → NoDup formats →
  processVideo __dirname ffmpeg sched formats s3Key w = (w', Ok ()) →
  let inputPath := localVideoPath __dirname s3Key in
  (∀ f, f ∈ formats →
     proper (basename s3Key) ∧
     resolve inputPath ≠ source (outputPath __dirname inputPath f) ∧
     ∃ data, ffmpeg inputPath (outputPath __dirname inputPath f) = Encoded data
             ∧ fdata (disk w') (target __dirname upload_key (outputPath __dirname inputPath f))
               = Some data
             ∧ fdata (disk w') (source (outputPath __dirname inputPath f)) = None) ∧
  fdata (disk w') (resolve inputPath) = None ∧
  (∀ q, q ≠ resolve inputPath →
        (∀ f, f ∈ formats →
              q ≠ source (outputPath __dirname inputPath f)
              ∧ q ≠ target __dirname upload_key (outputPath __dirname inputPath f)) →
        fdata (disk w') q = fdata (disk w) q) ∧
  trace w' = trace w ++ started __dirname inputPath formats ∧
  orphans w' = orphans w ∧ video_uploads w' = video_uploads w ∧
  is_Some (blob __dirname w s3Key).
Proof.
  intros Hext Hnd Hrun inputPath. rewrite processVideo_phases in Hrun.
  apply bind_ok in Hrun as (w1 & a & Hf & Hrun).
  apply fetch_inv in Hf as ((Hv1 & Ho1 & Ht1) & -> & d0 & Hb & Hn & Hs1 & Ht & Hq1).
  fold inputPath in Hrun, Hn, Hs1, Hq1.
  apply bind_ok in Hrun as (w2 & ev & Hc & Hrun).
  apply convert_inv in Hc as (Hv2 & Ht2 & Hq2 & -> & Ho2 & Hall); [|done].
  apply bind_ok in Hrun as (w3 & [] & Hp & Hu).
  rewrite <- (length_fmap (outputPath __dirname inputPath)), persist_run in Hp.
  destruct (outputs_differ __dirname inputPath formats Hext Hnd) as (Hnd1 & Hnd2 & Hdis).
  apply (moves_ok upload_key) in Hp as ((Hv3 & Ho3 & Ht3) & Hvs & Hq3); [|done..].
  apply unlinkSync_inv in Hu as ((Hv4 & Ho4 & Ht4) & Hfile & Hs4).
  assert (Hq4 : ∀ q, fdata (disk w') q
                     = if decide (q = resolve inputPath) then None else fdata (disk w3) q).
  { intros q. unfold fdata at 1. rewrite Hs4. by case_decide. }
  apply is_file_stat in Hfile as (_ & d3 & Hd3). apply fdata_file in Hd3.
  assert (Hnd1' : NoDup (resolve ∘ outputPath __dirname inputPath <$> formats)).
  { by rewrite <- list_fmap_compose in Hnd1. }
  assert (Hin : ∀ f, f ∈ formats →
            outputPath __dirname inputPath f ∈ outputPath __dirname inputPath <$> formats).
  { intros f Hf. apply list_elem_of_fmap. by exists f. }
  (* the local original is none of the encoded files *)
  assert (Hlocal : ∀ f, f ∈ formats →
            resolve inputPath ≠ source (outputPath __dirname inputPath f)
            ∧ resolve inputPath ≠ target __dirname upload_key (outputPath __dirname inputPath f)).
  { intros f Hf. split.
    - intros Heq. destruct (Hvs _ (Hin f Hf)) as (_ & Hnone & _).
      rewrite <- Heq in Hnone. congruence.
    - rewrite Forall_forall in Hext.
      destruct (target_outputPath __dirname inputPath f (Hext f Hf)) as [-> _].
      pose proof (localVideoPath_outside_store __dirname s3Key ["encoded"; basename_ext inputPath (extname inputPath) +:+ "." +:+ f]) as Hout.
      rewrite resolve_storageDir, <- app_assoc in Hout. exact Hout. }
  split; [|split; [|split; [|split; [|split; [|split]]]]].
  - intros f Hf. destruct (Hall f Hf) as (_ & data & Hdata & _ & Hstat).
    specialize (Hstat Hnd1'). apply fdata_file in Hstat.
    destruct (Hvs _ (Hin f Hf)) as (Htgt & Hsrc & _).
    destruct (Hlocal f Hf) as [Hl1 Hl2].
    split.
    + (* the key has a proper last name, or the encoder could not have
         written below the local original *)
      destruct (resolve_localVideoPath __dirname s3Key) as [[Hp _]|[_ Hloc]]; [done|].
      exfalso. fold inputPath in Hloc.
      assert (Hfile1 : stat (disk w2) (resolve inputPath) = Some (IsFile d0)).
      { rewrite Hq2; [done|]. intros f' Hf'. by apply Hlocal. }
      rewrite Forall_forall in Hext.
      pose proof (source_outputPath __dirname inputPath f (Hext f Hf)) as Hsrc'.
      unfold source in Hstat, Hsrc'. apply fdata_file in Hstat.
      destruct Hloc as [Hloc|Hloc]; rewrite Hloc in Hfile1.
      * rewrite Hsrc' in Hstat.
        change (resolve __dirname ++ ["temp_encoded"; basename_ext inputPath (extname inputPath) +:+ "." +:+ f])
          with (resolve __dirname ++ ["temp_encoded"] ++ [basename_ext inputPath (extname inputPath) +:+ "." +:+ f]) in Hstat.
        rewrite app_assoc in Hstat.
        assert (Hdir := stat_above _ _ _ (mk_is_Some _ _ Hstat) ltac:(done)). congruence.
      * rewrite Hsrc' in Hstat.
        assert (Hdir := stat_above _ _ _ (mk_is_Some _ _ Hstat) ltac:(done)). congruence.
    + split; [done|]. exists data. split; [done|]. split.
      * rewrite Hq4, decide_False by (apply not_eq_sym, Hl2). by rewrite Htgt.
      * rewrite Hq4. case_decide; [done|]. exact Hsrc.
  - by rewrite Hq4, decide_True.
  - intros q Hq Hqf. rewrite Hq4, decide_False by done.
    rewrite Hq3.
    2:{ intros v (f & -> & Hf)%list_elem_of_fmap. by apply Hqf. }
    rewrite <- Hq1 by done. unfold fdata. rewrite Hq2; [done|].
    intros f Hf. by apply Hqf.
  - congruence.
  - congruence.
  - congruence.
  - by rewrite Hb.
Qed.

Lemma outputFormats_NoDup : NoDup outputFormats.
Proof. apply (bool_decide_unpack _). by vm_compute. Qed.

Lemma encoded_key_inj s3Key f1 f2 : encoded_key s3Key f1 = encoded_key s3Key f2 → f1 = f2.
Proof.
  unfold encoded_key, encoded_name. intros H.
  by apply append_inj_r, append_inj_r, append_inj_r in H.
Qed.

(** The place of the store where a successful run puts the encoding in
    one format. *)
Lemma target_encoded_name s3Key f :
  extension f → proper (basename s3Key) →
  target __dirname upload_key
    (outputPath __dirname (localVideoPath __dirname s3Key) f)
  = resolve (storageDir __dirname) ++ ["encoded"; encoded_name s3Key f].
Proof.
  intros Hf Hp. destruct (target_outputPath __dirname (localVideoPath __dirname s3Key) f Hf)
    as [-> _].
  rewrite stem_localVideoPath by done.
  by rewrite resolve_storageDir, <- app_assoc.
Qed.

Lemma encoded_objects_written sched s3Key w w' :
  processVideo __dirname ffmpeg sched outputFormats s3Key w = (w', Ok ()) →
  ∀ f, f ∈ outputFormats →
    ∃ data,
      ffmpeg (localVideoPath __dirname s3Key)
        (outputPath __dirname (localVideoPath __dirname s3Key) f) = Encoded data
      ∧ blob __dirname w' (encoded_key s3Key f) = Some data.
Proof.
  intros Hrun. pose proof outputFormats_extensions as Hext.
  apply processVideo_ok in Hrun as (Hall & _);
    [|done|apply outputFormats_NoDup].
  rewrite Forall_forall in Hext.
  intros f Hf. destruct (Hall f Hf) as (Hp & _ & data & Hdata & Htgt & _).
  exists data. split; [done|].
  rewrite blob_encoded_key by by apply Hext.
  unfold store. by rewrite <- target_encoded_name by by first [apply Hext|done].
Qed.

(** C1: after a run of the handler that ends well, the Blob Store holds,
    for each configured format, an object under the key
    [encoded/<name of the original without extension>.<format>], with the
    bytes the encoder produced for that format; the keys of different
    formats differ; and no other object of the store was written, changed
    or removed. *)
Theorem encoded_objects_per_format sched s3Key w w' :
  processVideo __dirname ffmpeg sched outputFormats s3Key w = (w', Ok ()) →
  (∀ f, f ∈ outputFormats →
     ∃ data,
       ffmpeg (localVideoPath __dirname s3Key)
         (outputPath __dirname (localVideoPath __dirname s3Key) f) = Encoded data
       ∧ blob __dirname w' (encoded_key s3Key f) = Some data)
  ∧ NoDup (encoded_key s3Key <$> outputFormats)
  ∧ (∀ rel, rel ∉ (λ f, ["encoded"; encoded_name s3Key f]) <$> outputFormats →
            store __dirname w' rel = store __dirname w rel).
Proof.
  intros Hrun. pose proof outputFormats_extensions as Hext.
  pose proof (encoded_objects_written _ _ _ _ Hrun) as Hobj.
  apply processVideo_ok in Hrun as (Hall & _ & Hframe & _);
    [|done|apply outputFormats_NoDup].
  rewrite Forall_forall in Hext. split; [|split].
  - exact Hobj.
  - apply NoDup_fmap_2_strong; [|apply outputFormats_NoDup].
    intros f1 f2 _ _. apply encoded_key_inj.
  - intros rel Hrel. unfold store. apply Hframe.
    + apply not_eq_sym, localVideoPath_outside_store.
    + intros f Hf. destruct (Hall f Hf) as (Hp & _). split.
      * apply not_eq_sym, outputPath_outside_store. by apply Hext.
      * rewrite target_encoded_name by by first [apply Hext|done].
        intros Heq%app_inv_head. apply Hrel. apply list_elem_of_fmap. by exists f.
Qed.

(** *** Originals that already have a target format *)

(** A key whose extension is one of the targets never gets through:
    the encoder for that target writes over the local original, the
    upload loop removes that file as an encoded one, and the last
    [unlinkSync] does not find it. *)
Lemma same_extension_never_completes sched formats s3Key f w :
  Forall extension formats → NoDup formats → f ∈ formats →
  extname s3Key = "." +:+ f →
  snd (processVideo __dirname ffmpeg sched formats s3Key w) ≠ Ok ().
Proof.
  intros Hext Hnd Hf He.
  destruct (processVideo __dirname ffmpeg sched formats s3Key w) as [w' [[]|e]] eqn:Hrun;
    [|done].
  apply processVideo_ok in Hrun as (Hall & _); [|done..].
  destruct (Hall f Hf) as (_ & Hne & _). exfalso. apply Hne.
  by rewrite same_extension_collides.
Qed.

(** C3 (at the key [videos/x.mp4]): the output path computed for the
    configured format [mp4] is the path of the local original, so the
    conversion started for that format has its own input as its output
    file. *)
Theorem output_collides_with_original :
  let localVideoPath := localVideoPath __dirname "videos/x.mp4" in
  "mp4" ∈ outputFormats
  ∧ outputPath __dirname localVideoPath "mp4" = localVideoPath
  ∧ Conversion localVideoPath (ffmpeg localVideoPath localVideoPath)
    ∈ conversions __dirname ffmpeg localVideoPath outputFormats.
Proof.
  intros l. assert (He : outputPath __dirname l "mp4" = l).
  { by apply same_extension_collides. }
  split; [by left|]. split; [done|].
  apply elem_of_conversions. exists "mp4". split; [by left|]. by rewrite He.
Qed.

(** C9: an event whose key names no object of the Blob Store.  The get
    fails with a file-system error wherever the object is missing; the
    handler ends with such an error, starts no encoder (the trace and the
    list of conversions nobody waits for are as before), and neither
    writes nor removes any file, in the store or elsewhere. *)
Theorem missing_object_fails sched formats s3Key w :
  blob __dirname w s3Key = None →
  (∀ localPath, ∃ c,
     downloadFromS3 __dirname s3Key localPath w = (w, Err (FsError c))) ∧
  ∃ w' c,
    processVideo __dirname ffmpeg sched formats s3Key w = (w', Err (FsError c))
    ∧ (s3Key ≠ "" →
       eachMessage __dirname ffmpeg sched formats (Some s3Key) w = (w', Err (FsError c)))
    ∧ trace w' = trace w ∧ orphans w' = orphans w
    ∧ (∀ q, fdata (disk w') q = fdata (disk w) q)
    ∧ (∀ rel, store __dirname w' rel = store __dirname w rel).
Proof.
  intros Hb. split.
  - intros localPath.
    destruct (downloadFromS3 __dirname s3Key localPath w) as [w1 [a|e]] eqn:Hd;
      apply downloadFromS3_inv in Hd.
    + destruct Hd as (_ & d & Hd & _). congruence.
    + destruct Hd as (-> & c & ->). by exists c.
  - destruct (fetch __dirname s3Key w) as [w1 [a|e]] eqn:Hf.
    + apply fetch_inv in Hf as (_ & _ & d & Hd & _). congruence.
    + pose proof (processVideo_phases sched formats s3Key w) as Hp.
      rewrite (bind_fail _ _ _ _ _ Hf) in Hp.
      apply fetch_inv in Hf as ((_ & Ho & Ht) & (c & ->) & Hq).
      exists w1, c. split; [done|]. split.
      { intros Hk. destruct s3Key; [done|]. exact Hp. }
      split; [done|]. split; [done|]. split; [done|]. by apply store_files.
Qed.

(** C2: when the encoder breaks for one of the configured formats, the
    handler ends with an error, which [eachMessage] passes on as it is,
    and the Blob Store holds exactly the objects it held before: the
    uploads come after the join and are never reached.  This holds for
    every key, every earlier state and every order of completion. *)
Theorem failed_conversion_uploads_nothing sched s3Key w format debris :
  format ∈ outputFormats →
  ffmpeg (localVideoPath __dirname s3Key)
    (outputPath __dirname (localVideoPath __dirname s3Key) format) = Broken debris →
  ∃ w' e,
    processVideo __dirname ffmpeg sched outputFormats s3Key w = (w', Err e)
    ∧ (s3Key ≠ "" →
       eachMessage __dirname ffmpeg sched outputFormats (Some s3Key) w = (w', Err e))
    ∧ (∀ rel, store __dirname w' rel = store __dirname w rel)
    ∧ (∀ f, f ∈ outputFormats →
            blob __dirname w' (encoded_key s3Key f) = blob __dirname w (encoded_key s3Key f)).
Proof.
  intros Hin Hbroken. pose proof outputFormats_extensions as Hext.
  rewrite Forall_forall in Hext.
  destruct (broken_conversion_fails sched outputFormats s3Key w format debris
              outputFormats_extensions Hin Hbroken) as (w' & e & Hp & _ & _ & Hs).
  exists w', e. split; [done|]. split.
  { intros Hk. destruct s3Key; [done|]. exact Hp. }
  split; [done|].
  intros f Hf. by rewrite !blob_encoded_key by by apply Hext.
Qed.

(** C7: the conversions [pre] have ended well, each leaving its output
    file, when the encoder of [c] breaks; [post] are still running.  The
    handler then ends with the encoder's error at once: the output files
    of [pre] are still on the local disk (nothing deletes them), the
    conversions of [post] are left running with nobody waiting for them,
    and the Blob Store holds exactly the objects it held before (nothing
    is uploaded).  This is still so once the conversions of [post] have
    ended too. *)
Theorem orphaned_outputs sched s3Key w w1 pre c post w2 debris :
  fetch __dirname s3Key w = (w1, Ok (localVideoPath __dirname s3Key)) →
  completion_order sched
    (conversions __dirname ffmpeg (localVideoPath __dirname s3Key) outputFormats)
  = pre ++ c :: post →
  await_all pre
    (set_trace (trace w1 ++ started __dirname (localVideoPath __dirname s3Key) outputFormats) w1)
  = (w2, Ok ()) →
  conv_outcome c = Broken debris →
  ∃ w',
    processVideo __dirname ffmpeg sched outputFormats s3Key w = (w', Err EncodeError)
    ∧ (∀ c', c' ∈ pre → is_file w' (conv_output c'))
    ∧ orphans w' = orphans w ++ post
    ∧ (∀ rel, store __dirname w' rel = store __dirname w rel)
    ∧ (∀ c', c' ∈ pre → is_file (reap post w') (conv_output c'))
    ∧ (∀ rel, store __dirname (reap post w') rel = store __dirname w rel).
Proof.
  intros Hf Hord Hpre Hbroken.
  pose proof outputFormats_extensions as Hext. rewrite Forall_forall in Hext.
  assert (Hout : ∀ c', c' ∈ pre ++ c :: post →
            ∀ rel, resolve (conv_output c') ≠ resolve (storageDir __dirname) ++ rel).
  { intros c' Hc' rel. rewrite <- Hord in Hc'.
    apply elem_of_completion_order in Hc' as (f & Hin & ->). simpl.
    by apply outputPath_outside_store, Hext. }
  rewrite processVideo_phases, (bind_run _ _ _ _ _ Hf).
  apply fetch_inv in Hf as ((_ & Ho & _) & _ & d & _ & _ & _ & Ht & Hq).
  destruct (settle c w2) as [w3 [a|e]] eqn:Hs.
  { apply settle_inv in Hs as (_ & _ & d' & Hd' & _). congruence. }
  pose proof (settle_inv _ _ _ _ Hs) as ((_ & Ho3 & _) & -> & Hq3).
  pose proof (await_all_app_fail _ _ post _ _ _ _ Hpre Hs) as Hall.
  exists (set_orphans (orphans w3 ++ post) w3). split.
  { assert (Hc : convert __dirname ffmpeg sched outputFormats
                   (localVideoPath __dirname s3Key) w1
                 = (set_orphans (orphans w3 ++ post) w3, Err EncodeError)).
    { rewrite convert_run, Hord by done. by rewrite (bind_fail _ _ _ _ _ Hall). }
    by apply bind_fail. }
  pose proof (await_all_ok _ _ _ Hpre) as Hok.
  apply await_all_frame in Hpre as (_ & _ & Hq2 & Ho2).
  split.
  { intros c' Hc'. destruct (Hok c' Hc') as (_ & _ & _ & Hfile & _).
    change (is_file w3 (conv_output c')). by eapply settle_keeps_files. }
  split. { simpl. rewrite Ho3, Ho2. simpl. by rewrite Ho. }
  assert (Hstore : ∀ rel, store __dirname (set_orphans (orphans w3 ++ post) w3) rel
                          = store __dirname w rel); [|split; [done|split]].
  3:{ intros rel. rewrite <- Hstore. unfold store, fdata. rewrite reap_frame; [done|].
      intros c' Hc'. apply not_eq_sym, Hout. apply elem_of_app. right. by right. }
  2:{ intros c' Hc'. apply reap_keeps_files.
      destruct (Hok c' Hc') as (_ & _ & _ & Hfile & _).
      change (is_file w3 (conv_output c')). by eapply settle_keeps_files. }
  intros rel. unfold store. simpl.
  rewrite <- Hq by apply not_eq_sym, localVideoPath_outside_store.
  unfold fdata.
  assert (stat (disk w3) (resolve (storageDir __dirname) ++ rel)
          = stat (disk w1) (resolve (storageDir __dirname) ++ rel)) as ->; [|done].
  transitivity (stat (disk w2) (resolve (storageDir __dirname) ++ rel)).
  - destruct Hq3 as [->|(d' & _ & Hq3)]; [done|]. rewrite Hq3, decide_False; [done|].
    apply not_eq_sym, Hout. apply elem_of_app. right. by left.
  - rewrite Hq2; [done|]. intros c' Hc'. apply not_eq_sym, Hout.
    apply elem_of_app. by left.
Qed.

(** C10: a message without a payload, or with the empty string as
    payload, makes the handler log one warning and return normally; the
    disk, the topic and the conversions in flight are as before and no
    encoder is started.  A message with any other payload is handed to
    [processVideo], whose outcome is the handler's. *)
Theorem invalid_message_skipped sched formats value w :
  match value with
  | None | Some EmptyString =>
      ∃ w', eachMessage __dirname ffmpeg sched formats value w = (w', Ok ())
            ∧ trace w' = trace w ++ [ConsoleWarn "Received invalid message"]
            ∧ disk w' = disk w
            ∧ video_uploads w' = video_uploads w
            ∧ orphans w' = orphans w
  | Some s3Key =>
      eachMessage __dirname ffmpeg sched formats value w
      = processVideo __dirname ffmpeg sched formats s3Key w
  end.
Proof.
  destruct value as [[|c s]|]; simpl; [|done|]; by eexists.
Qed.

End Consumer.

Lemma missing_object_fails_witness :
  blob "/app" (sample_world "a.mov") "videos/b.mov" = None ∧
  ∃ w' c,
    processVideo "/app" sample_ffmpeg [] outputFormats "videos/b.mov" (sample_world "a.mov")
    = (w', Err (FsError c)).
Proof.
  split; [reflexivity|].
  destruct (missing_object_fails "/app" sample_ffmpeg [] outputFormats "videos/b.mov"
              (sample_world "a.mov") eq_refl) as (_ & w' & c & H & _).
  by exists w', c.
Defined.

(** ** The same event, delivered twice *)
Section Redelivery.
Import Path PathFacts Fs FsFacts.
Context (__dirname : string).
Context (ffmpeg1 ffmpeg2 : string → string → transcode).


End Redelivery.

(** No event published by the acquisition worker gets through the
    transcoding worker as configured: its keys end in [.mp4], and [mp4]
    is one of the targets. *)
Lemma producer_events_never_complete __dirname ffmpeg sched id w :
  slash_free id = true →
  snd (processVideo __dirname ffmpeg sched outputFormats (videoKey id) w) ≠ Ok ().
Proof.
  intros Hid. apply (same_extension_never_completes _ _ _ _ _ "mp4").
  - apply outputFormats_extensions.
  - apply outputFormats_NoDup.
  - by left.
  - by apply extname_videoKey.
Qed.

(** C4 (the scenario with key [videos/x.mp4] and targets [mp4], [avi]):
    the handler never returns normally, whatever the encoder does and
    whatever the disk holds.  Where the original is in the store and
    both encoders end well, both objects are uploaded and all three
    scratch files are gone, but the handler ends with [ENOENT] from its
    last [unlinkSync], the local original having been removed already as
    the encoded [x.mp4]. *)
Theorem scenario_x_mp4 :
  (∀ __dirname ffmpeg sched w,
     snd (processVideo __dirname ffmpeg sched ["mp4"; "avi"] "videos/x.mp4" w) ≠ Ok ())
  ∧ ∃ w',
      processVideo "/app" sample_ffmpeg [] ["mp4"; "avi"] "videos/x.mp4"
        (sample_world "x.mp4") = (w', Err (FsError ENOENT))
      ∧ blob "/app" w' "encoded/x.mp4" = Some [Byte.x02]
      ∧ blob "/app" w' "encoded/x.avi" = Some [Byte.x02]
      ∧ read_path (disk w') "/app/temp_encoded/x.mp4" = None
      ∧ read_path (disk w') "/app/temp_encoded/x.avi" = None.
Proof.
  split.
  - intros d ffmpeg sched w.
    apply (same_extension_never_completes d ffmpeg sched _ _ "mp4").
    + repeat (constructor; [done|]). constructor.
    + apply (bool_decide_unpack _). by vm_compute.
    + by left.
    + by vm_compute.
  - eexists. split; [by vm_compute|]. by vm_compute.
Qed.

(** ** The acquisition worker *)
Section Producer.
Import Path PathFacts Fs FsFacts.
Context (__dirname : string).
Context (yt_dlp : string → string → option Fs.bytes).
Context (broker : list string → string → delivery).

Lemma runProducer_loop ids w :
  runProducer __dirname yt_dlp broker ids w
  = (when (negb (bool_decide (is_Some (lookup_path (disk w) (producerTempDir __dirname)))))
       (mkdirSync (producerTempDir __dirname) true)
     ≫= λ _, for_each ids (attempt __dirname yt_dlp broker)) w.
Proof. done. Qed.

Lemma downloadYouTubeVideo_inv url out w w' r :
  downloadYouTubeVideo yt_dlp url out w = (w', r) →
  video_uploads w' = video_uploads w ∧ orphans w' = orphans w ∧
  trace w' = trace w ++ [Exec url (out +:+ ".mp4")] ∧
  match r with
  | Ok a =>
      a = out +:+ ".mp4" ∧
      ∃ data, yt_dlp url out = Some data
              ∧ names_directory a = false
              ∧ ∀ q, stat (disk w') q
                     = if decide (q = resolve a) then Some (IsFile data)
                       else stat (disk w) q
  | Err e => e = ExecError ∧ disk w' = disk w
  end.
Proof.
  unfold downloadYouTubeVideo.
  intros [(e & He & _)|(w0 & [] & He & Hr)]%bind_inv; [done|].
  injection He as <-.
  destruct (yt_dlp url out) as [data|]; [|by injection Hr as <- <-].
  apply bind_inv in Hr as [(e & Hc & ->)|(w1 & [] & Hc & Hr)]; unfold catch in Hc;
    destruct (write_path _ _ _) as [w2 [[]|e2]] eqn:Hw; try done;
    apply write_path_inv in Hw.
  - injection Hc as <- <-. destruct Hw as [-> _]. done.
  - injection Hc as <-. injection Hr as <- <-.
    destruct Hw as ((Hv & Ho & Ht) & Hn & Hs). simpl in *.
    repeat split; try done. by exists data.
Qed.

Lemma produceEvent_inv key w w' r :
  produceEvent broker key w = (w', r) →
  disk w' = disk w ∧ orphans w' = orphans w ∧ trace w' = trace w ∧
  match r with
  | Ok _ => broker (video_uploads w) key = Delivered
            ∧ video_uploads w' = video_uploads w ++ [key]
  | Err e => e = KafkaError
             ∧ (video_uploads w' = video_uploads w
                ∨ video_uploads w' = video_uploads w ++ [key])
  end.
Proof.
  unfold produceEvent. destruct (broker (video_uploads w) key);
    intros [= <- <-]; simpl; repeat split; auto.
Qed.

Section Turn.
Context (id : string) (Hid : slash_free id = true).

(** A turn of the loop that ends well: the download is moved to the
    store under the key of the id, and that key is published once. *)
Lemma acquire_ok w w' :
  acquire __dirname yt_dlp broker id w = (w', Ok ()) →
  ∃ data,
    yt_dlp (videoUrl id) (join [producerTempDir __dirname; outputFilename id]) = Some data
    ∧ broker (video_uploads w) (videoKey id) = Delivered
    ∧ video_uploads w' = video_uploads w ++ [videoKey id]
    ∧ orphans w' = orphans w
    ∧ trace w' = trace w ++ [Exec (videoUrl id)
                               (join [producerTempDir __dirname; outputFilename id] +:+ ".mp4")]
    ∧ ∀ q, fdata (disk w') q
           = if decide (q = resolve __dirname ++ ["temp"; outputFilename id +:+ ".mp4"])
             then None
             else if decide (q = resolve (storageDir __dirname)
                                 ++ ["videos"; outputFilename id +:+ ".mp4"])
                  then Some data
                  else fdata (disk w) q.
Proof using Hid.
  unfold acquire.
  intros (w1 & a & Hd & Hrest)%bind_ok.
  apply downloadYouTubeVideo_inv in Hd as (Hv1 & Ho1 & Ht1 & -> & data & Hy & Hn1 & Hs1).
  apply bind_ok in Hrest as (w2 & [] & Hu & Hrest).
  apply uploadToS3_inv in Hu as ((Hv2 & Ho2 & Ht2) & data' & Hr & Hn2 & Hq2).
  apply bind_ok in Hrest as (w3 & [] & Hp & Hu3).
  apply produceEvent_inv in Hp as (Hd3 & Ho3 & Ht3 & Hb & Hv3).
  apply unlinkSync_inv in Hu3 as ((Hv4 & Ho4 & Ht4) & _ & Hs4).
  destruct (resolve_localOutputPath __dirname id Hid) as [Hl _].
  destruct (resolve_videoKey __dirname id Hid) as [Hk _].
  rewrite Hl in Hs1, Hs4. rewrite Hk in Hq2.
  unfold read_path in Hr. rewrite Hn1, Hl in Hr.
  unfold fdata in Hr. rewrite Hs1, decide_True in Hr by done. injection Hr as <-.
  exists data. split; [done|]. split; [by rewrite Hv2, Hv1 in Hb|].
  split; [congruence|]. split; [congruence|]. split; [congruence|].
  intros q. unfold fdata at 1. rewrite Hs4. case_decide; [done|].
  rewrite Hd3. fold (fdata (disk w2) q). rewrite Hq2. case_decide; [done|].
  unfold fdata. by rewrite Hs1, decide_False.
Qed.

Lemma videoKey_place_outside_temp :
  resolve (storageDir __dirname) ++ ["videos"; outputFilename id +:+ ".mp4"]
  ≠ resolve __dirname ++ ["temp"; outputFilename id +:+ ".mp4"].
Proof. rewrite resolve_storageDir, <- app_assoc. intros H%app_inv_head. done. Qed.

Lemma blob_videoKey w :
  blob __dirname w (videoKey id)
  = store __dirname w ["videos"; outputFilename id +:+ ".mp4"].
Proof using Hid.
  unfold blob, read_path, store.
  by destruct (resolve_videoKey __dirname id Hid) as [-> ->].
Qed.

(** Whatever becomes of a turn, it removes no object of the store, and
    the only place of the store it may write is that of its key. *)
Lemma acquire_frame w w' r :
  acquire __dirname yt_dlp broker id w = (w', r) →
  orphans w' = orphans w ∧
  (video_uploads w' = video_uploads w
   ∨ video_uploads w' = video_uploads w ++ [videoKey id]) ∧
  (∀ rel, store __dirname w' rel = store __dirname w rel
          ∨ (rel = ["videos"; outputFilename id +:+ ".mp4"]
             ∧ is_Some (store __dirname w' rel))).
Proof using Hid.
  unfold acquire.
  destruct (resolve_localOutputPath __dirname id Hid) as [Hl _].
  destruct (resolve_videoKey __dirname id Hid) as [Hk _].
  intros [(e & Hd & ->)|(w1 & a & Hd & Hrest)]%bind_inv;
    apply downloadYouTubeVideo_inv in Hd as (Hv1 & Ho1 & Ht1 & Hd).
  { destruct Hd as [-> Hd]. split; [done|]. split; [by left|].
    intros rel. left. unfold store. by rewrite Hd. }
  destruct Hd as (-> & data & Hy & Hn1 & Hs1). rewrite Hl in Hs1.
  assert (Hst1 : ∀ rel, store __dirname w1 rel = store __dirname w rel).
  { intros rel. unfold store, fdata. rewrite Hs1, decide_False; [done|].
    rewrite <- Hl. apply not_eq_sym, localOutputPath_outside_store, Hid. }
  apply bind_inv in Hrest as [(e & Hu & ->)|(w2 & [] & Hu & Hrest)];
    apply uploadToS3_inv in Hu as ((Hv2 & Ho2 & Ht2) & Hu).
  { destruct Hu as [_ Hq2]. split; [congruence|]. split; [left; congruence|].
    intros rel. left. unfold store. rewrite Hq2. apply Hst1. }
  destruct Hu as (data' & _ & _ & Hq2). rewrite Hk in Hq2.
  assert (Hst2 : ∀ rel, store __dirname w2 rel = store __dirname w rel
                        ∨ (rel = ["videos"; outputFilename id +:+ ".mp4"]
                           ∧ is_Some (store __dirname w2 rel))).
  { intros rel. unfold store at 1 3. rewrite Hq2. case_decide as Hrel.
    - right. apply app_inv_head in Hrel. done.
    - left. apply Hst1. }
  apply bind_inv in Hrest as [(e & Hp & ->)|(w3 & [] & Hp & Hu3)];
    apply produceEvent_inv in Hp as (Hd3 & Ho3 & Ht3 & Hp).
  { destruct Hp as [_ Hv3]. split; [congruence|].
    split. { destruct Hv3 as [Hv3|Hv3]; rewrite Hv3, Hv2, Hv1; [by left|by right]. }
    intros rel. unfold store. rewrite Hd3. apply Hst2. }
  destruct Hp as [_ Hv3].
  assert (Hst3 : ∀ rel, store __dirname w3 rel = store __dirname w2 rel).
  { intros rel. unfold store. by rewrite Hd3. }
  apply unlinkSync_inv in Hu3. destruct r as [[]|e].
  - destruct Hu3 as ((Hv4 & Ho4 & Ht4) & _ & Hs4). rewrite Hl in Hs4.
    split; [congruence|]. split; [right; congruence|].
    intros rel.
    assert (store __dirname w' rel = store __dirname w3 rel) as ->.
    { unfold store, fdata. rewrite Hs4, decide_False; [done|].
      rewrite <- Hl. apply not_eq_sym, localOutputPath_outside_store, Hid. }
    rewrite Hst3. apply Hst2.
  - destruct Hu3 as [-> _]. split; [congruence|]. split; [right; congruence|].
    intros rel. rewrite Hst3. apply Hst2.
Qed.

End Turn.



Lemma videoKey_inj id1 id2 : videoKey id1 = videoKey id2 → id1 = id2.
Proof.
  unfold videoKey, outputFilename. intros H.
  apply append_inj_r, append_inj_l in H. by apply append_inj_r in H.
Qed.

(** *** The loop *)

(** No error leaves a turn: it is logged, and what the turn had done
    before it stays done. *)
Lemma attempt_inv id w w' r :
  attempt __dirname yt_dlp broker id w = (w', r) →
  r = Ok () ∧
  (acquire __dirname yt_dlp broker id w = (w', Ok ()) ∨
   ∃ w0 e, acquire __dirname yt_dlp broker id w = (w0, Err e)
           ∧ w' = set_trace (trace w0 ++ [ConsoleError "Error in producer:" e]) w0).
Proof.
  unfold attempt, catch.
  destruct (acquire __dirname yt_dlp broker id w) as [w0 [[]|e]].
  - intros [= <- <-]. split; [done|]. by left.
  - intros [= <- <-]. split; [done|]. right. by exists w0, e.
Qed.

Lemma attempt_frame id w w' r :
  slash_free id = true →
  attempt __dirname yt_dlp broker id w = (w', r) →
  orphans w' = orphans w ∧
  (video_uploads w' = video_uploads w
   ∨ video_uploads w' = video_uploads w ++ [videoKey id]) ∧
  (∀ rel, store __dirname w' rel = store __dirname w rel
          ∨ (rel = ["videos"; outputFilename id +:+ ".mp4"]
             ∧ is_Some (store __dirname w' rel))).
Proof.
  intros Hid [_ [Ha|(w0 & e & Ha & ->)]]%attempt_inv;
    by apply (acquire_frame id Hid) in Ha.
Qed.

Lemma loop_frame l w w' r :
  Forall (λ id, slash_free id = true) l →
  for_each l (attempt __dirname yt_dlp broker) w = (w', r) →
  r = Ok () ∧ orphans w' = orphans w ∧
  (∃ extra, video_uploads w' = video_uploads w ++ extra
            ∧ ∀ k, k ∈ extra → ∃ id, id ∈ l ∧ k = videoKey id) ∧
  (∀ rel, store __dirname w' rel = store __dirname w rel
          ∨ is_Some (store __dirname w' rel)).
Proof.
  intros Hl. revert w. induction Hl as [|id l Hid Hl IH]; intros w; simpl.
  - intros [= <- <-]. split; [done|]. split; [done|]. split; [|by left].
    exists []. split; [by rewrite app_nil_r|]. intros k Hk. by apply elem_of_nil in Hk.
  - intros [(e & Ha & _)|(w1 & [] & Ha & Hrest)]%bind_inv.
    { by apply attempt_inv in Ha as [? _]. }
    apply (attempt_frame id) in Ha as (Ho1 & Hv1 & Hs1); [|done].
    apply IH in Hrest as (-> & Ho & (extra & Hv & Hk) & Hs).
    split; [done|]. split; [congruence|]. split.
    + destruct Hv1 as [Hv1|Hv1]; rewrite Hv, Hv1.
      * exists extra. split; [done|]. intros k Hin.
        destruct (Hk k Hin) as (id' & ? & ?). exists id'. split; [by right|done].
      * exists (videoKey id :: extra). split; [by rewrite <- app_assoc|].
        intros k [->|Hin]%elem_of_cons; [exists id; split; [by left|done]|].
        destruct (Hk k Hin) as (id' & ? & ?). exists id'. split; [by right|done].
    + intros rel. destruct (Hs rel) as [Heq|?]; [|by right].
      rewrite Heq. destruct (Hs1 rel) as [?|[_ ?]]; [by left|by right].
Qed.

Lemma for_each_app {X} (body : X → M unit) l1 l2 w :
  for_each (l1 ++ l2) body w = (for_each l1 body ≫= λ _, for_each l2 body) w.
Proof.
  revert w. induction l1 as [|x l1 IH]; intros w; simpl; [done|].
  unfold mbind, M_bind in *. destruct (body x w) as [w1 [[]|e]]; [|done]. apply IH.
Qed.

Lemma runProducer_app l1 l2 w w1 :
  runProducer __dirname yt_dlp broker l1 w = (w1, Ok ()) →
  runProducer __dirname yt_dlp broker (l1 ++ l2) w
  = for_each l2 (attempt __dirname yt_dlp broker) w1.
Proof.
  rewrite !runProducer_loop. unfold mbind, M_bind.
  destruct (when _ _ w) as [w0 [[]|e]]; [|done].
  rewrite for_each_app. unfold mbind, M_bind. by intros ->.
Qed.

Lemma runProducer_setup ids w w' r :
  runProducer __dirname yt_dlp broker ids w = (w', r) →
  ∃ w0 r0, runProducer __dirname yt_dlp broker [] w = (w0, r0)
           ∧ video_uploads w0 = video_uploads w ∧ orphans w0 = orphans w
           ∧ trace w0 = trace w
           ∧ (∀ q, fdata (disk w0) q = fdata (disk w) q).
Proof.
  intros _. rewrite runProducer_loop. unfold mbind, M_bind.
  destruct (when _ _ w) as [w0 [[]|e]] eqn:Hw; apply ensure_dir_inv in Hw; simpl.
  - destruct Hw as ((?&?&?) & ? & _). by exists w0, (Ok ()).
  - destruct Hw as [-> _]. by exists w, (Err e).
Qed.

(** C5: a turn of the loop that ends well for a source id (a plain
    identifier, without [/]) leaves one object in the Blob Store, under
    the key [videos/downloaded_video_<id>.mp4], with the bytes the
    downloader produced, writes no other place of the store, and appends
    to the topic one message, that key.  At the end of the run the object
    is still there, and the topic holds the message once among those
    published from this turn on, unless the id comes again in the list. *)
Theorem acquisition_yields_object_and_event l1 id l2 w w1 w2 :
  Forall (λ i, slash_free i = true) (l1 ++ id :: l2) →
  runProducer __dirname yt_dlp broker l1 w = (w1, Ok ()) →
  acquire __dirname yt_dlp broker id w1 = (w2, Ok ()) →
  ∃ w' data later,
    runProducer __dirname yt_dlp broker (l1 ++ id :: l2) w = (w', Ok ())
    ∧ yt_dlp (videoUrl id) (join [producerTempDir __dirname; outputFilename id])
      = Some data
    ∧ blob __dirname w2 (videoKey id) = Some data
    ∧ video_uploads w2 = video_uploads w1 ++ [videoKey id]
    ∧ (∀ rel, rel ≠ ["videos"; outputFilename id +:+ ".mp4"] →
              store __dirname w2 rel = store __dirname w1 rel)
    ∧ is_Some (blob __dirname w' (videoKey id))
    ∧ video_uploads w' = video_uploads w1 ++ [videoKey id] ++ later
    ∧ (id ∉ l2 → videoKey id ∉ later).
Proof.
  intros Hall Hpre Hturn.
  apply Forall_app in Hall as [_ Hall]. apply Forall_cons in Hall as [Hid Hl2].
  rewrite (runProducer_app _ (id :: l2) _ _ Hpre). simpl.
  assert (Ha : attempt __dirname yt_dlp broker id w1 = (w2, Ok ())).
  { unfold attempt, catch. by rewrite Hturn. }
  rewrite (bind_run _ _ _ _ _ Ha).
  destruct (for_each l2 (attempt __dirname yt_dlp broker) w2) as [w' r] eqn:Hrest.
  apply loop_frame in Hrest as (-> & _ & (later & Hv & Hk) & Hs); [|done].
  apply (acquire_ok id Hid) in Hturn as (data & Hy & _ & Hv2 & _ & _ & Hq).
  assert (Hobj : store __dirname w2 ["videos"; outputFilename id +:+ ".mp4"] = Some data).
  { unfold store. rewrite Hq.
    rewrite decide_False by apply (videoKey_place_outside_temp id).
    by rewrite decide_True. }
  exists w', data, later. split; [done|]. split; [done|].
  split; [by rewrite blob_videoKey|]. split; [done|]. split.
  { intros rel Hrel. unfold store. rewrite Hq.
    rewrite decide_False.
    2:{ rewrite <- (proj1 (resolve_localOutputPath __dirname id Hid)).
        apply not_eq_sym, localOutputPath_outside_store, Hid. }
    rewrite decide_False; [done|]. intros Heq%app_inv_head. done. }
  split.
  { rewrite blob_videoKey by done.
    destruct (Hs ["videos"; outputFilename id +:+ ".mp4"]) as [->|?]; [|done].
    by rewrite Hobj. }
  split; [by rewrite Hv, Hv2, <- app_assoc|].
  intros Hnin Hin. destruct (Hk _ Hin) as (id' & Hid' & Heq).
  apply videoKey_inj in Heq as ->. done.
Qed.

Lemma loop_ok l w : snd (for_each l (attempt __dirname yt_dlp broker) w) = Ok ().
Proof.
  revert w. induction l as [|id l IH]; intros w; simpl; [done|].
  unfold mbind, M_bind.
  destruct (attempt __dirname yt_dlp broker id w) as [w1 r] eqn:Ha.
  apply attempt_inv in Ha as [-> _]. apply IH.
Qed.


End Producer.

(** * The properties at sample inputs *)

Lemma encoded_objects_per_format_witness :
  let run := processVideo "/app" sample_ffmpeg [] outputFormats "videos/a.mov"
               (sample_world "a.mov") in
  run = (fst run, Ok ()) ∧
  (∀ f, f ∈ outputFormats →
     ∃ data,
       sample_ffmpeg (localVideoPath "/app" "videos/a.mov")
         (outputPath "/app" (localVideoPath "/app" "videos/a.mov") f) = Encoded data
       ∧ blob "/app" (fst run) (encoded_key "videos/a.mov" f) = Some data).
Proof.
  intros run. assert (H : run = (fst run, Ok ())) by (vm_compute; reflexivity).
  split; [exact H|].
  exact (proj1 (encoded_objects_per_format "/app" sample_ffmpeg [] "videos/a.mov"
                  (sample_world "a.mov") (fst run) H)).
Defined.

Lemma failed_conversion_uploads_nothing_witness :
  "avi" ∈ outputFormats ∧
  sample_ffmpeg_no_avi (localVideoPath "/app" "videos/a.mov")
    (outputPath "/app" (localVideoPath "/app" "videos/a.mov") "avi") = Broken None ∧
  ∃ w' e,
    processVideo "/app" sample_ffmpeg_no_avi [] outputFormats "videos/a.mov"
      (sample_world "a.mov") = (w', Err e)
    ∧ ∀ rel, store "/app" w' rel = store "/app" (sample_world "a.mov") rel.
Proof.
  assert (Hin : "avi" ∈ outputFormats) by (right; left).
  assert (Hb : sample_ffmpeg_no_avi (localVideoPath "/app" "videos/a.mov")
                 (outputPath "/app" (localVideoPath "/app" "videos/a.mov") "avi")
               = Broken None) by (vm_compute; reflexivity).
  split; [exact Hin|]. split; [exact Hb|].
  destruct (failed_conversion_uploads_nothing "/app" sample_ffmpeg_no_avi []
              "videos/a.mov" (sample_world "a.mov") "avi" None Hin Hb)
    as (w' & e & Hrun & _ & Hstore & _).
  exists w', e. split; [exact Hrun|exact Hstore].
Defined.

Lemma orphaned_outputs_witness :
  let inputPath := localVideoPath "/app" "videos/a.mov" in
  let w := sample_world "a.mov" in
  let w1 := fst (fetch "/app" "videos/a.mov" w) in
  let cs := conversions "/app" sample_ffmpeg_no_avi inputPath outputFormats in
  let pre := take 1 cs in
  let c := Conversion (outputPath "/app" inputPath "avi") (Broken None) in
  let post := drop 2 cs in
  let w2 := fst (await_all pre
                   (set_trace (trace w1 ++ started "/app" inputPath outputFormats) w1)) in
  fetch "/app" "videos/a.mov" w = (w1, Ok inputPath) ∧
  completion_order [] cs = pre ++ c :: post ∧
  await_all pre (set_trace (trace w1 ++ started "/app" inputPath outputFormats) w1)
  = (w2, Ok ()) ∧
  conv_outcome c = Broken None ∧
  ∃ w',
    processVideo "/app" sample_ffmpeg_no_avi [] outputFormats "videos/a.mov" w
    = (w', Err EncodeError)
    ∧ (∀ c', c' ∈ pre → is_file w' (conv_output c'))
    ∧ orphans w' = orphans w ++ post
    ∧ (∀ rel, store "/app" w' rel = store "/app" w rel).
Proof.
  intros inputPath w w1 cs pre c post w2.
  assert (H1 : fetch "/app" "videos/a.mov" w = (w1, Ok inputPath))
    by (vm_compute; reflexivity).
  assert (H2 : completion_order [] cs = pre ++ c :: post) by (vm_compute; reflexivity).
  assert (H3 : await_all pre
                 (set_trace (trace w1 ++ started "/app" inputPath outputFormats) w1)
               = (w2, Ok ())) by (vm_compute; reflexivity).
  assert (H4 : conv_outcome c = Broken None) by reflexivity.
  split; [exact H1|]. split; [exact H2|]. split; [exact H3|]. split; [exact H4|].
  destruct (orphaned_outputs "/app" sample_ffmpeg_no_avi [] "videos/a.mov" w w1 pre c post
              w2 None H1 H2 H3 H4) as (w' & Hrun & Hfiles & Horphans & Hstore & _).
  exists w'. split; [exact Hrun|]. split; [exact Hfiles|]. split; [exact Horphans|exact Hstore].
Defined.


Lemma acquisition_yields_object_and_event_witness :
  let w1 := fst (runProducer "/app" sample_yt_dlp sample_broker [] sample_empty_world) in
  let w2 := fst (acquire "/app" sample_yt_dlp sample_broker "c-I5S_zTwAc" w1) in
  Forall (λ i, slash_free i = true) ([] ++ "c-I5S_zTwAc" :: ["DHjqpvDnNGE"; "zQnBQ4tB3ZA"]) ∧
  runProducer "/app" sample_yt_dlp sample_broker [] sample_empty_world = (w1, Ok ()) ∧
  acquire "/app" sample_yt_dlp sample_broker "c-I5S_zTwAc" w1 = (w2, Ok ()) ∧
  ∃ w' data later,
    runProducer "/app" sample_yt_dlp sample_broker ids sample_empty_world = (w', Ok ())
    ∧ blob "/app" w2 (videoKey "c-I5S_zTwAc") = Some data
    ∧ video_uploads w' = video_uploads w1 ++ [videoKey "c-I5S_zTwAc"] ++ later
    ∧ videoKey "c-I5S_zTwAc" ∉ later.
Proof.
  intros w1 w2.
  assert (H1 : runProducer "/app" sample_yt_dlp sample_broker [] sample_empty_world
               = (w1, Ok ())) by (vm_compute; reflexivity).
  assert (H2 : acquire "/app" sample_yt_dlp sample_broker "c-I5S_zTwAc" w1 = (w2, Ok ()))
    by (vm_compute; reflexivity).
  split; [exact ids_plain|]. split; [exact H1|]. split; [exact H2|].
  destruct (acquisition_yields_object_and_event "/app" sample_yt_dlp sample_broker
              [] "c-I5S_zTwAc" ["DHjqpvDnNGE"; "zQnBQ4tB3ZA"] sample_empty_world w1 w2
              ids_plain H1 H2)
    as (w' & data & later & Hrun & _ & Hblob & _ & _ & _ & Hv & Hnin).
  exists w', data, later. split; [exact Hrun|]. split; [exact Hblob|].
  split; [exact Hv|]. apply Hnin. intros Hin.
  apply elem_of_cons in Hin as [Hin|Hin]; [discriminate Hin|].
  apply elem_of_cons in Hin as [Hin|Hin]; [discriminate Hin|].
  by apply elem_of_nil in Hin.
Defined.


(** The downloader fails for the second of three ids: the first and
    the third leave their objects and their messages, the second leaves
    neither, and the downloader is run once for each. *)
Example three_ids_second_fails :
  let run := runProducer "/app" sample_yt_dlp sample_broker ["a"; "b"; "c"]
               (fst (configure "/app" sample_empty_world)) in
  snd run = Ok ()
  ∧ video_uploads (fst run) = [videoKey "a"; videoKey "c"]
  ∧ blob "/app" (fst run) (videoKey "a") = Some [Byte.x07]
  ∧ blob "/app" (fst run) (videoKey "b") = None
  ∧ blob "/app" (fst run) (videoKey "c") = Some [Byte.x07]
  ∧ trace (fst run)
    = [Exec (videoUrl "a") "/app/temp/downloaded_video_a.mp4";
       Exec (videoUrl "b") "/app/temp/downloaded_video_b.mp4";
       ConsoleError "Error in producer:" ExecError;
       Exec (videoUrl "c") "/app/temp/downloaded_video_c.mp4"].
Proof. by vm_compute. Qed.

(** The scenario of the work list [v1] with a downloader that always
    succeeds, run as it is. *)
Example worklist_v1 :
  let w' := fst (runProducer "/app" sample_yt_dlp sample_broker ["v1"] sample_empty_world) in
  videoKey "v1" = "videos/downloaded_video_v1.mp4"
  ∧ blob "/app" w' "videos/downloaded_video_v1.mp4" = Some [Byte.x07]
  ∧ video_uploads w' = ["videos/downloaded_video_v1.mp4"]
  ∧ read_path (disk w') "/app/temp/downloaded_video_v1.mp4" = None.
Proof. by vm_compute. Qed.

(** The ids of the work list are plain identifiers.  The property of a
    successful turn is stated for such ids because [path.join]
    normalises the scratch path and the store path: for an id that
    climbs out of both directories through [..] the two paths name the
    same file, the copy leaves it as it is, and the [unlinkSync] that
    ends the turn removes it. *)
Example climbing_id_paths_coincide :
  let id := "/../../../../app/storage/x" in
  slash_free id = false
  ∧ Path.join [producerTempDir "/app"; outputFilename id] +:+ ".mp4"
    = "/app/storage/x.mp4"
  ∧ Path.join [storageDir "/app"; videoKey id] = "/app/storage/x.mp4".
Proof. by vm_compute. Qed.

(** * More of the code: the calls on their own, and the runs as a whole *)

(** ** The Blob Store calls on their own *)
Section Store.
Import Path PathFacts Fs FsFacts.
Context (__dirname : string).

Lemma read_path_stat n p d :
  read_path n p = Some d ↔ names_directory p = false ∧ stat n (resolve p) = Some (IsFile d).
Proof.
  unfold read_path. destruct (names_directory p).
  - split; [done|]. by intros [? _].
  - rewrite <- fdata_file. split; [done|]. by intros [_ ?].
Qed.

Lemma blob_uploaded localFilePath s3Key w w' :
  uploadToS3 __dirname localFilePath s3Key w = (w', Ok ()) →
  ∃ data, read_path (disk w) localFilePath = Some data
    ∧ blob __dirname w' s3Key = Some data
    ∧ read_path (disk w') localFilePath = Some data.
Proof.
  intros (_ & data & Hr & Hn & Hq)%uploadToS3_inv. exists data.
  split; [done|]. split.
  - unfold blob, read_path. rewrite Hn, Hq. by rewrite decide_True.
  - unfold read_path in *. destruct (names_directory localFilePath); [done|].
    rewrite Hq. by case_decide.
Qed.

(** X2: what is put under a key is what a get of that key gives back, for
    every key: both calls join the key to the storage directory in the
    same way.  The put is a copy, the local file keeps its bytes; a get
    that fails leaves everything as it was. *)
Theorem upload_then_download localFilePath s3Key w w1 :
  uploadToS3 __dirname localFilePath s3Key w = (w1, Ok ()) →
  ∃ data,
    read_path (disk w) localFilePath = Some data
    ∧ read_path (disk w1) localFilePath = Some data
    ∧ ∀ localPath w2 r,
        downloadFromS3 __dirname s3Key localPath w1 = (w2, r) →
        match r with
        | Ok p => p = localPath ∧ read_path (disk w2) localPath = Some data
        | Err e => w2 = w1 ∧ ∃ c, e = FsError c
        end.
Proof.
  intros (data & Hr & Hb & Hl)%blob_uploaded. exists data.
  split; [done|]. split; [done|].
  intros localPath w2 r Hd. apply downloadFromS3_inv in Hd. destruct r as [p|e]; [|done].
  destruct Hd as (-> & d & Hb' & Hw). split; [done|].
  rewrite Hb in Hb'. injection Hb' as <-.
  apply write_path_inv in Hw as (_ & Hn & Hs).
  apply read_path_stat. split; [done|]. rewrite Hs. by rewrite decide_True.
Qed.



Lemma split_up name : slash_free name = true → split ("../" +:+ name) = [".."; name].
Proof.
  intros Hn. change ("../" +:+ name) with (".." +:+ String "/" name).
  rewrite split_app_slash, (split_slash_free name) by done. done.
Qed.

Lemma resolve_key_up name :
  proper name →
  resolve (join [storageDir __dirname; "../" +:+ name]) = resolve __dirname ++ [name]
  ∧ names_directory (join [storageDir __dirname; "../" +:+ name]) = false.
Proof.
  intros Hp. split.
  - rewrite resolve_join, resolve_storageDir. unfold enter.
    rewrite split_up by apply Hp. rewrite reverse_snoc.
    change (walk false ("storage" :: reverse (resolve __dirname)) [".."; name])
      with (push false (reverse (resolve __dirname)) name).
    rewrite push_proper by done. by rewrite reverse_cons, reverse_involutive.
  - apply (names_directory_last _ name); [|apply Hp].
    apply last_split_join; [|done]. rewrite split_up by apply Hp. done.
Qed.

(** X4: keys are joined to the storage directory and nothing keeps them
    below it: the key [../name] names the file [name] beside the
    storage directory.  A put under that key writes that file and leaves
    every place of the store as it was; a get of that key reads it. *)
Theorem keys_are_not_confined name w :
  proper name → name ≠ "storage" →
  let key := "../" +:+ name in
  let place := resolve __dirname ++ [name] in
  (∀ rel, place ≠ resolve (storageDir __dirname) ++ rel)
  ∧ (∀ localFilePath w',
       uploadToS3 __dirname localFilePath key w = (w', Ok ()) →
       is_Some (fdata (disk w') place)
       ∧ fdata (disk w') place = read_path (disk w) localFilePath
       ∧ ∀ rel, store __dirname w' rel = store __dirname w rel)
  ∧ (∀ localPath w' p,
       downloadFromS3 __dirname key localPath w = (w', Ok p) →
       is_Some (fdata (disk w) place)
       ∧ read_path (disk w') localPath = fdata (disk w) place).
Proof.
  intros Hp Hne key place.
  destruct (resolve_key_up name Hp) as [Hk Hn]. fold key in Hk, Hn. fold place in Hk.
  assert (Hout : ∀ rel, place ≠ resolve (storageDir __dirname) ++ rel).
  { intros rel. unfold place. rewrite resolve_storageDir, <- app_assoc.
    intros H%app_inv_head. simpl in H. congruence. }
  split; [done|]. split.
  - intros localFilePath w' (_ & data & Hr & _ & Hq)%uploadToS3_inv.
    rewrite Hk in Hq. rewrite Hr, Hq, decide_True by done.
    split; [done|]. split; [done|].
    intros rel. unfold store. rewrite Hq. by rewrite decide_False by (apply not_eq_sym, Hout).
  - intros localPath w' p (-> & d & Hb & Hw)%downloadFromS3_inv.
    unfold blob, read_path in Hb. rewrite Hn, Hk in Hb. rewrite Hb.
    split; [done|]. apply write_path_inv in Hw as (_ & Hnl & Hs).
    apply read_path_stat. split; [done|]. by rewrite Hs, decide_True.
Qed.

Lemma write_needs_parent n dir name d :
  stat n dir = None → ∃ c, write n (dir ++ [name]) d = Err (FsError c).
Proof.
  revert n. induction dir as [|s dir IH]; intros n Hs.
  - by rewrite stat_nil in Hs.
  - simpl. destruct n as [d0|es]; [by eexists|].
    rewrite stat_cons_dir in Hs. destruct (es !! s) as [c|] eqn:He.
    + destruct (IH c Hs) as [c' ->]. by eexists.
    + destruct (dir ++ [name]) eqn:E; [by destruct dir|]. by eexists.
Qed.

(** X5: a get does not make the directory of the local path it is to
    write, as a put does for its destination: where that directory is
    missing the get fails with a file-system error, whatever the key
    names, and nothing has changed. *)
Theorem download_needs_directory s3Key localPath dir name w :
  resolve localPath = dir ++ [name] →
  stat (disk w) dir = None →
  ∃ c, downloadFromS3 __dirname s3Key localPath w = (w, Err (FsError c)).
Proof.
  intros Hl Hs. unfold downloadFromS3, copyFile, mbind, M_bind.
  destruct (lookup_path _ _) as [[d|]|]; [|by eexists..].
  unfold write_path, on_disk. destruct (names_directory localPath); [by eexists|].
  rewrite Hl. destruct (write_needs_parent (disk w) dir name d Hs) as [c ->]. by eexists.
Qed.

Lemma names_directory_storageDir : names_directory (storageDir __dirname) = false.
Proof. by apply names_directory_join_name. Qed.

(** X1: the statements at the top of the module make the storage directory
    when nothing is at its path.  They change no file and publish
    nothing; once they have run, running them again changes nothing at
    all; and when they fail, it is with a file-system error and with
    nothing changed. *)
Theorem configure_idempotent w w1 r :
  configure __dirname w = (w1, r) →
  match r with
  | Ok _ =>
      is_Some (stat (disk w1) (resolve (storageDir __dirname)))
      ∧ (∀ q, fdata (disk w1) q = fdata (disk w) q)
      ∧ video_uploads w1 = video_uploads w ∧ trace w1 = trace w
      ∧ configure __dirname w1 = (w1, Ok ())
  | Err e => w1 = w ∧ ∃ c, e = FsError c
  end.
Proof.
  unfold configure. rewrite (bind_run _ _ _ _ _ (existsSync_run _ w)).
  intros He. apply ensure_dir_inv in He. destruct r as [[]|e]; [|done].
  destruct He as ((Hv & _ & Ht) & Hf & Hs).
  split; [done|]. split; [done|]. split; [done|]. split; [done|].
  rewrite (bind_run _ _ _ _ _ (existsSync_run _ w1)).
  rewrite bool_decide_eq_true_2; [done|].
  unfold lookup_path. rewrite names_directory_storageDir.
  destruct Hs as [[d|] ->]; done.
Qed.

End Store.

(** ** The turns of the acquisition worker, whatever their end *)
Section Turns.
Import Path PathFacts Fs FsFacts.
Context (__dirname : string).
Context (yt_dlp : string → string → option Fs.bytes).
Context (broker : list string → string → delivery).

Lemma unlink_file n p d :
  p ≠ [] → stat n p = Some (IsFile d) → ∃ n', unlink n p = Ok n'.
Proof.
  revert n. induction p as [|s p IH]; intros n Hp Hs; [done|].
  destruct n as [d0|es]; [done|]. rewrite stat_cons_dir in Hs. simpl.
  destruct (es !! s) as [c|]; [|done].
  destruct p as [|s' p].
  - rewrite stat_nil in Hs. destruct c; [by eexists|done].
  - destruct (IH c) as [c' ->]; [done|done|]. by eexists.
Qed.

(** The trace of a turn: the downloader is started, once, and nothing
    else is recorded before the turn ends. *)
Lemma acquire_trace id w w' r :
  acquire __dirname yt_dlp broker id w = (w', r) →
  trace w' = trace w ++ [Exec (videoUrl id)
                           (join [producerTempDir __dirname; outputFilename id] +:+ ".mp4")].
Proof.
  unfold acquire.
  intros [(e & Hd & ->)|(w1 & a & Hd & Hrest)]%bind_inv;
    apply downloadYouTubeVideo_inv in Hd as (_ & _ & Ht1 & Hd); [done|].
  destruct Hd as (-> & _).
  apply bind_inv in Hrest as [(e & Hu & ->)|(w2 & [] & Hu & Hrest)];
    apply uploadToS3_inv in Hu as ((_ & _ & Ht2) & _); [congruence|].
  apply bind_inv in Hrest as [(e & Hp & ->)|(w3 & [] & Hp & Hu3)];
    apply produceEvent_inv in Hp as (_ & _ & Ht3 & _); [congruence|].
  apply unlinkSync_inv in Hu3. destruct r as [[]|e].
  - destruct Hu3 as ((_ & _ & Ht4) & _). congruence.
  - destruct Hu3 as [-> _]. congruence.
Qed.

(** The topic after a turn: at most the key of the id is added. *)
Lemma acquire_topic id w w' r :
  acquire __dirname yt_dlp broker id w = (w', r) →
  video_uploads w' = video_uploads w ∨ video_uploads w' = video_uploads w ++ [videoKey id].
Proof.
  unfold acquire.
  intros [(e & Hd & ->)|(w1 & a & Hd & Hrest)]%bind_inv;
    apply downloadYouTubeVideo_inv in Hd as (Hv1 & _ & _ & Hd); [by left|].
  destruct Hd as (-> & _).
  apply bind_inv in Hrest as [(e & Hu & ->)|(w2 & [] & Hu & Hrest)];
    apply uploadToS3_inv in Hu as ((Hv2 & _ & _) & _); [left; congruence|].
  apply bind_inv in Hrest as [(e & Hp & ->)|(w3 & [] & Hp & Hu3)];
    apply produceEvent_inv in Hp as (_ & _ & _ & Hp).
  { destruct Hp as [_ [Hv3|Hv3]]; rewrite Hv3, Hv2, Hv1; [by left|by right]. }
  destruct Hp as [_ Hv3].
  apply unlinkSync_inv in Hu3. destruct r as [[]|e].
  - destruct Hu3 as ((Hv4 & _ & _) & _). right. congruence.
  - destruct Hu3 as [-> _]. right. congruence.
Qed.

Section FailedTurn.
Context (id : string) (Hid : slash_free id = true).

(** What a turn that ends with an error has done: by the kind of the
    error, the step that failed, and the files and messages that the
    steps before it have left. *)
Lemma acquire_failed w w' e :
  acquire __dirname yt_dlp broker id w = (w', Err e) →
  match e with
  | ExecError => disk w' = disk w ∧ video_uploads w' = video_uploads w
  | FsError _ =>
      ∃ data,
        yt_dlp (videoUrl id) (join [producerTempDir __dirname; outputFilename id]) = Some data
        ∧ video_uploads w' = video_uploads w
        ∧ ∀ q, fdata (disk w') q
               = if decide (q = resolve __dirname ++ ["temp"; outputFilename id +:+ ".mp4"])
                 then Some data else fdata (disk w) q
  | KafkaError =>
      ∃ data,
        yt_dlp (videoUrl id) (join [producerTempDir __dirname; outputFilename id]) = Some data
        ∧ video_uploads w'
          = match broker (video_uploads w) (videoKey id) with
            | DisconnectFails => video_uploads w ++ [videoKey id]
            | _ => video_uploads w
            end
        ∧ broker (video_uploads w) (videoKey id) ≠ Delivered
        ∧ ∀ q, fdata (disk w') q
               = if decide (q = resolve (storageDir __dirname)
                                 ++ ["videos"; outputFilename id +:+ ".mp4"])
                 then Some data
                 else if decide (q = resolve __dirname
                                      ++ ["temp"; outputFilename id +:+ ".mp4"])
                      then Some data else fdata (disk w) q
  | _ => False
  end.
Proof using Hid.
  unfold acquire.
  destruct (resolve_localOutputPath __dirname id Hid) as [Hl Hnl].
  destruct (resolve_videoKey __dirname id Hid) as [Hk _].
  set (tmp := resolve __dirname ++ ["temp"; outputFilename id +:+ ".mp4"]) in *.
  set (obj := resolve (storageDir __dirname) ++ ["videos"; outputFilename id +:+ ".mp4"]) in *.
  intros [(e' & Hd & Heq)|(w1 & a & Hd & Hrest)]%bind_inv;
    apply downloadYouTubeVideo_inv in Hd as (Hv1 & _ & _ & Hd).
  { injection Heq as <-. by destruct Hd as [-> Hd]. }
  destruct Hd as (-> & data & Hy & _ & Hs1). rewrite Hl in Hs1.
  assert (Hf1 : ∀ q, fdata (disk w1) q = if decide (q = tmp) then Some data else fdata (disk w) q).
  { intros q. unfold fdata. rewrite Hs1. by case_decide. }
  apply bind_inv in Hrest as [(e' & Hu & Heq)|(w2 & [] & Hu & Hrest)];
    apply uploadToS3_inv in Hu as ((Hv2 & _ & _) & Hu).
  { injection Heq as <-. destruct Hu as [[c ->] Hq2]. exists data.
    split; [done|]. split; [congruence|]. intros q. by rewrite Hq2. }
  destruct Hu as (data' & Hr & _ & Hq2). rewrite Hk in Hq2.
  apply read_path_stat in Hr as [_ Hr]. rewrite Hl, Hs1, decide_True in Hr by done.
  injection Hr as <-.
  apply bind_inv in Hrest as [(e' & Hp & Heq)|(w3 & [] & Hp & Hu3)].
  { injection Heq as <-. unfold produceEvent in Hp. rewrite Hv2, Hv1 in Hp.
    destruct (broker (video_uploads w) (videoKey id)) eqn:Hb; try done;
      injection Hp as <- <-; exists data; (split; [done|]); simpl;
      (split; [congruence|]); (split; [done|]);
      intros q; rewrite Hq2; case_decide; try done; apply Hf1. }
  apply produceEvent_inv in Hp as (Hd3 & _ & _ & _).
  exfalso. unfold unlinkSync in Hu3.
  apply on_disk_inv in Hu3 as [(? & _ & _ & ?)|(e' & Hu3 & _ & _)]; [done|].
  rewrite Hnl, Hl, Hd3 in Hu3.
  destruct (unlink_file (disk w2) tmp data) as [n' Hn'].
  - unfold tmp. by destruct (resolve __dirname).
  - apply fdata_file. rewrite Hq2. rewrite decide_False.
    + by rewrite Hf1, decide_True.
    + apply not_eq_sym, videoKey_place_outside_temp.
  - congruence.
Qed.

(** A turn that adds its key to the topic has stored the object. *)
Lemma published_stored w w' r :
  acquire __dirname yt_dlp broker id w = (w', r) →
  video_uploads w' = video_uploads w ++ [videoKey id] →
  is_Some (store __dirname w' ["videos"; outputFilename id +:+ ".mp4"]).
Proof using Hid.
  intros Ha Hv.
  assert (Hno : video_uploads w' ≠ video_uploads w).
  { rewrite Hv. intros H%(f_equal length). rewrite length_app in H. simpl in H. lia. }
  unfold store. destruct r as [[]|e].
  - apply (acquire_ok __dirname yt_dlp broker id Hid) in Ha as (data & _ & _ & _ & _ & _ & Hq).
    rewrite Hq. rewrite decide_False by apply (videoKey_place_outside_temp __dirname id).
    by rewrite decide_True.
  - apply acquire_failed in Ha. destruct e; try done.
    + by destruct Ha as (data & _ & ? & _).
    + by destruct Ha as [_ ?].
    + destruct Ha as (data & _ & _ & _ & Hq). rewrite Hq. by rewrite decide_True.
Qed.

(** X10: a turn that ends with an error is logged and not undone.  After
    a failed download nothing has changed; after a failed put the
    download is still in the scratch directory and nothing is
    published; after a failed publication the object is in the store
    and the download still in the scratch directory, and the message
    is on the topic all the same when it was the disconnection that
    failed. *)
Theorem failed_turn_keeps_partial_work w w' e :
  acquire __dirname yt_dlp broker id w = (w', Err e) →
  let localOutputPath := join [producerTempDir __dirname; outputFilename id] +:+ ".mp4" in
  attempt __dirname yt_dlp broker id w
  = (set_trace (trace w' ++ [ConsoleError "Error in producer:" e]) w', Ok ())
  ∧ match e with
    | ExecError => disk w' = disk w ∧ video_uploads w' = video_uploads w
    | FsError _ =>
        ∃ data,
          yt_dlp (videoUrl id) (join [producerTempDir __dirname; outputFilename id])
          = Some data
          ∧ read_path (disk w') localOutputPath = Some data
          ∧ video_uploads w' = video_uploads w
          ∧ ∀ rel, store __dirname w' rel = store __dirname w rel
    | KafkaError =>
        ∃ data,
          yt_dlp (videoUrl id) (join [producerTempDir __dirname; outputFilename id])
          = Some data
          ∧ read_path (disk w') localOutputPath = Some data
          ∧ blob __dirname w' (videoKey id) = Some data
          ∧ broker (video_uploads w) (videoKey id) ≠ Delivered
          ∧ video_uploads w'
            = match broker (video_uploads w) (videoKey id) with
              | DisconnectFails => video_uploads w ++ [videoKey id]
              | _ => video_uploads w
              end
    | _ => False
    end.
Proof using Hid.
  intros Ha localOutputPath. split.
  { unfold attempt, catch. by rewrite Ha. }
  destruct (resolve_localOutputPath __dirname id Hid) as [Hl Hnl].
  apply acquire_failed in Ha. destruct e; try done.
  - destruct Ha as (data & Hy & Hv & Hq). exists data.
    split; [done|]. split.
    { unfold read_path, localOutputPath. by rewrite Hnl, Hl, Hq, decide_True. }
    split; [done|]. intros rel. unfold store. rewrite Hq, decide_False; [done|].
    rewrite <- Hl. apply not_eq_sym, localOutputPath_outside_store, Hid.
  - destruct Ha as (data & Hy & Hv & Hb & Hq). exists data.
    split; [done|]. split.
    { unfold read_path, localOutputPath. rewrite Hnl, Hl, Hq.
      rewrite decide_False by (apply not_eq_sym, videoKey_place_outside_temp).
      by rewrite decide_True. }
    split; [|done]. rewrite (blob_videoKey __dirname id Hid). unfold store.
    by rewrite Hq, decide_True.
Qed.

End FailedTurn.

Lemma downloads_app t1 t2 : downloads (t1 ++ t2) = downloads t1 ++ downloads t2.
Proof. apply omap_app. Qed.

Lemma attempt_downloads id w w' r :
  attempt __dirname yt_dlp broker id w = (w', r) →
  downloads (trace w') = downloads (trace w) ++ [download_of __dirname id].
Proof.
  intros [_ [Ha|(w0 & e & Ha & ->)]]%attempt_inv; apply acquire_trace in Ha.
  - by rewrite Ha, downloads_app.
  - simpl. by rewrite Ha, !downloads_app, app_nil_r.
Qed.

Lemma loop_downloads l w w' r :
  for_each l (attempt __dirname yt_dlp broker) w = (w', r) →
  downloads (trace w') = downloads (trace w) ++ (download_of __dirname <$> l).
Proof.
  revert w. induction l as [|id l IH]; intros w; simpl.
  - intros [= <- <-]. by rewrite app_nil_r.
  - intros [(e & Ha & _)|(w1 & [] & Ha & Hrest)]%bind_inv.
    { by apply attempt_inv in Ha as [? _]. }
    apply attempt_downloads in Ha. apply IH in Hrest.
    by rewrite Hrest, Ha, <- app_assoc.
Qed.

(** X7: the run has one way to fail, the scratch directory that cannot
    be made, and then it has done nothing.  Otherwise it returns
    normally after the downloader has been started exactly once for
    every id of the list, in the order of the list, on the address of
    the id and with its scratch path as output, whatever became of the
    ids before. *)
Theorem producer_tries_every_id_once ids w w' r :
  runProducer __dirname yt_dlp broker ids w = (w', r) →
  match r with
  | Ok _ => downloads (trace w') = downloads (trace w) ++ (download_of __dirname <$> ids)
  | Err e => w' = w ∧ (∃ c, e = FsError c)
             ∧ lookup_path (disk w) (producerTempDir __dirname) = None
  end.
Proof.
  rewrite runProducer_loop.
  intros [(e & Hs & ->)|(w0 & [] & Hs & Hl)]%bind_inv.
  - pose proof (ensure_dir_inv _ _ _ _ _ Hs) as [-> ?]. split; [done|]. split; [done|].
    destruct (lookup_path (disk w) (producerTempDir __dirname)) eqn:E; [|done].
    rewrite bool_decide_eq_true_2 in Hs by done. done.
  - pose proof (loop_ok __dirname yt_dlp broker ids w0) as Hok. rewrite Hl in Hok.
    simpl in Hok. subst r. apply loop_downloads in Hl. rewrite Hl.
    apply ensure_dir_inv in Hs as ((_ & _ & ->) & _). done.
Qed.

Lemma loop_topic l w w' r :
  for_each l (attempt __dirname yt_dlp broker) w = (w', r) →
  ∃ added, video_uploads w' = video_uploads w ++ added
           ∧ added `sublist_of` (videoKey <$> l).
Proof.
  revert w. induction l as [|id l IH]; intros w; simpl.
  - intros [= <- <-]. exists []. by rewrite app_nil_r.
  - intros [(e & Ha & _)|(w1 & [] & Ha & Hrest)]%bind_inv.
    { by apply attempt_inv in Ha as [? _]. }
    apply IH in Hrest as (added & Hv & Hsub).
    assert (Hv1 : video_uploads w1 = video_uploads w
                  ∨ video_uploads w1 = video_uploads w ++ [videoKey id]).
    { apply attempt_inv in Ha as [_ [Ha|(w0 & e & Ha & ->)]];
        by apply acquire_topic in Ha. }
    destruct Hv1 as [Hv1|Hv1]; rewrite Hv, Hv1.
    + exists added. split; [done|]. by apply sublist_cons.
    + exists (videoKey id :: added). split; [by rewrite <- app_assoc|].
      by apply sublist_skip.
Qed.

(** X8: the messages a run adds to the topic are keys of ids of the
    list, in the order of the list and at most one for each place of
    the list: a subsequence of the keys of the list. *)
Theorem events_in_list_order ids w w' r :
  runProducer __dirname yt_dlp broker ids w = (w', r) →
  ∃ added, video_uploads w' = video_uploads w ++ added
           ∧ added `sublist_of` (videoKey <$> ids).
Proof.
  rewrite runProducer_loop.
  intros [(e & Hs & ->)|(w0 & [] & Hs & Hl)]%bind_inv; apply ensure_dir_inv in Hs.
  - destruct Hs as [-> _]. exists []. split; [by rewrite app_nil_r|]. apply sublist_nil_l.
  - destruct Hs as ((Hv & _) & _). apply loop_topic in Hl as (added & Hl & Hsub).
    exists added. split; [congruence|done].
Qed.

Lemma loop_published_stored l w w' r :
  Forall (λ id, slash_free id = true) l →
  for_each l (attempt __dirname yt_dlp broker) w = (w', r) →
  ∃ added, video_uploads w' = video_uploads w ++ added
           ∧ ∀ key, key ∈ added → is_Some (blob __dirname w' key).
Proof.
  intros Hl. revert w. induction Hl as [|id l Hid Hl IH]; intros w; simpl.
  - intros [= <- <-]. exists []. split; [by rewrite app_nil_r|].
    intros key Hk. by apply elem_of_nil in Hk.
  - intros [(e & Ha & _)|(w1 & [] & Ha & Hrest)]%bind_inv.
    { by apply attempt_inv in Ha as [? _]. }
    pose proof (loop_frame __dirname yt_dlp broker l w1 w' r Hl Hrest) as (_ & _ & _ & Hs).
    apply IH in Hrest as (added & Hv & Hst).
    assert (Hturn : video_uploads w1 = video_uploads w
               ∨ (video_uploads w1 = video_uploads w ++ [videoKey id]
                  ∧ is_Some (store __dirname w1 ["videos"; outputFilename id +:+ ".mp4"]))).
    { apply attempt_inv in Ha as [_ [Ha|(w0 & e & Ha & ->)]];
        (destruct (acquire_topic _ _ _ _ Ha) as [?|Hv1]; [by left|right]);
        (split; [done|]); by apply (published_stored id Hid) in Ha. }
    destruct Hturn as [Hv1|[Hv1 Hobj]]; rewrite Hv, Hv1.
    + by exists added.
    + exists (videoKey id :: added). split; [by rewrite <- app_assoc|].
      intros key [->|Hk]%elem_of_cons; [|by apply Hst].
      rewrite (blob_videoKey __dirname id Hid).
      destruct (Hs ["videos"; outputFilename id +:+ ".mp4"]) as [->|?]; done.
Qed.

(** X9: no message without its object.  Every key a run adds to the
    topic names an object that is in the store when the run ends,
    whatever failed on the way. *)
Theorem published_keys_are_stored ids w w' r :
  Forall (λ id, slash_free id = true) ids →
  runProducer __dirname yt_dlp broker ids w = (w', r) →
  ∃ added, video_uploads w' = video_uploads w ++ added
           ∧ ∀ key, key ∈ added → is_Some (blob __dirname w' key).
Proof.
  intros Hids. rewrite runProducer_loop.
  intros [(e & Hs & ->)|(w0 & [] & Hs & Hl)]%bind_inv; apply ensure_dir_inv in Hs.
  - destruct Hs as [-> _]. exists []. split; [by rewrite app_nil_r|].
    intros key Hk. by apply elem_of_nil in Hk.
  - destruct Hs as ((Hv & _) & _).
    apply loop_published_stored in Hl as (added & Hl & Hst); [|done].
    exists added. split; [congruence|done].
Qed.

End Turns.

(** ** The same id, acquired twice *)
Section Reacquisition.
Import Path PathFacts Fs FsFacts.
Context (__dirname : string).
Context (yt_dlp1 yt_dlp2 : string → string → option Fs.bytes).
Context (broker1 broker2 : list string → string → delivery).

(** X11: nothing remembers that an id was acquired.  A second turn for
    the same id that ends well downloads again, writes the object again
    under the key it already had, now with the bytes of the second
    download, and publishes the key a second time. *)
Theorem reacquisition_republishes id w w1 w2 :
  slash_free id = true →
  acquire __dirname yt_dlp1 broker1 id w = (w1, Ok ()) →
  acquire __dirname yt_dlp2 broker2 id w1 = (w2, Ok ()) →
  ∃ data1 data2,
    yt_dlp1 (videoUrl id) (join [producerTempDir __dirname; outputFilename id]) = Some data1
    ∧ blob __dirname w1 (videoKey id) = Some data1
    ∧ yt_dlp2 (videoUrl id) (join [producerTempDir __dirname; outputFilename id]) = Some data2
    ∧ blob __dirname w2 (videoKey id) = Some data2
    ∧ video_uploads w2 = video_uploads w ++ [videoKey id; videoKey id].
Proof.
  intros Hid H1 H2.
  apply (acquire_ok __dirname yt_dlp1 broker1 id Hid) in H1
    as (data1 & Hy1 & _ & Hv1 & _ & _ & Hq1).
  apply (acquire_ok __dirname yt_dlp2 broker2 id Hid) in H2
    as (data2 & Hy2 & _ & Hv2 & _ & _ & Hq2).
  assert (Hobj : ∀ w' data,
            (∀ q, fdata (disk w') q
                  = if decide (q = resolve __dirname ++ ["temp"; outputFilename id +:+ ".mp4"])
                    then None
                    else if decide (q = resolve (storageDir __dirname)
                                        ++ ["videos"; outputFilename id +:+ ".mp4"])
                         then Some data else fdata (disk w) q) →
            blob __dirname w' (videoKey id) = Some data).
  { intros w' data Hq. rewrite (blob_videoKey __dirname id Hid). unfold store. rewrite Hq.
    rewrite decide_False by apply (videoKey_place_outside_temp __dirname id).
    by rewrite decide_True. }
  exists data1, data2. split; [done|]. split; [by apply Hobj|]. split; [done|].
  split.
  - apply Hobj. intros q. rewrite Hq2. case_decide; [done|]. case_decide; [done|].
    rewrite Hq1. by rewrite !decide_False.
  - by rewrite Hv2, Hv1, <- app_assoc.
Qed.

End Reacquisition.

(** ** The order in which the conversions end *)
Section Orders.
Import Path PathFacts Fs FsFacts.

(** Two files written one after the other at different paths can be
    written in the other order, with the same disk in the end. *)
Lemma write_swap p1 p2 d1 d2 n n1 n2 :
  p1 ≠ p2 →
  write n p1 d1 = Ok n1 → write n1 p2 d2 = Ok n2 →
  ∃ n1', write n p2 d2 = Ok n1' ∧ write n1' p1 d1 = Ok n2.
Proof.
  revert p2 n n1 n2. induction p1 as [|s1 p1 IH]; intros p2 n n1 n2 Hne H1 H2.
  { simpl in H1. destruct n; [|done]. injection H1 as <-.
    destruct p2; [done|]. done. }
  destruct n as [d0|es]; [done|]. simpl in H1.
  destruct p2 as [|s2 p2].
  { destruct (es !! s1) as [c|]; [destruct (write c p1 d1)|destruct p1];
      try done; by injection H1 as <-. }
  destruct (decide (s2 = s1)) as [->|Hs].
  - assert (Hp : p1 ≠ p2) by congruence.
    destruct (es !! s1) as [c|] eqn:Hc.
    + destruct (write c p1 d1) as [c'|] eqn:Hw1; [|done]. injection H1 as <-.
      simpl in H2. rewrite lookup_insert_eq in H2.
      destruct (write c' p2 d2) as [c''|] eqn:Hw2; [|done]. injection H2 as <-.
      destruct (IH p2 c c' c'' Hp Hw1 Hw2) as (c1 & Hc1 & Hc2).
      exists (Dir (<[s1:=c1]> es)). simpl. rewrite Hc, Hc1. split; [done|].
      rewrite lookup_insert_eq, Hc2. by rewrite !insert_insert_eq.
    + destruct p1; [|done]. injection H1 as <-.
      simpl in H2. rewrite lookup_insert_eq in H2. by destruct p2.
  - destruct (es !! s1) as [c|] eqn:Hc.
    + destruct (write c p1 d1) as [c'|] eqn:Hw1; [|done]. injection H1 as <-.
      simpl in H2. rewrite lookup_insert_ne in H2 by done.
      destruct (es !! s2) as [c2|] eqn:Hc2.
      * destruct (write c2 p2 d2) as [c2'|] eqn:Hw2; [|done]. injection H2 as <-.
        exists (Dir (<[s2:=c2']> es)). simpl. rewrite Hc2, Hw2. split; [done|].
        rewrite lookup_insert_ne by done. rewrite Hc, Hw1.
        by rewrite insert_insert_ne.
      * destruct p2; [|done]. injection H2 as <-.
        exists (Dir (<[s2:=File d2]> es)). simpl. rewrite Hc2. split; [done|].
        rewrite lookup_insert_ne by done. rewrite Hc, Hw1.
        by rewrite insert_insert_ne.
    + destruct p1; [|done]. injection H1 as <-.
      simpl in H2. rewrite lookup_insert_ne in H2 by done.
      destruct (es !! s2) as [c2|] eqn:Hc2.
      * destruct (write c2 p2 d2) as [c2'|] eqn:Hw2; [|done]. injection H2 as <-.
        exists (Dir (<[s2:=c2']> es)). simpl. rewrite Hc2, Hw2. split; [done|].
        rewrite lookup_insert_ne by done. rewrite Hc.
        by rewrite insert_insert_ne.
      * destruct p2; [|done]. injection H2 as <-.
        exists (Dir (<[s2:=File d2]> es)). simpl. rewrite Hc2. split; [done|].
        rewrite lookup_insert_ne by done. rewrite Hc.
        by rewrite insert_insert_ne.
Qed.

(** A conversion that ends well has written its output, and only that. *)
Lemma settle_ok c w w' a :
  settle c w = (w', Ok a) →
  a = conv_output c ∧ names_directory (conv_output c) = false ∧
  ∃ d n, conv_outcome c = Encoded d
         ∧ write (disk w) (resolve (conv_output c)) d = Ok n ∧ w' = set_disk n w.
Proof.
  unfold settle. destruct (conv_outcome c) as [d|debris].
  - intros (w1 & [] & Hc & Hr)%bind_ok. injection Hr as <- <-.
    unfold catch in Hc. destruct (write_path _ _ _) as [w2 [[]|e]] eqn:Hw; [|done].
    injection Hc as <-. unfold write_path, on_disk in Hw.
    destruct (names_directory (conv_output c)); [done|].
    destruct (write _ _ _) as [n|] eqn:Hn; [|done]. injection Hw as <-.
    split; [done|]. split; [done|]. by exists d, n.
  - intros [(e & _ & ?)|(w1 & [] & _ & ?)]%bind_inv; done.
Qed.

Lemma settle_run c w d n :
  names_directory (conv_output c) = false → conv_outcome c = Encoded d →
  write (disk w) (resolve (conv_output c)) d = Ok n →
  settle c w = (set_disk n w, Ok (conv_output c)).
Proof.
  intros Hn Hd Hw. unfold settle. rewrite Hd.
  unfold mbind, M_bind, catch, write_path, on_disk. by rewrite Hn, Hw.
Qed.

Lemma settle_swap c1 c2 w w1 w2 a1 a2 :
  resolve (conv_output c1) ≠ resolve (conv_output c2) →
  settle c1 w = (w1, Ok a1) → settle c2 w1 = (w2, Ok a2) →
  ∃ w1', settle c2 w = (w1', Ok a2) ∧ settle c1 w1' = (w2, Ok a1).
Proof.
  intros Hne (-> & Hn1 & d1 & n1 & Hd1 & Hw1 & ->)%settle_ok
             (-> & Hn2 & d2 & n2 & Hd2 & Hw2 & ->)%settle_ok.
  simpl in Hw2. destruct (write_swap _ _ _ _ _ _ _ Hne Hw1 Hw2) as (n1' & Hw1' & Hw2').
  exists (set_disk n1' w). split; [by apply (settle_run c2 w d2 n1')|].
  by rewrite (settle_run c1 (set_disk n1' w) d1 n2).
Qed.

Lemma await_all_perm l l' :
  l ≡ₚ l' →
  NoDup (resolve ∘ conv_output <$> l) →
  ∀ w w', await_all l w = (w', Ok ()) → await_all l' w = (w', Ok ()).
Proof.
  induction 1 as [|c l l' Hp IH|c1 c2 l|l l' l'' Hp1 IH1 Hp2 IH2]; intros Hnd w w'.
  - done.
  - apply NoDup_cons in Hnd as [_ Hnd]. simpl.
    destruct (settle c w) as [w1 [a|e]]; [|done]. by apply IH.
  - apply NoDup_cons in Hnd as [Hin _]. simpl.
    destruct (settle c2 w) as [w1 [a2|e]] eqn:H2; [|done].
    destruct (settle c1 w1) as [w2 [a1|e]] eqn:H1; [|done].
    intros Hrest.
    destruct (settle_swap c2 c1 w w1 w2 a2 a1) as (w1' & -> & ->); [|done|done|done].
    intros Heq. apply Hin. simpl. rewrite Heq. by left.
  - intros Hl. apply IH2.
    + by rewrite <- Hp1.
    + by apply IH1.
Qed.

End Orders.

(** ** More on the transcoding worker *)
Section Handler.
Import Path PathFacts Fs FsFacts.
Context (__dirname : string) (ffmpeg : string → string → transcode).

(** X6: [encodeVideo] never throws.  It returns a rejected promise when
    the scratch directory is missing and cannot be made (its [mkdir] is
    not recursive), and then starts no encoder; otherwise it starts one
    encoder, whose output is the file [<name>.<format>] directly in the
    scratch directory, [<name>] being the file name of the input
    without its extension, and it touches no file itself.  The output
    path depends on the file name of the input only, not on where the
    input is. *)
Theorem encodeVideo_outcome inputPath format w :
  extension format →
  let out := outputPath __dirname inputPath format in
  (∃ w' p,
     encodeVideo __dirname ffmpeg inputPath format w = (w', Ok p) ∧
     match p with
     | Pending c =>
         c = Conversion out (ffmpeg inputPath out)
         ∧ trace w' = trace w ++ [Ffmpeg inputPath out]
         ∧ is_Some (stat (disk w') (resolve (tempDir __dirname)))
         ∧ (∀ q, fdata (disk w') q = fdata (disk w) q)
     | Rejected e =>
         w' = w ∧ (∃ c, e = FsError c) ∧ lookup_path (disk w) (tempDir __dirname) = None
     end)
  ∧ resolve out
    = resolve __dirname
      ++ ["temp_encoded"; basename_ext inputPath (extname inputPath) +:+ "." +:+ format]
  ∧ (∀ rel, resolve out ≠ resolve (storageDir __dirname) ++ rel)
  ∧ (∀ inputPath', basename inputPath' = basename inputPath →
                   outputPath __dirname inputPath' format = out).
Proof.
  intros Hext out. split; [|split; [|split]].
  - destruct (when (negb (bool_decide (is_Some (lookup_path (disk w) (tempDir __dirname)))))
                (mkdirSync (tempDir __dirname) false) w) as [w1 [[]|e]] eqn:Hw.
    + unfold encodeVideo, catch. fold (tempDir __dirname).
      rewrite (bind_run _ _ _ _ _ (existsSync_run _ w)).
      rewrite (bind_run _ _ _ _ _ Hw). apply ensure_dir_inv in Hw as ((_ & _ & Ht) & Hf & Hs).
      eexists _, _. split; [reflexivity|]. simpl.
      split; [done|]. split; [by rewrite Ht|]. done.
    + unfold encodeVideo, catch. fold (tempDir __dirname).
      rewrite (bind_run _ _ _ _ _ (existsSync_run _ w)).
      rewrite (bind_fail _ _ _ _ _ Hw). eexists _, _. split; [reflexivity|]. simpl.
      pose proof (ensure_dir_inv _ _ _ _ _ Hw) as [-> ?]. split; [done|]. split; [done|].
      destruct (lookup_path (disk w) (tempDir __dirname)) eqn:E; [|done].
      rewrite bool_decide_eq_true_2 in Hw by done. done.
  - by apply resolve_outputPath.
  - intros rel. by apply outputPath_outside_store.
  - intros inputPath' Hb. unfold out, outputPath.
    rewrite (stem_component inputPath'), (stem_component inputPath).
    unfold basename in Hb. by rewrite Hb.
Qed.

Lemma for_each_fail {X} (body : X → M unit) l w w' e :
  for_each l body w = (w', Err e) → ∃ x w0, x ∈ l ∧ body x w0 = (w', Err e).
Proof.
  revert w. induction l as [|x l IH]; intros w; simpl; [done|].
  intros [(e' & Hb & [= ->])|(w1 & [] & Hb & Hrest)]%bind_inv.
  - exists x, w. split; [by left|done].
  - apply IH in Hrest as (x' & w0 & ? & ?). exists x', w0. split; [by right|done].
Qed.

(** The uploads fail with an error of the file system, or of the
    index into the list of outputs. *)
Lemma persist_fails count encodedVideos w w' e :
  persist __dirname count encodedVideos w = (w', Err e) →
  e = TypeError ∨ ∃ c, e = FsError c.
Proof.
  intros (i & w0 & _ & Hb)%for_each_fail.
  destruct (encodedVideos !! i) as [v|]; [|injection Hb as <- <-; by left].
  right. apply bind_inv in Hb as [(e' & Hu & [= ->])|(w1 & [] & _ & Hu)].
  - by apply uploadToS3_inv in Hu as (_ & ? & _).
  - by apply unlinkSync_inv in Hu as (_ & ?).
Qed.

(** X13: when the join of the conversions fails, the handler stops where
    it is.  The encoder has been started for every format, in the order
    of the formats, before any result was awaited; the copy of the
    original made for the conversions stays in the scratch directory;
    the topic is as it was. *)
Theorem failed_conversion_leaves_original sched formats s3Key w w' :
  processVideo __dirname ffmpeg sched formats s3Key w = (w', Err EncodeError) →
  is_Some (blob __dirname w s3Key)
  ∧ is_file w' (localVideoPath __dirname s3Key)
  ∧ trace w' = trace w ++ started __dirname (localVideoPath __dirname s3Key) formats
  ∧ video_uploads w' = video_uploads w.
Proof.
  rewrite processVideo_phases.
  intros [(e & Hf & Heq)|(w1 & a & Hf & Hrun)]%bind_inv;
    apply fetch_inv in Hf as ((Hv1 & _ & Ht1) & Hf).
  { injection Heq as <-. by destruct Hf as [[c ?] _]. }
  destruct Hf as (-> & d & Hb & Hn & Hs & Ht & _).
  apply bind_inv in Hrun as [(e & Hc & Heq)|(w2 & ev & Hc & Hrun)].
  - injection Heq as <-. split; [by rewrite Hb|].
    pose proof (convert_inv __dirname ffmpeg _ _ _ _ _ _ Ht Hc) as (Hv2 & Ht2 & _).
    split; [|split; [congruence|congruence]].
    rewrite convert_run in Hc by done.
    apply bind_inv in Hc as [(e & Ha & _)|(w3 & [] & _ & ?)]; [|done].
    eapply await_all_keeps_files; [exact Ha|]. by apply (stat_is_file _ _ d).
  - exfalso. apply bind_inv in Hrun as [(e & Hp & Heq)|(w3 & [] & _ & Hu)].
    + injection Heq as <-. apply persist_fails in Hp as [?|[c ?]]; done.
    + by apply unlinkSync_inv in Hu as (_ & c & ?).
Qed.

(** X12: a run over the configured formats that ends well leaves none of
    its scratch files: neither the copy of the original nor any of the
    encoded files is in the scratch directory afterwards. *)
Theorem successful_run_cleans_scratch sched s3Key w w' :
  processVideo __dirname ffmpeg sched outputFormats s3Key w = (w', Ok ()) →
  read_path (disk w') (localVideoPath __dirname s3Key) = None
  ∧ (∀ f, f ∈ outputFormats →
          read_path (disk w')
            (outputPath __dirname (localVideoPath __dirname s3Key) f) = None).
Proof.
  intros Hrun.
  pose proof (processVideo_ok __dirname ffmpeg _ _ _ _ _
                outputFormats_extensions outputFormats_NoDup Hrun)
    as (Hfs & Hloc & _).
  split.
  - unfold read_path. by destruct (names_directory _).
  - intros f Hf. destruct (Hfs f Hf) as (_ & _ & data & _ & _ & Hnone).
    unfold read_path, source in *. by destruct (names_directory _).
Qed.

(** X14: the order in which the conversions end has no part in a run
    that ends well: with any other order the run ends well too, and
    leaves the very same disk, topic and trace.  The outputs are
    uploaded in the order of the formats, whatever the order in which
    they were completed. *)
Theorem completion_order_irrelevant sched1 sched2 formats s3Key w w' :
  Forall extension formats → NoDup formats →
  processVideo __dirname ffmpeg sched1 formats s3Key w = (w', Ok ()) →
  processVideo __dirname ffmpeg sched2 formats s3Key w = (w', Ok ()).
Proof.
  intros Hext Hnd Hrun. rewrite processVideo_phases in Hrun |- *.
  apply bind_ok in Hrun as (w1 & a & Hf & Hrun). rewrite (bind_run _ _ _ _ _ Hf).
  apply fetch_inv in Hf as (_ & -> & d & _ & _ & _ & Ht & _).
  apply bind_ok in Hrun as (w2 & ev & Hc & Hrun).
  assert (Hc2 : convert __dirname ffmpeg sched2 formats (localVideoPath __dirname s3Key) w1
                = (w2, Ok ev)).
  { rewrite convert_run in Hc |- * by done.
    apply bind_ok in Hc as (w3 & [] & Ha & Hr).
    destruct (outputs_differ __dirname (localVideoPath __dirname s3Key) formats Hext Hnd)
      as (Hnd1 & _).
    rewrite <- list_fmap_compose in Hnd1.
    eapply await_all_perm in Ha.
    - by rewrite (bind_run _ _ _ _ _ Ha).
    - by rewrite !completion_order_perm.
    - by apply conversions_NoDup. }
  by rewrite (bind_run _ _ _ _ _ Hc2).
Qed.

End Handler.

(** ** Two originals with the same file name *)
Section SameName.
Import Path PathFacts Fs FsFacts.
Context (__dirname : string).
Context (ffmpeg1 ffmpeg2 : string → string → transcode).

(** X15: an encoded key keeps the file name of the original's key,
    without its extension, and nothing of the rest of it.  Two keys
    with the same such name, in whatever directories of the store and
    with whatever extensions, have the same encoded keys: the second to
    be processed replaces the encoded objects of the first. *)
Theorem same_name_same_encoded_keys sched1 sched2 s3Key1 s3Key2 w w1 w2 :
  basename_ext s3Key1 (extname s3Key1) = basename_ext s3Key2 (extname s3Key2) →
  processVideo __dirname ffmpeg1 sched1 outputFormats s3Key1 w = (w1, Ok ()) →
  processVideo __dirname ffmpeg2 sched2 outputFormats s3Key2 w1 = (w2, Ok ()) →
  ∀ f, f ∈ outputFormats →
    encoded_key s3Key1 f = encoded_key s3Key2 f
    ∧ ∃ data1 data2,
        ffmpeg1 (localVideoPath __dirname s3Key1)
          (outputPath __dirname (localVideoPath __dirname s3Key1) f) = Encoded data1
        ∧ blob __dirname w1 (encoded_key s3Key1 f) = Some data1
        ∧ ffmpeg2 (localVideoPath __dirname s3Key2)
            (outputPath __dirname (localVideoPath __dirname s3Key2) f) = Encoded data2
        ∧ blob __dirname w2 (encoded_key s3Key1 f) = Some data2.
Proof.
  intros Hb H1 H2 f Hf.
  assert (Hk : encoded_key s3Key1 f = encoded_key s3Key2 f).
  { unfold encoded_key, encoded_name. by rewrite Hb. }
  split; [done|].
  destruct (encoded_objects_written __dirname ffmpeg1 _ _ _ _ H1 f Hf) as (data1 & ? & ?).
  destruct (encoded_objects_written __dirname ffmpeg2 _ _ _ _ H2 f Hf) as (data2 & ? & Hb2).
  rewrite <- Hk in Hb2. by exists data1, data2.
Qed.

End SameName.

Section Keys.
Import Path PathFacts Fs FsFacts.
Context (__dirname : string).

(** X16: what a key must be like for the handler to get through, with
    the configured formats: it names an object, its last component is a
    file name, and its extension is none of the formats. *)
Theorem processable_keys ffmpeg sched s3Key w w' :
  processVideo __dirname ffmpeg sched outputFormats s3Key w = (w', Ok ()) →
  is_Some (blob __dirname w s3Key)
  ∧ proper (basename s3Key)
  ∧ ∀ f, f ∈ outputFormats → extname s3Key ≠ "." +:+ f.
Proof.
  intros Hrun.
  pose proof (processVideo_ok __dirname ffmpeg _ _ _ _ _
                outputFormats_extensions outputFormats_NoDup Hrun)
    as (Hfs & _ & _ & _ & _ & _ & Hb).
  split; [done|]. split.
  - destruct (Hfs "mp4") as [? _]; [|done]. by left.
  - intros f Hf Hext.
    pose proof (same_extension_never_completes __dirname ffmpeg sched outputFormats s3Key f w
                  outputFormats_extensions outputFormats_NoDup Hf Hext) as Hno.
    by rewrite Hrun in Hno.
Qed.

(** X17: the two workers together.  Every message that a run of the
    acquisition worker adds to the topic is the key of an id of its
    list, and the handler of the transcoding worker, with the
    configured formats, returns normally on none of them, whatever the
    encoder does. *)
Theorem published_events_cannot_be_processed yt_dlp broker ids w w' r :
  Forall (λ id, slash_free id = true) ids →
  runProducer __dirname yt_dlp broker ids w = (w', r) →
  ∃ added,
    video_uploads w' = video_uploads w ++ added
    ∧ ∀ key, key ∈ added →
        (∃ id, id ∈ ids ∧ key = videoKey id)
        ∧ ∀ ffmpeg sched w0,
            snd (processVideo __dirname ffmpeg sched outputFormats key w0) ≠ Ok ().
Proof.
  intros Hids. rewrite runProducer_loop.
  intros [(e & Hs & ->)|(w0 & [] & Hs & Hl)]%bind_inv; apply ensure_dir_inv in Hs.
  - destruct Hs as [-> _]. exists []. split; [by rewrite app_nil_r|].
    intros key Hk. by apply elem_of_nil in Hk.
  - destruct Hs as ((Hv & _) & _).
    apply loop_frame in Hl as (_ & _ & (added & Hl & Hk) & _); [|done].
    exists added. split; [congruence|]. intros key Hin.
    destruct (Hk key Hin) as (id & Hid & ->). split; [by exists id|].
    intros ffmpeg sched w1. apply producer_events_never_complete.
    rewrite Forall_forall in Hids. by apply Hids.
Qed.

End Keys.

(** ** What the workers leave alone *)
Section Frames.
Import Path PathFacts Fs FsFacts.
Context (__dirname : string).

(** The upload loop, however it ends, changes no file but those it
    takes and those it puts. *)
Lemma moves_frame (key : string → string) vs w w' r :
  for_each vs (λ v, uploadToS3 __dirname v (key v) ≫= λ _, unlinkSync v) w = (w', r) →
  disk_only w w' ∧
  ∀ q, (∀ v, v ∈ vs → q ≠ source v ∧ q ≠ target __dirname key v) →
       fdata (disk w') q = fdata (disk w) q.
Proof.
  revert w. induction vs as [|v vs IH]; intros w; simpl.
  - by intros [= <- <-].
  - assert (Hbody : ∀ w1 r1,
      (uploadToS3 __dirname v (key v) ≫= λ _, unlinkSync v) w = (w1, r1) →
      disk_only w w1 ∧
      ∀ q, q ≠ source v ∧ q ≠ target __dirname key v → fdata (disk w1) q = fdata (disk w) q).
    { intros w1 r1 [(e & Hu & _)|(w0 & [] & Hu & Hd)]%bind_inv;
        apply uploadToS3_inv in Hu as (Hdo & Hu).
      { destruct Hu as [_ Hq]. split; [done|]. intros q _. apply Hq. }
      destruct Hu as (data & _ & _ & Hq).
      assert (Hq0 : ∀ q, q ≠ source v ∧ q ≠ target __dirname key v →
                         fdata (disk w0) q = fdata (disk w) q).
      { intros q [_ Ht]. rewrite Hq. by rewrite decide_False. }
      apply unlinkSync_inv in Hd. destruct r1 as [[]|e].
      - destruct Hd as (Hdo' & _ & Hs). split; [by eapply disk_only_trans|].
        intros q Hq'. rewrite <- Hq0 by done. unfold fdata. rewrite Hs.
        rewrite decide_False; [done|]. apply Hq'.
      - destruct Hd as [-> _]. done. }
    intros [(e & Hb & _)|(w1 & [] & Hb & Hrest)]%bind_inv.
    + apply Hbody in Hb as [Hdo Hq]. split; [done|]. intros q Hall. apply Hq, Hall. by left.
    + apply Hbody in Hb as [Hdo Hq]. apply IH in Hrest as [Hdo' Hq'].
      split; [by eapply disk_only_trans|]. intros q Hall.
      rewrite Hq' by (intros v' Hv'; apply Hall; by right). apply Hq, Hall. by left.
Qed.

(** X18: however the handler ends, it publishes nothing, and of the Blob
    Store it changes nothing but places directly under [encoded/]: no
    original, and no other object, is ever written or removed by it. *)
Theorem handler_writes_only_encoded ffmpeg sched formats s3Key w w' r :
  Forall extension formats →
  processVideo __dirname ffmpeg sched formats s3Key w = (w', r) →
  video_uploads w' = video_uploads w
  ∧ ∀ rel, (∀ name, rel ≠ ["encoded"; name]) →
           store __dirname w' rel = store __dirname w rel.
Proof.
  intros Hext. rewrite Forall_forall in Hext. rewrite processVideo_phases.
  set (inputPath := localVideoPath __dirname s3Key).
  intros [(e & Hf & _)|(w1 & a & Hf & Hrun)]%bind_inv;
    apply fetch_inv in Hf as ((Hv1 & _) & Hf).
  { destruct Hf as [_ Hq]. split; [done|]. intros rel _. by apply store_files. }
  destruct Hf as (-> & d & _ & _ & _ & Ht & Hq1). fold inputPath in Hq1, Hrun.
  assert (Hs1 : ∀ rel, store __dirname w1 rel = store __dirname w rel).
  { intros rel. unfold store. apply Hq1, not_eq_sym, localVideoPath_outside_store. }
  assert (Hconv : ∀ w2 r2,
            convert __dirname ffmpeg sched formats inputPath w1 = (w2, r2) →
            video_uploads w2 = video_uploads w1
            ∧ ∀ rel, store __dirname w2 rel = store __dirname w1 rel).
  { intros w2 r2 Hc. apply convert_inv in Hc as (Hv2 & _ & Hq2 & _); [|done].
    split; [done|]. intros rel. unfold store, fdata. rewrite Hq2; [done|].
    intros f Hf. apply not_eq_sym, outputPath_outside_store. by apply Hext. }
  apply bind_inv in Hrun as [(e & Hc & _)|(w2 & ev & Hc & Hrun)].
  { apply Hconv in Hc as [Hv2 Hs2]. split; [congruence|].
    intros rel _. by rewrite Hs2. }
  pose proof (Hconv _ _ Hc) as [Hv2 Hs2].
  apply convert_inv in Hc as (_ & _ & _ & -> & _); [|done].
  assert (Hpers : ∀ w3 r3,
            persist __dirname (length formats) (outputPath __dirname inputPath <$> formats) w2
            = (w3, r3) →
            video_uploads w3 = video_uploads w2
            ∧ ∀ rel, (∀ name, rel ≠ ["encoded"; name]) →
                     store __dirname w3 rel = store __dirname w2 rel).
  { intros w3 r3 Hp.
    rewrite <- (length_fmap (outputPath __dirname inputPath)), persist_run in Hp.
    apply (moves_frame upload_key) in Hp as ((Hv3 & _) & Hq3).
    split; [done|]. intros rel Hrel. unfold store. apply Hq3.
    intros v (f & -> & Hf)%list_elem_of_fmap. split.
    - apply not_eq_sym, outputPath_outside_store. by apply Hext.
    - destruct (target_outputPath __dirname inputPath f (Hext f Hf)) as [-> _].
      rewrite resolve_storageDir, <- app_assoc. intros Heq%app_inv_head.
      simpl in Heq. injection Heq as Heq. by eapply Hrel. }
  apply bind_inv in Hrun as [(e & Hp & _)|(w3 & [] & Hp & Hu)].
  { apply Hpers in Hp as [Hv3 Hs3]. split; [congruence|].
    intros rel Hrel. by rewrite Hs3, Hs2. }
  apply Hpers in Hp as [Hv3 Hs3]. apply unlinkSync_inv in Hu. destruct r as [[]|e].
  - destruct Hu as ((Hv4 & _) & _ & Hs4). split; [congruence|].
    intros rel Hrel. rewrite <- Hs1, <- Hs2, <- Hs3 by done.
    unfold store, fdata. rewrite Hs4. rewrite decide_False; [done|].
    apply not_eq_sym, localVideoPath_outside_store.
  - destruct Hu as [-> _]. split; [congruence|].
    intros rel Hrel. by rewrite Hs3, Hs2.
Qed.

Lemma loop_store yt_dlp broker l w w' r :
  Forall (λ id, slash_free id = true) l →
  for_each l (attempt __dirname yt_dlp broker) w = (w', r) →
  ∀ rel, store __dirname w' rel = store __dirname w rel
         ∨ (is_Some (store __dirname w' rel)
            ∧ ∃ id, id ∈ l ∧ rel = ["videos"; outputFilename id +:+ ".mp4"]).
Proof.
  intros Hl. revert w. induction Hl as [|id l Hid Hl IH]; intros w; simpl.
  - intros [= <- <-] rel. by left.
  - intros [(e & Ha & _)|(w1 & [] & Ha & Hrest)]%bind_inv.
    { by apply attempt_inv in Ha as [? _]. }
    apply (attempt_frame __dirname yt_dlp broker id) in Ha as (_ & _ & Hs1); [|done].
    pose proof (loop_frame __dirname yt_dlp broker l w1 w' r Hl Hrest) as (_ & _ & _ & Hmono).
    intros rel. destruct (IH _ Hrest rel) as [Heq|[Hsome (id' & Hin & ->)]].
    + rewrite Heq. destruct (Hs1 rel) as [?|[-> Hsome]]; [by left|right].
      split; [done|]. exists id. split; [by left|done].
    + right. split; [done|]. exists id'. split; [by right|done].
Qed.

(** X19: however a run of the acquisition worker goes, it removes no
    object of the Blob Store, and the only places of the store it
    writes are those of the keys of its ids, each of which then holds
    an object. *)
Theorem producer_writes_only_its_keys yt_dlp broker ids w w' r :
  Forall (λ id, slash_free id = true) ids →
  runProducer __dirname yt_dlp broker ids w = (w', r) →
  ∀ rel, store __dirname w' rel = store __dirname w rel
         ∨ (is_Some (store __dirname w' rel)
            ∧ ∃ id, id ∈ ids ∧ rel = ["videos"; outputFilename id +:+ ".mp4"]
                    ∧ blob __dirname w' (videoKey id) = store __dirname w' rel).
Proof.
  intros Hids. rewrite runProducer_loop.
  intros [(e & Hs & _)|(w0 & [] & Hs & Hl)]%bind_inv rel; apply ensure_dir_inv in Hs.
  - destruct Hs as [-> _]. by left.
  - destruct Hs as (_ & Hq & _).
    destruct (loop_store _ _ _ _ _ _ Hids Hl rel) as [Heq|[Hsome (id & Hin & ->)]].
    + left. rewrite Heq. by apply store_files.
    + right. split; [done|]. exists id. split; [done|]. split; [done|].
      apply blob_videoKey. rewrite Forall_forall in Hids. by apply Hids.
Qed.

End Frames.

(** ** At sample inputs *)

Lemma upload_then_download_witness :
  let w := sample_world "a.mov" in
  let w1 := fst (uploadToS3 "/app" "/app/storage/videos/a.mov" "copies/b.mov" w) in
  uploadToS3 "/app" "/app/storage/videos/a.mov" "copies/b.mov" w = (w1, Ok ()) ∧
  ∃ data,
    read_path (disk w) "/app/storage/videos/a.mov" = Some data
    ∧ ∀ localPath w2 p,
        downloadFromS3 "/app" "copies/b.mov" localPath w1 = (w2, Ok p) →
        read_path (disk w2) localPath = Some data.
Proof.
  intros w w1.
  assert (H : uploadToS3 "/app" "/app/storage/videos/a.mov" "copies/b.mov" w = (w1, Ok ()))
    by (vm_compute; reflexivity).
  split; [exact H|].
  destruct (upload_then_download "/app" _ _ _ _ H) as (data & Hr & _ & Hd).
  exists data. split; [exact Hr|]. intros localPath w2 p Hp.
  exact (proj2 (Hd localPath w2 (Ok p) Hp)).
Defined.


Lemma keys_are_not_confined_witness :
  proper "secret" ∧ "secret" ≠ "storage" ∧
  ∀ rel, Path.resolve "/app" ++ ["secret"] ≠ Path.resolve (storageDir "/app") ++ rel.
Proof.
  assert (Hp : proper "secret") by (repeat split; done).
  assert (Hn : "secret" ≠ "storage") by done.
  split; [exact Hp|]. split; [exact Hn|].
  exact (proj1 (keys_are_not_confined "/app" "secret" sample_empty_world Hp Hn)).
Defined.

Lemma download_needs_directory_witness :
  Path.resolve "/app/temp_encoded/a.mov" = ["app"; "temp_encoded"] ++ ["a.mov"] ∧
  Fs.stat (disk (sample_world "a.mov")) ["app"; "temp_encoded"] = None ∧
  ∃ c, downloadFromS3 "/app" "videos/a.mov" "/app/temp_encoded/a.mov" (sample_world "a.mov")
       = (sample_world "a.mov", Err (FsError c)).
Proof.
  assert (H1 : Path.resolve "/app/temp_encoded/a.mov" = ["app"; "temp_encoded"] ++ ["a.mov"])
    by (vm_compute; reflexivity).
  assert (H2 : Fs.stat (disk (sample_world "a.mov")) ["app"; "temp_encoded"] = None)
    by (vm_compute; reflexivity).
  split; [exact H1|]. split; [exact H2|].
  exact (download_needs_directory "/app" "videos/a.mov" _ _ _ _ H1 H2).
Defined.

Lemma configure_idempotent_witness :
  let w1 := fst (configure "/app" sample_empty_world) in
  configure "/app" sample_empty_world = (w1, Ok ()) ∧
  configure "/app" w1 = (w1, Ok ()).
Proof.
  intros w1.
  assert (H : configure "/app" sample_empty_world = (w1, Ok ())) by (vm_compute; reflexivity).
  split; [exact H|].
  exact (proj2 (proj2 (proj2 (proj2 (configure_idempotent "/app" _ _ _ H))))).
Defined.

Lemma failed_turn_keeps_partial_work_witness :
  let w := fst (runProducer "/app" sample_yt_dlp sample_broker_hangup [] sample_empty_world) in
  let w' := fst (acquire "/app" sample_yt_dlp sample_broker_hangup "a" w) in
  slash_free "a" = true ∧
  acquire "/app" sample_yt_dlp sample_broker_hangup "a" w = (w', Err KafkaError) ∧
  ∃ data,
    read_path (disk w') "/app/temp/downloaded_video_a.mp4" = Some data
    ∧ blob "/app" w' (videoKey "a") = Some data
    ∧ video_uploads w' = [videoKey "a"].
Proof.
  intros w w'.
  assert (H : acquire "/app" sample_yt_dlp sample_broker_hangup "a" w
              = (w', Err KafkaError)) by (vm_compute; reflexivity).
  split; [reflexivity|]. split; [exact H|].
  destruct (failed_turn_keeps_partial_work "/app" sample_yt_dlp sample_broker_hangup "a"
              eq_refl _ _ _ H) as (_ & data & _ & Hr & Hb & _ & Hv).
  exists data. split; [exact Hr|]. split; [exact Hb|exact Hv].
Defined.

Lemma producer_tries_every_id_once_witness :
  let w' := fst (runProducer "/app" sample_yt_dlp sample_broker ["a"; "b"; "c"]
                   sample_empty_world) in
  runProducer "/app" sample_yt_dlp sample_broker ["a"; "b"; "c"] sample_empty_world
  = (w', Ok ()) ∧
  downloads (trace w')
  = [(videoUrl "a", "/app/temp/downloaded_video_a.mp4");
     (videoUrl "b", "/app/temp/downloaded_video_b.mp4");
     (videoUrl "c", "/app/temp/downloaded_video_c.mp4")].
Proof.
  intros w'.
  assert (H : runProducer "/app" sample_yt_dlp sample_broker ["a"; "b"; "c"] sample_empty_world
              = (w', Ok ())) by (vm_compute; reflexivity).
  split; [exact H|].
  exact (producer_tries_every_id_once "/app" _ _ _ _ _ _ H).
Defined.

Lemma events_in_list_order_witness :
  let w' := fst (runProducer "/app" sample_yt_dlp sample_broker ["a"; "b"; "c"]
                   sample_empty_world) in
  runProducer "/app" sample_yt_dlp sample_broker ["a"; "b"; "c"] sample_empty_world
  = (w', Ok ()) ∧
  ∃ added, video_uploads w' = [] ++ added
           ∧ added `sublist_of` [videoKey "a"; videoKey "b"; videoKey "c"].
Proof.
  intros w'.
  assert (H : runProducer "/app" sample_yt_dlp sample_broker ["a"; "b"; "c"] sample_empty_world
              = (w', Ok ())) by (vm_compute; reflexivity).
  split; [exact H|].
  exact (events_in_list_order "/app" _ _ _ _ _ _ H).
Defined.

Lemma published_keys_are_stored_witness :
  let w' := fst (runProducer "/app" sample_yt_dlp sample_broker_hangup ["a"; "b"; "c"]
                   sample_empty_world) in
  Forall (λ id, slash_free id = true) ["a"; "b"; "c"] ∧
  runProducer "/app" sample_yt_dlp sample_broker_hangup ["a"; "b"; "c"] sample_empty_world
  = (w', Ok ()) ∧
  ∃ added, video_uploads w' = [] ++ added
           ∧ ∀ key, key ∈ added → is_Some (blob "/app" w' key).
Proof.
  intros w'.
  assert (H0 : Forall (λ id, slash_free id = true) ["a"; "b"; "c"])
    by (repeat constructor).
  assert (H : runProducer "/app" sample_yt_dlp sample_broker_hangup ["a"; "b"; "c"]
                sample_empty_world = (w', Ok ())) by (vm_compute; reflexivity).
  split; [exact H0|]. split; [exact H|].
  exact (published_keys_are_stored "/app" _ _ _ _ _ _ H0 H).
Defined.

Lemma encodeVideo_outcome_witness :
  extension "mp4" ∧
  Path.resolve (outputPath "/app" "/somewhere/else/clip.final.mov" "mp4")
  = ["app"; "temp_encoded"; "clip.final.mp4"].
Proof.
  assert (H : extension "mp4") by (repeat split; done).
  split; [exact H|].
  exact (proj1 (proj2 (encodeVideo_outcome "/app" sample_ffmpeg
                         "/somewhere/else/clip.final.mov" "mp4" sample_empty_world H))).
Defined.

Lemma failed_conversion_leaves_original_witness :
  let w' := fst (processVideo "/app" sample_ffmpeg_no_avi [] outputFormats "videos/a.mov"
                   (sample_world "a.mov")) in
  processVideo "/app" sample_ffmpeg_no_avi [] outputFormats "videos/a.mov"
    (sample_world "a.mov") = (w', Err EncodeError) ∧
  is_file w' (localVideoPath "/app" "videos/a.mov").
Proof.
  intros w'.
  assert (H : processVideo "/app" sample_ffmpeg_no_avi [] outputFormats "videos/a.mov"
                (sample_world "a.mov") = (w', Err EncodeError)) by (vm_compute; reflexivity).
  split; [exact H|].
  exact (proj1 (proj2 (failed_conversion_leaves_original "/app" _ _ _ _ _ _ H))).
Defined.

Lemma successful_run_cleans_scratch_witness :
  let w' := fst (processVideo "/app" sample_ffmpeg [] outputFormats "videos/a.mov"
                   (sample_world "a.mov")) in
  processVideo "/app" sample_ffmpeg [] outputFormats "videos/a.mov" (sample_world "a.mov")
  = (w', Ok ()) ∧
  read_path (disk w') (localVideoPath "/app" "videos/a.mov") = None.
Proof.
  intros w'.
  assert (H : processVideo "/app" sample_ffmpeg [] outputFormats "videos/a.mov"
                (sample_world "a.mov") = (w', Ok ())) by (vm_compute; reflexivity).
  split; [exact H|].
  exact (proj1 (successful_run_cleans_scratch "/app" _ _ _ _ _ H)).
Defined.

Lemma completion_order_irrelevant_witness :
  let w' := fst (processVideo "/app" sample_ffmpeg [] outputFormats "videos/a.mov"
                   (sample_world "a.mov")) in
  Forall extension outputFormats ∧ NoDup outputFormats ∧
  processVideo "/app" sample_ffmpeg [] outputFormats "videos/a.mov" (sample_world "a.mov")
  = (w', Ok ()) ∧
  processVideo "/app" sample_ffmpeg [3; 0; 1] outputFormats "videos/a.mov"
    (sample_world "a.mov") = (w', Ok ()).
Proof.
  intros w'.
  assert (H : processVideo "/app" sample_ffmpeg [] outputFormats "videos/a.mov"
                (sample_world "a.mov") = (w', Ok ())) by (vm_compute; reflexivity).
  split; [exact outputFormats_extensions|]. split; [exact outputFormats_NoDup|].
  split; [exact H|].
  exact (completion_order_irrelevant "/app" sample_ffmpeg [] [3; 0; 1] _ _ _ _
           outputFormats_extensions outputFormats_NoDup H).
Defined.

Lemma same_name_same_encoded_keys_witness :
  let w1 := fst (processVideo "/app" sample_ffmpeg [] outputFormats "videos/a.mov"
                   sample_world_two) in
  let w2 := fst (processVideo "/app" sample_ffmpeg_again [] outputFormats "other/a.wmv" w1) in
  Path.basename_ext "videos/a.mov" (Path.extname "videos/a.mov")
  = Path.basename_ext "other/a.wmv" (Path.extname "other/a.wmv") ∧
  processVideo "/app" sample_ffmpeg [] outputFormats "videos/a.mov" sample_world_two
  = (w1, Ok ()) ∧
  processVideo "/app" sample_ffmpeg_again [] outputFormats "other/a.wmv" w1 = (w2, Ok ()) ∧
  ∀ f, f ∈ outputFormats → encoded_key "videos/a.mov" f = encoded_key "other/a.wmv" f.
Proof.
  intros w1 w2.
  assert (H0 : Path.basename_ext "videos/a.mov" (Path.extname "videos/a.mov")
               = Path.basename_ext "other/a.wmv" (Path.extname "other/a.wmv"))
    by (vm_compute; reflexivity).
  assert (H1 : processVideo "/app" sample_ffmpeg [] outputFormats "videos/a.mov"
                 sample_world_two = (w1, Ok ())) by (vm_compute; reflexivity).
  assert (H2 : processVideo "/app" sample_ffmpeg_again [] outputFormats "other/a.wmv" w1
               = (w2, Ok ())) by (vm_compute; reflexivity).
  split; [exact H0|]. split; [exact H1|]. split; [exact H2|].
  intros f Hf.
  exact (proj1 (same_name_same_encoded_keys "/app" sample_ffmpeg sample_ffmpeg_again
                  [] [] _ _ _ _ _ H0 H1 H2 f Hf)).
Defined.

Lemma processable_keys_witness :
  let w' := fst (processVideo "/app" sample_ffmpeg [] outputFormats "videos/a.mov"
                   (sample_world "a.mov")) in
  processVideo "/app" sample_ffmpeg [] outputFormats "videos/a.mov" (sample_world "a.mov")
  = (w', Ok ()) ∧
  proper (Path.basename "videos/a.mov").
Proof.
  intros w'.
  assert (H : processVideo "/app" sample_ffmpeg [] outputFormats "videos/a.mov"
                (sample_world "a.mov") = (w', Ok ())) by (vm_compute; reflexivity).
  split; [exact H|].
  exact (proj1 (proj2 (processable_keys "/app" _ _ _ _ _ H))).
Defined.

Lemma published_events_cannot_be_processed_witness :
  let w' := fst (runProducer "/app" sample_yt_dlp sample_broker ids sample_empty_world) in
  Forall (λ id, slash_free id = true) ids ∧
  runProducer "/app" sample_yt_dlp sample_broker ids sample_empty_world = (w', Ok ()) ∧
  ∃ added,
    video_uploads w' = [] ++ added
    ∧ ∀ key, key ∈ added →
        ∀ ffmpeg sched w0,
          snd (processVideo "/app" ffmpeg sched outputFormats key w0) ≠ Ok ().
Proof.
  intros w'.
  assert (H : runProducer "/app" sample_yt_dlp sample_broker ids sample_empty_world
              = (w', Ok ())) by (vm_compute; reflexivity).
  split; [exact ids_plain|]. split; [exact H|].
  destruct (published_events_cannot_be_processed "/app" _ _ _ _ _ _ ids_plain H)
    as (added & Hv & Hk).
  exists added. split; [exact Hv|]. intros key Hin. exact (proj2 (Hk key Hin)).
Defined.

Lemma reacquisition_republishes_witness :
  let w := fst (runProducer "/app" sample_yt_dlp sample_broker [] sample_empty_world) in
  let w1 := fst (acquire "/app" sample_yt_dlp sample_broker "a" w) in
  let w2 := fst (acquire "/app" sample_yt_dlp sample_broker "a" w1) in
  slash_free "a" = true ∧
  acquire "/app" sample_yt_dlp sample_broker "a" w = (w1, Ok ()) ∧
  acquire "/app" sample_yt_dlp sample_broker "a" w1 = (w2, Ok ()) ∧
  video_uploads w2 = video_uploads w ++ [videoKey "a"; videoKey "a"].
Proof.
  intros w w1 w2.
  assert (H1 : acquire "/app" sample_yt_dlp sample_broker "a" w = (w1, Ok ()))
    by (vm_compute; reflexivity).
  assert (H2 : acquire "/app" sample_yt_dlp sample_broker "a" w1 = (w2, Ok ()))
    by (vm_compute; reflexivity).
  split; [reflexivity|]. split; [exact H1|]. split; [exact H2|].
  destruct (reacquisition_republishes "/app" sample_yt_dlp sample_yt_dlp sample_broker
              sample_broker "a" _ _ _ eq_refl H1 H2) as (d1 & d2 & _ & _ & _ & _ & Hv).
  exact Hv.
Defined.

Lemma handler_writes_only_encoded_witness :
  let w' := fst (processVideo "/app" sample_ffmpeg_no_avi [] outputFormats "videos/a.mov"
                   (sample_world "a.mov")) in
  Forall extension outputFormats ∧
  processVideo "/app" sample_ffmpeg_no_avi [] outputFormats "videos/a.mov"
    (sample_world "a.mov") = (w', Err EncodeError) ∧
  store "/app" w' ["videos"; "a.mov"] = Some [Byte.x01].
Proof.
  intros w'.
  assert (H : processVideo "/app" sample_ffmpeg_no_avi [] outputFormats "videos/a.mov"
                (sample_world "a.mov") = (w', Err EncodeError)) by (vm_compute; reflexivity).
  split; [exact outputFormats_extensions|]. split; [exact H|].
  destruct (handler_writes_only_encoded "/app" _ _ _ _ _ _ _ outputFormats_extensions H)
    as [_ Hs].
  rewrite (Hs ["videos"; "a.mov"]) by done. vm_compute. reflexivity.
Defined.

Lemma producer_writes_only_its_keys_witness :
  let w' := fst (runProducer "/app" sample_yt_dlp sample_broker ["a"; "b"]
                   (sample_world "a.mov")) in
  Forall (λ id, slash_free id = true) ["a"; "b"] ∧
  runProducer "/app" sample_yt_dlp sample_broker ["a"; "b"] (sample_world "a.mov")
  = (w', Ok ()) ∧
  (store "/app" w' ["videos"; "a.mov"] = store "/app" (sample_world "a.mov") ["videos"; "a.mov"]
   ∨ is_Some (store "/app" w' ["videos"; "a.mov"])).
Proof.
  intros w'.
  assert (H0 : Forall (λ id, slash_free id = true) ["a"; "b"]) by (repeat constructor).
  assert (H : runProducer "/app" sample_yt_dlp sample_broker ["a"; "b"] (sample_world "a.mov")
              = (w', Ok ())) by (vm_compute; reflexivity).
  split; [exact H0|]. split; [exact H|].
  destruct (producer_writes_only_its_keys "/app" _ _ _ _ _ _ H0 H ["videos"; "a.mov"])
    as [Heq|[Hsome _]]; [by left|by right].
Defined.
